(** * Bill_Processing: a shallow embedding of the harvesting core

    The development follows the three Python sources of the repository:

    - [Bill_Info_API_Filler.py]: the credential queues ([load_api_key_queues],
      [get_api_key]), the retry controller ([fetch_data],
      [fetch_endpoint_data]), the fan-out ([fetch_record_data]) and the batch
      pipeline ([process_batch], [process_batches], [main]);
    - [Adaptive_API_Bill_Requests.py]: the adaptive date-range partitioner
      ([generate_date_range], [congress_api_call], [adaptive_api_call]);
    - the field-extraction pass ([get_sponsor_info], [get_summaries_count],
      [get_cosponsor_info], [get_subject_info], [get_latest_summary_text]).

    Python values that the code only passes around are kept abstract; control
    flow, exceptions and the shared mutable state are written out. *)

From stdpp Require Import gmap strings list sorting pretty.
From Stdlib Require Import ZArith Lia.

Set Default Proof Using "Type".
Set Warnings "-register-all".

(** ** Exceptions and results

    A Python call either returns a value or raises.  [Suspended] is the
    third outcome of a coroutine: an [await] that is never resumed (a
    [Queue.get] on a queue nobody fills). *)

Inductive exn : Set :=
  | KeyError
  | UnboundLocalError
  | AttributeError
  | TypeError
  | SyntaxError
  | ValueError
  | OverflowError
  | EmptyDataError
  | IndexError
  | OtherError.

Inductive result (A : Type) : Type :=
  | Ok (a : A)
  | Raise (e : exn)
  | Suspended.

Arguments Ok {A} a.
Arguments Raise {A} e.
Arguments Suspended {A}.

Definition bind {A B : Type} (r : result A) (k : A -> result B) : result B :=
  match r with
  | Ok a => k a
  | Raise e => Raise e
  | Suspended => Suspended
  end.

Notation "'let*' x ':=' r 'in' k" := (bind r (fun x => k))
  (at level 10, x name, r at level 100, k at level 200, only parsing).
Notation "'let*' ' p ':=' r 'in' k" := (bind r (fun p => k))
  (at level 10, p strict pattern, r at level 100, k at level 200, only parsing).

(** Effectful code threads a state [S]; the state survives an exception, as
    the mutations of a Python object do. *)
Definition M (S A : Type) : Type := S -> S * result A.

Definition ret {S A : Type} (a : A) : M S A := fun s => (s, Ok a).

Definition raise {S A : Type} (e : exn) : M S A := fun s => (s, Raise e).

Definition lift {S A : Type} (r : result A) : M S A := fun s => (s, r).

Definition mbindS {S A B : Type} (m : M S A) (k : A -> M S B) : M S B :=
  fun s =>
    match m s with
    | (s', Ok a) => k a s'
    | (s', Raise e) => (s', Raise e)
    | (s', Suspended) => (s', Suspended)
    end.

Notation "'do*' x ':=' m 'in' k" := (mbindS m (fun x => k))
  (at level 10, x name, m at level 100, k at level 200, only parsing).
Notation "'do*' ' p ':=' m 'in' k" := (mbindS m (fun p => k))
  (at level 10, p strict pattern, m at level 100, k at level 200, only parsing).

#[global] Instance result_fmap : FMap result :=
  fun A B f r =>
    match r with
    | Ok a => Ok (f a)
    | Raise e => Raise e
    | Suspended => Suspended
    end.

Definition is_Ok {A : Type} (r : result A) : bool :=
  match r with Ok _ => true | _ => false end.

#[global] Instance exn_eq_dec : EqDecision exn.
Proof. solve_decision. Defined.

(** ** The credential pool ([asyncio.Queue] per group, [get_api_key]) *)

Module Pool.

Section Queue.

Context {K : Type}.

(** [asyncio.Queue()] is unbounded; its [_queue] is a deque, here the list of
    its items, front first. *)
Definition put_nowait (q : list K) (key : K) : list K := q ++ [key].

(** [queue.get()] on a non-empty queue removes the front item without
    suspending; on an empty queue the caller is suspended. *)
Definition queue_get (q : list K) : result (K * list K) :=
  match q with
  | [] => Suspended
  | key :: rest => Ok (key, rest)
  end.

(** [queue.put(key)] on an unbounded queue never suspends. *)
Definition queue_put (q : list K) (key : K) : list K := put_nowait q key.

(** [get_api_key(api_key_queues, endpoint_group)]: the key is taken from the
    front of the group's queue and put back at once; the caller keeps using
    the returned value. *)
Definition get_api_key (api_key_queues : gmap string (list K)) (endpoint_group : string)
    : result (K * gmap string (list K)) :=
  match api_key_queues !! endpoint_group with
  | None => Raise KeyError
  | Some queue =>
      let* '(api_key, rest) := queue_get queue in
      Ok (api_key, <[endpoint_group := queue_put rest api_key]> api_key_queues)
  end.

(** [n] successive calls of [get_api_key] on one group: the keys handed out,
    in order, and the queues afterwards. *)
Fixpoint get_api_keys (n : nat) (api_key_queues : gmap string (list K)) (endpoint_group : string)
    : result (list K * gmap string (list K)) :=
  match n with
  | O => Ok ([], api_key_queues)
  | S n' =>
      let* '(api_key, queues1) := get_api_key api_key_queues endpoint_group in
      let* '(keys, queues2) := get_api_keys n' queues1 endpoint_group in
      Ok (api_key :: keys, queues2)
  end.

(** *** Arbitrary interleavings of the two queue operations

    The pool of one group seen by all tasks: the queue and the tokens that
    were taken and not put back yet.  [Borrow] is [queue.get()], [Return key]
    is [queue.put(key)] by a task that holds [key]. *)

Inductive pool_op : Type :=
  | Borrow
  | Return (key : K).

Record pool : Type := Pool { queued : list K; outstanding : list K }.

Context `{!EqDecision K}.

(** Removes the first occurrence of [key]; [None] when nobody holds it. *)
Fixpoint release (key : K) (held : list K) : option (list K) :=
  match held with
  | [] => None
  | k :: held' =>
      if decide (k = key) then Some held'
      else cons k <$> release key held'
  end.

(** One operation; [None] when it cannot take place (a borrow on an empty
    queue stays suspended, a task cannot return what it does not hold). *)
Definition pool_step (p : pool) (op : pool_op) : option pool :=
  match op with
  | Borrow =>
      match queue_get (queued p) with
      | Ok (key, rest) => Some (Pool rest (key :: outstanding p))
      | _ => None
      end
  | Return key =>
      held ← release key (outstanding p);
      Some (Pool (queue_put (queued p) key) held)
  end.

Fixpoint pool_run (p : pool) (ops : list pool_op) : option pool :=
  match ops with
  | [] => Some p
  | op :: ops' => p' ← pool_step p op; pool_run p' ops'
  end.

(** *** Facts *)

Lemma release_Some (key : K) (held held' : list K) :
  release key held = Some held' -> held ≡ₚ key :: held'.
Proof.
  revert held'. induction held as [|k held IH]; intros held' H; simpl in H.
  - discriminate.
  - destruct (decide (k = key)) as [->|Hne].
    + by inversion H.
    + destruct (release key held) as [h|] eqn:E; simpl in H; [|discriminate].
      inversion H; subst. rewrite (IH h eq_refl). apply Permutation_swap.
Qed.

Lemma release_held (key : K) (held : list K) :
  key ∈ held -> is_Some (release key held).
Proof.
  induction held as [|k held IH]; intros Hin; simpl.
  - by apply elem_of_nil in Hin.
  - destruct (decide (k = key)); [by eexists|].
    apply elem_of_cons in Hin as [->|Hin]; [done|].
    destruct (IH Hin) as [h ->]. by eexists.
Qed.

Lemma pool_step_tokens (p p' : pool) (op : pool_op) :
  pool_step p op = Some p' ->
  queued p' ++ outstanding p' ≡ₚ queued p ++ outstanding p.
Proof.
  destruct p as [q out], op as [|key]; simpl; intros H.
  - destruct q as [|k rest]; simpl in H; [discriminate|].
    inversion H; subst; simpl. by rewrite <- Permutation_middle.
  - destruct (release key out) as [held|] eqn:E; simpl in H; [|discriminate].
    inversion H; subst; simpl. unfold queue_put, put_nowait.
    rewrite (release_Some _ _ _ E), <- app_assoc. done.
Qed.

Lemma pool_run_tokens (ops : list pool_op) (p p' : pool) :
  pool_run p ops = Some p' ->
  queued p' ++ outstanding p' ≡ₚ queued p ++ outstanding p.
Proof.
  revert p. induction ops as [|op ops IH]; intros p H; simpl in H.
  - by inversion H.
  - destruct (pool_step p op) as [p1|] eqn:E; simpl in H; [|discriminate].
    rewrite (IH _ H). by eapply pool_step_tokens.
Qed.

Lemma get_api_key_front (api_key_queues : gmap string (list K)) (g : string)
    (key : K) (rest : list K) :
  api_key_queues !! g = Some (key :: rest) ->
  get_api_key api_key_queues g = Ok (key, <[g := rest ++ [key]]> api_key_queues).
Proof. intros H. unfold get_api_key. by rewrite H. Qed.

(** [get_api_key] is one [Borrow] followed at once by the [Return] of the
    key it got. *)
Lemma get_api_key_as_ops (api_key_queues : gmap string (list K)) (g : string)
    (key : K) (queues' : gmap string (list K)) (q : list K) :
  api_key_queues !! g = Some q ->
  get_api_key api_key_queues g = Ok (key, queues') ->
  exists q', queues' = <[g := q']> api_key_queues /\
    pool_run (Pool q []) [Borrow; Return key] = Some (Pool q' []).
Proof.
  intros Hq H. unfold get_api_key in H. rewrite Hq in H.
  destruct q as [|k rest]; simpl in H; [discriminate|].
  inversion H; subst. exists (rest ++ [key]). split; [done|].
  simpl. by rewrite decide_True.
Qed.

(** Handing out the keys of a prefix [a] of the queue moves that prefix, in
    order, behind the rest. *)
Lemma get_api_keys_prefix (a b : list K) (api_key_queues : gmap string (list K)) (g : string) :
  api_key_queues !! g = Some (a ++ b) ->
  get_api_keys (length a) api_key_queues g = Ok (a, <[g := b ++ a]> api_key_queues).
Proof.
  revert b api_key_queues. induction a as [|k a IH]; intros b queues Hq; simpl.
  - rewrite app_nil_r. by rewrite insert_id.
  - simpl in Hq. rewrite (get_api_key_front _ _ _ _ Hq). simpl.
    rewrite (IH (b ++ [k])); last by rewrite lookup_insert_eq, <- app_assoc.
    simpl. by rewrite insert_insert_eq, <- app_assoc.
Qed.

Lemma get_api_keys_add (n m : nat) (api_key_queues : gmap string (list K)) (g : string) :
  get_api_keys (n + m) api_key_queues g =
  let* '(keys1, queues1) := get_api_keys n api_key_queues g in
  let* '(keys2, queues2) := get_api_keys m queues1 g in
  Ok (keys1 ++ keys2, queues2).
Proof.
  revert api_key_queues. induction n as [|n IH]; intros queues; simpl.
  - by destruct (get_api_keys m queues g) as [[??]| |].
  - destruct (get_api_key queues g) as [[k q1]| |]; simpl; [|done..].
    rewrite IH. destruct (get_api_keys n q1 g) as [[ks q2]| |]; simpl; [|done..].
    by destruct (get_api_keys m q2 g) as [[??]| |].
Qed.

(** One borrow per token of the group hands out every token once, in queue
    order, and leaves the queue as it was. *)
Lemma get_api_keys_round (q : list K) (api_key_queues : gmap string (list K)) (g : string) :
  api_key_queues !! g = Some q ->
  get_api_keys (length q) api_key_queues g = Ok (q, api_key_queues).
Proof.
  intros Hq. rewrite (get_api_keys_prefix q []); last by rewrite app_nil_r.
  simpl. by rewrite insert_id.
Qed.

Lemma get_api_keys_rounds (m : nat) (q : list K) (api_key_queues : gmap string (list K)) (g : string) :
  api_key_queues !! g = Some q ->
  get_api_keys (m * length q) api_key_queues g = Ok (concat (replicate m q), api_key_queues).
Proof.
  intros Hq. induction m as [|m IH]; simpl; [done|].
  rewrite get_api_keys_add, (get_api_keys_round _ _ _ Hq). simpl.
  by rewrite IH.
Qed.

(** Tokens that are all different stay so, in the queue and among the
    borrowers together. *)
Lemma pool_run_NoDup (init : list K) (ops : list pool_op) (p : pool) :
  NoDup init ->
  pool_run (Pool init []) ops = Some p ->
  NoDup (queued p ++ outstanding p).
Proof.
  intros Hnd H. apply pool_run_tokens in H. simpl in H.
  rewrite app_nil_r in H. by rewrite H.
Qed.

(** C6: for every sequence of borrow and return operations on a group's
    pool the multiset of its tokens (queued or held by a borrower) is the
    initial one, so no token is duplicated or dropped; tokens that are
    distinct at start are never outstanding twice nor outstanding and queued
    at once; and rotation is strict FIFO: [get_api_key] hands out the front
    token and appends it at the back, so a prefix of the queue is handed out
    in order and moved behind the rest, and [m] full rounds of borrows hand
    out every token exactly [m] times, in queue order, leaving the queue as
    it was. *)
Theorem credential_pool_invariant (init : list K) :
  (forall ops p, pool_run (Pool init []) ops = Some p ->
     queued p ++ outstanding p ≡ₚ init) /\
  (forall ops p, NoDup init -> pool_run (Pool init []) ops = Some p ->
     NoDup (outstanding p) /\ forall key, key ∈ outstanding p -> key ∉ queued p) /\
  (forall api_key_queues g key rest,
     api_key_queues !! g = Some (key :: rest) ->
     get_api_key api_key_queues g = Ok (key, <[g := rest ++ [key]]> api_key_queues) /\
     pool_run (Pool (key :: rest) []) [Borrow; Return key] = Some (Pool (rest ++ [key]) [])) /\
  (forall api_key_queues g a b,
     api_key_queues !! g = Some (a ++ b) ->
     get_api_keys (length a) api_key_queues g = Ok (a, <[g := b ++ a]> api_key_queues)) /\
  (forall api_key_queues g m,
     api_key_queues !! g = Some init ->
     get_api_keys (m * length init) api_key_queues g =
       Ok (concat (replicate m init), api_key_queues)).
Proof.
  split_and!.
  - intros ops p H. apply pool_run_tokens in H. simpl in H.
    by rewrite app_nil_r in H.
  - intros ops p Hnd H. pose proof (pool_run_NoDup _ _ _ Hnd H) as Hall.
    apply NoDup_app in Hall as (_ & Hdisj & Hout). split; [done|].
    intros key Hk Hq. by apply (Hdisj key).
  - intros queues g key rest Hq. split; [by apply get_api_key_front|].
    simpl. by rewrite decide_True.
  - intros queues g a b Hq. by apply get_api_keys_prefix.
  - intros queues g m Hq. by apply get_api_keys_rounds.
Qed.

End Queue.

Arguments pool : clear implicits.
Arguments pool_op : clear implicits.

(** *** Loading the key file ([load_api_key_queues])

    What [json.load] returns: an object is a Python [dict], given here by
    its members in file order (a name that occurs twice keeps its last
    value). *)

Inductive json : Type :=
  | JNull
  | JBool (b : bool)
  | JNumber (z : Z)
  | JString (s : string)
  | JArray (items : list json)
  | JObject (members : list (string * json)).

(** [for key in keys]: a list yields its items, a string its characters, a
    dict its keys; anything else is not iterable. *)
Definition iterate (keys : json) : result (list json) :=
  match keys with
  | JArray items => Ok items
  | JString s => Ok ((fun c => JString (String c EmptyString)) <$> String.list_ascii_of_string s)
  | JObject members => Ok (JString <$> members.*1)
  | JNull | JBool _ | JNumber _ => Raise TypeError
  end.

(** The body of [for group_name, keys in api_keys.items()]. *)
Fixpoint load_groups (members : list (string * json)) (api_key_queues : gmap string (list json))
    : result (gmap string (list json)) :=
  match members with
  | [] => Ok api_key_queues
  | (group_name, keys) :: members' =>
      let* items := iterate keys in
      let queue := foldl put_nowait [] items in
      load_groups members' (<[group_name := queue]> api_key_queues)
  end.

(** [load_api_key_queues], from the decoded content of the key file on:
    [api_keys.items()] needs a dict. *)
Definition load_api_key_queues (api_keys : json) : result (gmap string (list json)) :=
  match api_keys with
  | JObject members => load_groups members ∅
  | _ => Raise AttributeError
  end.

Lemma foldl_put_nowait {K : Type} (q items : list K) :
  foldl put_nowait q items = q ++ items.
Proof.
  revert q. induction items as [|k items IH]; intros q; simpl.
  - by rewrite app_nil_r.
  - rewrite IH. unfold put_nowait. by rewrite <- app_assoc.
Qed.


Lemma foldl_insert_not_in (members : list (string * list json))
    (api_key_queues : gmap string (list json)) (g : string) :
  g ∉ members.*1 ->
  foldl (fun queues '(group_name, items) => <[group_name := items]> queues)
        api_key_queues members !! g = api_key_queues !! g.
Proof.
  revert api_key_queues. induction members as [|[g' items] members IH]; intros queues Hg.
  - done.
  - simpl in *. apply not_elem_of_cons in Hg as [Hne Hg].
    rewrite IH by done. by rewrite lookup_insert_ne.
Qed.

(** *** What loading accepts, and what the queues hold *)

(** The items [for key in keys] goes through, none when [keys] is not
    iterable. *)
Definition items_of (keys : json) : list json :=
  match iterate keys with
  | Ok items => items
  | _ => []
  end.

Definition iterable (member : string * json) : Prop := is_Ok (iterate member.2) = true.

Lemma load_groups_spec (members : list (string * json)) :
  forall api_key_queues,
  match load_groups members api_key_queues with
  | Ok queues =>
      Forall iterable members /\
      queues = foldl (fun queues '(group_name, items) => <[group_name := items]> queues)
                     api_key_queues (prod_map id items_of <$> members)
  | Raise e =>
      e = TypeError /\
      exists pre group_name keys post,
        members = pre ++ (group_name, keys) :: post /\
        Forall iterable pre /\ iterate keys = Raise TypeError
  | Suspended => False
  end.
Proof.
  induction members as [|[g keys] members IH]; intros queues; simpl.
  - by split.
  - destruct (iterate keys) as [items|e|] eqn:Hit; simpl.
    + specialize (IH (<[g := foldl put_nowait [] items]> queues)).
      rewrite foldl_put_nowait in *. simpl in *.
      destruct (load_groups members _) as [queues'|e|]; [| |done].
      * destruct IH as [Hall ->]. split.
        -- constructor; [|done]. unfold iterable. simpl. by rewrite Hit.
        -- unfold items_of at 2. by rewrite Hit.
      * destruct IH as (-> & pre & g' & keys' & post & -> & Hpre & Hkeys).
        split; [done|]. exists ((g, keys) :: pre), g', keys', post.
        split_and!; [done| |done]. constructor; [|done].
        unfold iterable. simpl. by rewrite Hit.
    + assert (e = TypeError) as -> by (destruct keys; simpl in Hit; congruence).
      split; [done|]. by exists [], g, keys, members.
    + destruct keys; simpl in Hit; congruence.
Qed.


(** The queues [load_api_key_queues] returns are those of the file: there is
    one queue per group name, and the queue of a group holds the keys of
    the last entry of that name, in file order, so that as many calls of
    [get_api_key] as the group has keys hand them out in file order and
    leave the queue as loaded. *)
Theorem loaded_queues_keep_file_order (members : list (string * json))
    (api_key_queues : gmap string (list json)) :
  load_api_key_queues (JObject members) = Ok api_key_queues ->
  dom api_key_queues = list_to_set members.*1 /\
  forall pre group_name keys post,
    members = pre ++ (group_name, JArray keys) :: post ->
    group_name ∉ post.*1 ->
    api_key_queues !! group_name = Some keys /\
    get_api_keys (length keys) api_key_queues group_name = Ok (keys, api_key_queues).
Proof.
  simpl. intros Hload. pose proof (load_groups_spec members ∅) as H.
  rewrite Hload in H. destruct H as [_ ->]. split.
  - assert (forall init : gmap string (list json),
              dom (foldl (fun queues '(group_name, items) => <[group_name := items]> queues)
                         init (prod_map id items_of <$> members)) =
              list_to_set members.*1 ∪ dom init) as Hdom.
    { clear. induction members as [|[g keys] members IH]; intros init; simpl.
      - set_solver.
      - rewrite IH, dom_insert_L. set_solver. }
    rewrite Hdom, dom_empty_L. set_solver.
  - intros pre g keys post -> Hpost.
    assert (foldl (fun (queues : gmap string (list json)) '(group_name, items) =>
                     <[group_name := items]> queues)
                  ∅ (prod_map id items_of <$> (pre ++ (g, JArray keys) :: post)) !! g =
            Some keys) as Hq.
    { rewrite fmap_app, foldl_app. simpl. rewrite foldl_insert_not_in.
      - by rewrite lookup_insert_eq.
      - by rewrite <- list_fmap_compose. }
    split; [done|]. by apply get_api_keys_round.
Qed.

(** A key file that names [group_1] twice: the second entry replaces the
    first. *)
Definition key_file : list (string * json) :=
  [("group_1", JArray [JString "k1"; JString "k2"]);
   ("group_2", JArray [JString "k3"]);
   ("group_1", JArray [JString "k4"; JString "k5"])].

Lemma loaded_queues_witness :
  let api_key_queues : gmap string (list json) :=
    {[ "group_1" := [JString "k4"; JString "k5"]; "group_2" := [JString "k3"] ]} in
  dom api_key_queues = list_to_set key_file.*1 /\
  forall pre group_name keys post,
    key_file = pre ++ (group_name, JArray keys) :: post ->
    group_name ∉ post.*1 ->
    api_key_queues !! group_name = Some keys /\
    get_api_keys (length keys) api_key_queues group_name = Ok (keys, api_key_queues).
Proof.
  apply (loaded_queues_keep_file_order key_file). vm_compute. reflexivity.
Defined.

(** A group given as one string is read as one key per character; a group
    given as a number stops the loading. *)
Example load_string_group :
  load_api_key_queues (JObject [("group_1", JString "ab")]) =
  Ok {[ "group_1" := [JString "a"; JString "b"] ]}.
Proof. vm_compute. reflexivity. Qed.

Example load_number_group :
  load_api_key_queues (JObject [("group_1", JArray [JString "k1"]); ("group_2", JNumber 7)]) =
  Raise TypeError.
Proof. reflexivity. Qed.

End Pool.

(** ** The retry controller and the fan-out
    ([fetch_data], [fetch_endpoint_data], [fetch_record_data]) *)

Module Fetcher.

Import Pool.

Local Open Scope Z_scope.

Section Fetcher.

(** [K]: API keys; [Payload]: decoded JSON bodies; [Cell]: the values of the
    input table ([congress], [type], [number]). *)
Context {K Payload Cell : Type}.

(** What comes back for one [session.get(url)]: a response with its status
    and body, or an exception of the transport.  The body is what
    [response.json()] makes of it: a value, Python's [None] for the JSON
    [null], or an exception when it is not JSON. *)
Inductive body : Type :=
  | Json (data : Payload)
  | JsonNull
  | NotJson.

Inductive reply : Type :=
  | HttpReply (status : Z) (b : body)
  | TransportFailure.

(** The URL [https://api.congress.gov/v3/bill/{congress}/{bill_type}/{bill_number}{endpoint}?api_key={api_key}],
    by its parts. *)
Record request : Type := Request {
  r_congress : Cell;
  r_bill_type : Cell;
  r_bill_number : Cell;
  r_endpoint : string;
  r_api_key : K
}.

(** The [shared_state] dictionary of [process_batches].  [retry_statuses] is
    read with [shared_state.get('retry_statuses', {429})]. *)
Record shared_state : Type := SharedState {
  error_count : Z;
  max_retries_per_request : Z;
  backoff_factor : Z;
  retry_statuses : option (gset Z)
}.

(** Everything the coroutines of one run share and mutate: the key queues,
    [shared_state], and the two effects left in the world, the GETs issued
    and the [asyncio.sleep] durations, oldest first. *)
Record world : Type := World {
  api_key_queues : gmap string (list K);
  shared : shared_state;
  requests : list request;
  sleeps : list Z
}.

(** The remote API: the reply to the [n]-th GET of the run. *)
Variable net : nat -> request -> reply.

Definition set_queues (w : world) (queues : gmap string (list K)) : world :=
  World queues (shared w) (requests w) (sleeps w).

(** [async with shared_state['error_lock']: shared_state['error_count'] += 1] *)
Definition count_error (w : world) : world :=
  World (api_key_queues w)
        (SharedState (error_count (shared w) + 1)
                     (max_retries_per_request (shared w))
                     (backoff_factor (shared w))
                     (retry_statuses (shared w)))
        (requests w) (sleeps w).

Definition sleep (wait_time : Z) (w : world) : world :=
  World (api_key_queues w) (shared w) (requests w) (sleeps w ++ [wait_time]).

Definition session_get (url : request) (w : world) : world * reply :=
  (World (api_key_queues w) (shared w) (requests w ++ [url]) (sleeps w),
   net (length (requests w)) url).

(** [fetch_data(session, url)]: [(data, status)]; only status 200 yields
    data, any exception yields [(None, -1)].  [read_response] is the body of
    its [try] block once [session.get] has answered. *)
Definition read_response (response : reply) : option Payload * Z :=
  match response with
  | HttpReply status b =>
      if status =? 200 then
        match b with
        | Json data => (Some data, status)
        | JsonNull => (None, status)
        | NotJson => (None, -1)
        end
      else (None, status)
  | TransportFailure => (None, -1)
  end.

Definition fetch_data (url : request) (w : world) : world * (option Payload * Z) :=
  let '(w, response) := session_get url w in
  (w, read_response response).

Definition get_retry_statuses (st : shared_state) : gset Z :=
  default {[ 429 ]} (retry_statuses st).

Section Endpoint.

Variables (api_key_group : string) (congress bill_type bill_number : Cell)
          (endpoint endpoint_name : string).

(** How the [for _ in range(api_keys_in_group)] loop was left. *)
Inductive for_exit : Type :=
  | Exhausted
  | Broke
  | Returned (data : Payload).

(** The locals that outlive the [for] loop.  [data] is [None] while the
    variable is unbound, [Some d] once a fetch has assigned it. *)
Record locals : Type := Locals {
  l_exit : for_exit;
  l_retry_needed : bool;
  l_data : option (option Payload)
}.

(** The [for] loop over the keys of the group, [n] iterations left. *)
Fixpoint key_loop (n : nat) (retry_needed : bool) (data : option (option Payload))
    (w : world) : world * result locals :=
  match n with
  | O => (w, Ok (Locals Exhausted retry_needed data))
  | S n' =>
      match get_api_key (api_key_queues w) api_key_group with
      | Raise e => (w, Raise e)
      | Suspended => (w, Suspended)
      | Ok (api_key, queues) =>
          let w := set_queues w queues in
          let url := Request congress bill_type bill_number endpoint api_key in
          let '(w, (d, status)) := fetch_data url w in
          if bool_decide (status ∈ get_retry_statuses (shared w)) then
            key_loop n' true (Some d) (count_error w)
          else
            match d with
            | None => (count_error w, Ok (Locals Broke retry_needed (Some d)))
            | Some payload => (w, Ok (Locals (Returned payload) retry_needed (Some d)))
            end
      end
  end.

(** The final [return endpoint_name, data]: an [UnboundLocalError] when no
    fetch ever assigned [data]. *)
Definition return_data (data : option (option Payload)) (w : world)
    : world * result (string * option Payload) :=
  match data with
  | None => (w, Raise UnboundLocalError)
  | Some d => (w, Ok (endpoint_name, d))
  end.

(** The [while retry_count < max_retries] loop.  [rounds_left] is its
    variant, [max_retries - retry_count]: [retry_count] starts at 0 and
    grows by one per round that goes on. *)
Fixpoint retry_loop (rounds_left : nat) (retry_count : Z) (data : option (option Payload))
    (w : world) : world * result (string * option Payload) :=
  match rounds_left with
  | O => return_data data w
  | S rounds_left' =>
      if retry_count <? max_retries_per_request (shared w) then
        match api_key_queues w !! api_key_group with
        | None => (w, Raise KeyError)
        | Some queue =>
            let api_keys_in_group := length queue in
            match key_loop api_keys_in_group false data w with
            | (w, Raise e) => (w, Raise e)
            | (w, Suspended) => (w, Suspended)
            | (w, Ok l) =>
                match l_exit l with
                | Returned payload => (w, Ok (endpoint_name, Some payload))
                | _ =>
                    if l_retry_needed l then
                      let retry_count := retry_count + 1 in
                      if retry_count <? max_retries_per_request (shared w) then
                        let wait_time := backoff_factor (shared w) * retry_count in
                        retry_loop rounds_left' retry_count (l_data l) (sleep wait_time w)
                      else
                        return_data (l_data l) (count_error w)
                    else
                      return_data (l_data l) w
                end
            end
        end
      else return_data data w
  end.

(** [fetch_endpoint_data]; the semaphore only bounds how many of these run
    at once and is left out of this one-task view. *)
Definition fetch_endpoint_data (w : world) : world * result (string * option Payload) :=
  let max_retries := max_retries_per_request (shared w) in
  retry_loop (Z.to_nat max_retries) 0 None w.

(** *** The shape of a run

    [url_for key] is the request of an attempt made with [key];
    [rate_limited st response] says that [fetch_endpoint_data] takes the
    response for a rate-limit rejection (its status is a retry status);
    [failed st response] that it takes it for any other failure. *)

Definition url_for (api_key : K) : request :=
  Request congress bill_type bill_number endpoint api_key.

Definition rate_limited (st : shared_state) (response : reply) : Prop :=
  (read_response response).2 ∈ get_retry_statuses st.

Definition failed (st : shared_state) (response : reply) : Prop :=
  ((read_response response).2 ∉ get_retry_statuses st) /\
  (read_response response).1 = None.

Definition add_errors (n : Z) (st : shared_state) : shared_state :=
  SharedState (error_count st + n) (max_retries_per_request st)
              (backoff_factor st) (retry_statuses st).

(** The world after attempts with the keys [a] from the front of a queue
    [a ++ b], [errors] of which were counted. *)
Definition after_attempts (a b : list K) (errors : Z) (w : world) : world :=
  World (<[api_key_group := b ++ a]> (api_key_queues w))
        (add_errors errors (shared w))
        (requests w ++ (url_for <$> a))
        (sleeps w).

(** The backoff sleeps after rounds [first + 1], ..., [first + rounds]. *)
Definition backoffs (st : shared_state) (first : Z) (rounds : nat) : list Z :=
  fmap (fun i : nat => backoff_factor st * (first + Z.of_nat (S i))) (seq 0 rounds).

(** *** One attempt *)

Lemma world_eq (w : world) queues st reqs sl :
  api_key_queues w = queues -> shared w = st -> requests w = reqs -> sleeps w = sl ->
  w = World queues st reqs sl.
Proof. destruct w; simpl; congruence. Qed.

Lemma rate_limited_no_data (st : shared_state) (response : reply) :
  200 ∉ get_retry_statuses st ->
  rate_limited st response -> (read_response response).1 = None.
Proof.
  intros H200 Hrl. unfold rate_limited in Hrl.
  destruct response as [status b|]; simpl in *; [|done].
  destruct (status =? 200) eqn:E; [|done].
  apply Z.eqb_eq in E; subst. destruct b; simpl in *; done.
Qed.

Lemma key_loop_rate_limited_1 (n : nat) (rn : bool) (d : option (option Payload))
    (w : world) (key : K) (rest : list K) :
  api_key_queues w !! api_key_group = Some (key :: rest) ->
  200 ∉ get_retry_statuses (shared w) ->
  rate_limited (shared w) (net (length (requests w)) (url_for key)) ->
  key_loop (S n) rn d w =
  key_loop n true (Some None) (after_attempts [key] rest 1 w).
Proof.
  intros Hq H200 Hrl. simpl.
  rewrite (get_api_key_front _ _ _ _ Hq). simpl.
  unfold fetch_data, session_get. simpl.
  fold (url_for key).
  pose proof (rate_limited_no_data _ _ H200 Hrl) as Hnone.
  unfold rate_limited in Hrl.
  destruct (read_response (net (length (requests w)) (url_for key))) as [d' status].
  simpl in *. subst d'.
  rewrite bool_decide_eq_true_2 by done.
  reflexivity.
Qed.

Lemma after_attempts_compose (a1 a2 b : list K) (n1 n2 : Z) (w : world) :
  after_attempts a2 (b ++ a1) n2 (after_attempts a1 (a2 ++ b) n1 w) =
  after_attempts (a1 ++ a2) b (n1 + n2) w.
Proof.
  unfold after_attempts, add_errors; simpl. f_equal.
  - by rewrite insert_insert_eq, <- app_assoc.
  - f_equal. lia.
  - by rewrite fmap_app, <- app_assoc.
Qed.

(** *** Attempts that are all rate limited *)

Lemma key_loop_rate_limited (a : list K) :
  forall (key : K) (b : list K) (n : nat) (rn : bool) (d : option (option Payload)) (w : world),
  api_key_queues w !! api_key_group = Some ((key :: a) ++ b) ->
  200 ∉ get_retry_statuses (shared w) ->
  (forall i k, (key :: a) !! i = Some k ->
     rate_limited (shared w) (net (length (requests w) + i)%nat (url_for k))) ->
  key_loop (length (key :: a) + n) rn d w =
  key_loop n true (Some None) (after_attempts (key :: a) b (Z.of_nat (length (key :: a))) w).
Proof.
  induction a as [|k' a IH]; intros key b n rn d w Hq H200 Hrl.
  - simpl length. change (1 + n)%nat with (S n).
    apply key_loop_rate_limited_1; [done..|].
    specialize (Hrl 0%nat key eq_refl). by rewrite Nat.add_0_r in Hrl.
  - change (length (key :: k' :: a) + n)%nat with (S (length (k' :: a) + n)).
    rewrite (key_loop_rate_limited_1 _ _ _ _ key ((k' :: a) ++ b)); [|done..|].
    2:{ specialize (Hrl 0%nat key eq_refl). by rewrite Nat.add_0_r in Hrl. }
    rewrite (IH k' (b ++ [key])).
    + rewrite after_attempts_compose. do 2 f_equal. simpl length. lia.
    + simpl. by rewrite lookup_insert_eq, <- app_assoc.
    + done.
    + intros i k Hk. simpl. rewrite length_app. simpl.
      specialize (Hrl (S i) k Hk).
      by replace (length (requests w) + 1 + i)%nat with (length (requests w) + S i)%nat by lia.
Qed.



Lemma key_loop_failed_1 (n : nat) (rn : bool) (d : option (option Payload))
    (w : world) (key : K) (rest : list K) :
  api_key_queues w !! api_key_group = Some (key :: rest) ->
  failed (shared w) (net (length (requests w)) (url_for key)) ->
  key_loop (S n) rn d w =
  (after_attempts [key] rest 1 w, Ok (Locals Broke rn (Some None))).
Proof.
  intros Hq [Hst Hnone]. simpl.
  rewrite (get_api_key_front _ _ _ _ Hq). simpl.
  unfold fetch_data, session_get. simpl.
  fold (url_for key).
  destruct (read_response (net (length (requests w)) (url_for key))) as [d' status].
  simpl in *. subst d'.
  rewrite bool_decide_eq_false_2 by done.
  reflexivity.
Qed.

(** After [a] rate-limited attempts the next attempt, with [key], is decided
    by its response alone. *)
Lemma key_loop_skip (a : list K) (key : K) (b : list K) (n : nat) (rn : bool)
    (d : option (option Payload)) (w : world) :
  api_key_queues w !! api_key_group = Some (a ++ key :: b) ->
  200 ∉ get_retry_statuses (shared w) ->
  (forall i k, a !! i = Some k ->
     rate_limited (shared w) (net (length (requests w) + i)%nat (url_for k))) ->
  exists rn' d',
    rn' = match a with [] => rn | _ => true end /\
    key_loop (length a + S n) rn d w =
    key_loop (S n) rn' d' (after_attempts a (key :: b) (Z.of_nat (length a)) w).
Proof.
  intros Hq H200 Hrl. destruct a as [|k a].
  - exists rn, d. split; [done|]. simpl plus. f_equal.
    unfold after_attempts, add_errors. simpl.
    apply world_eq; simpl.
    + by rewrite app_nil_r, insert_id.
    + destruct (shared w); simpl; f_equal; lia.
    + by rewrite app_nil_r.
    + done.
  - exists true, (Some None). split; [done|].
    by apply key_loop_rate_limited.
Qed.

Lemma after_attempts_queue (a b : list K) (n : Z) (w : world) :
  api_key_queues (after_attempts a b n w) !! api_key_group = Some (b ++ a).
Proof. simpl. by rewrite lookup_insert_eq. Qed.

Lemma after_attempts_statuses (a b : list K) (n : Z) (w : world) :
  get_retry_statuses (shared (after_attempts a b n w)) = get_retry_statuses (shared w).
Proof. reflexivity. Qed.

Lemma after_attempts_sent (a b : list K) (n : Z) (w : world) :
  length (requests (after_attempts a b n w)) = (length (requests w) + length a)%nat.
Proof. simpl. by rewrite length_app, length_fmap. Qed.

(** *** Rounds in which every key is rate limited *)

(** The world after [r] such rounds over the queue [q], each but the last
    one of the run followed by its backoff sleep. *)
Definition after_rounds (q : list K) (r : nat) (first : Z) (w : world) : world :=
  World (api_key_queues w)
        (add_errors (Z.of_nat r * Z.of_nat (length q)) (shared w))
        (requests w ++ (url_for <$> concat (replicate r q)))
        (sleeps w ++ backoffs (shared w) first r).




Lemma after_rounds_queue (q : list K) (r : nat) (first : Z) (w : world) :
  api_key_queues (after_rounds q r first w) = api_key_queues w.
Proof. reflexivity. Qed.





(** C5 (as amended): when an attempt of a round fails otherwise than by a
    rate limit (a transport error, or a status that is neither 200 nor a
    retry status), one error is counted for it and the round ends there:
    the keys behind it in the queue are not tried in that round.  If no
    earlier attempt of the round was rate limited the fetch ends without
    payload; otherwise a new round starts after the backoff sleep while
    rounds remain, and the fetch ends, one more error counted, when none
    does. *)
Theorem non_rate_limit_failure_ends_round (w : world) (a b : list K) (key : K)
    (m : nat) (rc : Z) (d : option (option Payload)) :
  api_key_queues w !! api_key_group = Some (a ++ key :: b) ->
  rc < max_retries_per_request (shared w) ->
  200 ∉ get_retry_statuses (shared w) ->
  (forall i k, a !! i = Some k ->
     rate_limited (shared w) (net (length (requests w) + i)%nat (url_for k))) ->
  failed (shared w) (net (length (requests w) + length a)%nat (url_for key)) ->
  let w' := after_attempts (a ++ [key]) b (Z.of_nat (length a) + 1) w in
  requests w' = requests w ++ (url_for <$> (a ++ [key])) /\
  error_count (shared w') = error_count (shared w) + Z.of_nat (length a) + 1 /\
  retry_loop (S m) rc d w =
  match a with
  | [] => (w', Ok (endpoint_name, None))
  | _ :: _ =>
      if rc + 1 <? max_retries_per_request (shared w) then
        retry_loop m (rc + 1) (Some None) (sleep (backoff_factor (shared w) * (rc + 1)) w')
      else (count_error w', Ok (endpoint_name, None))
  end.
Proof.
  intros Hq Hrc H200 Hrl Hfail w'. split; [done|]. split; [simpl; lia|].
  cbn [retry_loop].
  assert ((rc <? max_retries_per_request (shared w)) = true) as -> by lia.
  rewrite Hq.
  replace (length (a ++ key :: b)) with (length a + S (length b))%nat
    by (rewrite length_app; simpl; lia).
  destruct (key_loop_skip a key b (length b) false d w Hq H200 Hrl)
    as (rn' & d' & Hrn & ->).
  rewrite (key_loop_failed_1 _ _ _ _ key (b ++ a)).
  2:{ by rewrite after_attempts_queue. }
  2:{ by rewrite after_attempts_sent. }
  rewrite (after_attempts_compose a [key] b).
  fold w'. cbn [l_exit l_retry_needed l_data]. subst rn'.
  destruct a as [|k a]; [done|].
  change (shared w') with (add_errors (Z.of_nat (length (k :: a)) + 1) (shared w)).
  cbn [max_retries_per_request backoff_factor add_errors]. done.
Qed.

(** *** Whatever the server answers

    The facts below hold for every [net].  [q] is the queue of the group
    and [w0] the world when [fetch_endpoint_data] starts. *)

(** One turn of the [for] loop, by the response it gets. *)
Lemma key_loop_step (n : nat) (rn : bool) (d : option (option Payload)) (w : world)
    (key : K) (rest : list K) :
  api_key_queues w !! api_key_group = Some (key :: rest) ->
  key_loop (S n) rn d w =
  let w1 := World (<[api_key_group := rest ++ [key]]> (api_key_queues w)) (shared w)
                  (requests w ++ [url_for key]) (sleeps w) in
  let response := read_response (net (length (requests w)) (url_for key)) in
  if bool_decide (response.2 ∈ get_retry_statuses (shared w)) then
    key_loop n true (Some response.1) (count_error w1)
  else
    match response.1 with
    | None => (count_error w1, Ok (Locals Broke rn (Some None)))
    | Some payload => (w1, Ok (Locals (Returned payload) rn (Some (Some payload))))
    end.
Proof.
  intros Hq. simpl. rewrite (get_api_key_front _ _ _ _ Hq). simpl.
  unfold fetch_data, session_get. simpl. fold (url_for key).
  by destruct (read_response (net (length (requests w)) (url_for key))) as [[p|] status].
Qed.

(** Only a status-200 response with a JSON body other than [null] yields
    data. *)
Lemma read_response_Some (response : reply) (payload : Payload) (status : Z) :
  read_response response = (Some payload, status) ->
  response = HttpReply 200 (Json payload) /\ status = 200.
Proof.
  destruct response as [st b|]; simpl; [|done].
  destruct (Z.eqb_spec st 200) as [->|Hne]; [|done].
  destruct b; intros H; by inversion H.
Qed.

Section Invariant.

Variables (q : list K) (w0 : world).

(** The world [w] after [m] full turns over the queue and attempts with the
    keys [a], the keys [b] not tried yet in the current turn; [errors] were
    counted and the sleeps [sl] made. *)
Definition progress (w : world) (m : nat) (a b : list K) (errors : Z) (sl : list Z) : Prop :=
  q = a ++ b /\ b <> [] /\
  api_key_queues w = <[api_key_group := b ++ a]> (api_key_queues w0) /\
  requests w = requests w0 ++ (url_for <$> (concat (replicate m q) ++ a)) /\
  shared w = add_errors errors (shared w0) /\
  sleeps w = sleeps w0 ++ sl.

(** The number of attempts made. *)
Definition attempts (m : nat) (a : list K) : Z :=
  Z.of_nat m * Z.of_nat (length q) + Z.of_nat (length a).

(** [payload] is the body of the status-200 response to the last request. *)
Definition answered (w : world) (payload : Payload) : Prop :=
  exists reqs url,
    requests w = reqs ++ [url] /\ net (length reqs) url = HttpReply 200 (Json payload).

(** What the variable [data] can hold. *)
Definition data_ok (w : world) (d : option (option Payload)) : Prop :=
  forall payload, d = Some (Some payload) -> answered w payload.

Lemma add_errors_add (n n' : Z) (st : shared_state) :
  add_errors n' (add_errors n st) = add_errors (n + n') st.
Proof. unfold add_errors. simpl. f_equal. lia. Qed.

Lemma progress_count_error (w : world) (m : nat) (a b : list K) (errors : Z) (sl : list Z) :
  progress w m a b errors sl -> progress (count_error w) m a b (errors + 1) sl.
Proof.
  intros (Hq & Hb & Hqueue & Hreq & Hst & Hsl). unfold progress. split_and!; try done.
  simpl. rewrite Hst. unfold add_errors. simpl. f_equal. lia.
Qed.

Lemma progress_sleep (w : world) (m : nat) (a b : list K) (errors : Z) (sl : list Z)
    (wait_time : Z) :
  progress w m a b errors sl -> progress (sleep wait_time w) m a b errors (sl ++ [wait_time]).
Proof.
  intros (Hq & Hb & Hqueue & Hreq & Hst & Hsl). unfold progress. split_and!; try done.
  simpl. by rewrite Hsl, <- app_assoc.
Qed.

(** One more attempt: the key at the front of the queue goes to its back. *)
Lemma progress_attempt (w : world) (m : nat) (a b : list K) (errors : Z) (sl : list Z) :
  progress w m a b errors sl ->
  exists key rest m' a' b',
    api_key_queues w !! api_key_group = Some (key :: rest) /\
    progress (World (<[api_key_group := rest ++ [key]]> (api_key_queues w)) (shared w)
                    (requests w ++ [url_for key]) (sleeps w))
             m' a' b' errors sl /\
    attempts m' a' = attempts m a + 1.
Proof.
  intros (Hq & Hb & Hqueue & Hreq & Hst & Hsl).
  destruct b as [|key b']; [done|].
  exists key, (b' ++ a). destruct b' as [|key' b'].
  - exists (S m), [], q. split; [by rewrite Hqueue, lookup_insert_eq|].
    assert (q <> []) as Hne by (rewrite Hq; by destruct a).
    split.
    + unfold progress. cbn [api_key_queues requests shared sleeps]. split_and!; try done.
      * rewrite Hqueue, insert_insert_eq. by rewrite app_nil_r, Hq.
      * rewrite Hreq, <- app_assoc. f_equal.
        change [url_for key] with (url_for <$> [key]). rewrite <- fmap_app.
        f_equal. rewrite app_nil_r, replicate_S_end, concat_app. simpl.
        by rewrite app_nil_r, <- app_assoc, Hq.
    + assert (length q = length a + 1)%nat as Hlen
        by (rewrite Hq, length_app; simpl; lia).
      unfold attempts. rewrite Hlen. simpl length. lia.
  - exists m, (a ++ [key]), (key' :: b'). split; [by rewrite Hqueue, lookup_insert_eq|].
    split.
    + unfold progress. cbn [api_key_queues requests shared sleeps]. split_and!; try done.
      * by rewrite Hq, <- app_assoc.
      * rewrite Hqueue, insert_insert_eq. by rewrite <- !app_assoc.
      * rewrite Hreq, <- app_assoc. f_equal.
        change [url_for key] with (url_for <$> [key]). rewrite <- fmap_app.
        f_equal. by rewrite <- !app_assoc.
    + unfold attempts. rewrite length_app. simpl length. lia.
Qed.

Lemma progress_shared (w : world) (m : nat) (a b : list K) (errors : Z) (sl : list Z) :
  progress w m a b errors sl ->
  max_retries_per_request (shared w) = max_retries_per_request (shared w0) /\
  backoff_factor (shared w) = backoff_factor (shared w0) /\
  get_retry_statuses (shared w) = get_retry_statuses (shared w0) /\
  api_key_queues w !! api_key_group = Some (b ++ a) /\
  length (b ++ a) = length q /\ (0 < length q)%nat.
Proof.
  intros (Hq & Hb & Hqueue & Hreq & Hst & Hsl). rewrite Hst, Hqueue, lookup_insert_eq.
  split_and!; try done.
  - rewrite Hq, !length_app. lia.
  - rewrite Hq, length_app. destruct b; [done|simpl; lia].
Qed.

(** The number of errors the [for] loop counts beside one per attempt. *)
Definition returned (e : for_exit) : Z :=
  match e with Returned _ => 1 | _ => 0 end.

(** The [for] loop, whatever the responses: it ends, every attempt takes
    the key at the front of the queue and puts it at the back, and every
    attempt but a successful one counts one error. *)
Lemma key_loop_progress (n : nat) :
  forall (rn : bool) (d : option (option Payload)) (w : world) (m : nat) (a b : list K)
         (errors : Z) (sl : list Z),
  progress w m a b errors sl -> data_ok w d ->
  exists w' l m' a' b',
    key_loop n rn d w = (w', Ok l) /\
    progress w' m' a' b' (errors + (attempts m' a' - attempts m a) - returned (l_exit l)) sl /\
    data_ok w' (l_data l) /\
    attempts m a <= attempts m' a' <= attempts m a + Z.of_nat n /\
    ((0 < n)%nat ->
     attempts m a < attempts m' a' /\
     exists o, l_data l = Some o /\
       match l_exit l with
       | Returned payload => o = Some payload
       | _ => 200 ∉ get_retry_statuses (shared w0) -> o = None
       end).
Proof.
  induction n as [|n IH]; intros rn d w m a b errors sl Hp Hd.
  - exists w, (Locals Exhausted rn d), m, a, b. simpl.
    split_and!; [done| |done|lia..].
    by replace (errors + (attempts m a - attempts m a) - 0) with errors by lia.
  - destruct (progress_shared _ _ _ _ _ _ Hp) as (_ & _ & Hrs & _).
    destruct (progress_attempt _ _ _ _ _ _ Hp) as (key & rest & m1 & a1 & b1 & Hq & Hp1 & Hn1).
    rewrite (key_loop_step _ _ _ _ _ _ Hq). cbv zeta.
    set (w1 := World _ _ _ _) in *.
    destruct (read_response (net (length (requests w)) (url_for key))) as [o status] eqn:Hr.
    cbn [fst snd]. rewrite Hrs.
    assert (data_ok w1 (Some o)) as Hd1.
    { intros payload Ho. injection Ho as ->. apply read_response_Some in Hr as [Hr _].
      by exists (requests w), (url_for key). }
    destruct (bool_decide (status ∈ get_retry_statuses (shared w0))) eqn:Hretry.
    + apply bool_decide_eq_true in Hretry.
      destruct (IH true (Some o) (count_error w1) m1 a1 b1 (errors + 1) sl
                  (progress_count_error _ _ _ _ _ _ Hp1) Hd1)
        as (w' & l & m' & a' & b' & Hloop & Hp' & Hd' & Hn' & Hpos).
      exists w', l, m', a', b'. split_and!; [done| |done|lia..|].
      * by replace (errors + (attempts m' a' - attempts m a) - returned (l_exit l))
          with (errors + 1 + (attempts m' a' - attempts m1 a1) - returned (l_exit l)) by lia.
      * intros _. split; [lia|]. destruct n as [|n'].
        -- simpl in Hloop. injection Hloop as <- <-. simpl. exists o. split; [done|].
           intros H200. destruct o as [payload|]; [|done].
           apply read_response_Some in Hr as [_ ->]. done.
        -- by apply Hpos; lia.
    + destruct o as [payload|].
      * exists w1, (Locals (Returned payload) rn (Some (Some payload))), m1, a1, b1.
        cbn [l_exit l_data returned]. split_and!; [done| |done|lia..|].
        -- by replace (errors + (attempts m1 a1 - attempts m a) - 1) with errors by lia.
        -- intros _. split; [lia|]. by exists (Some payload).
      * exists (count_error w1), (Locals Broke rn (Some None)), m1, a1, b1.
        cbn [l_exit l_data returned]. split_and!; [done| |done|lia..|].
        -- replace (errors + (attempts m1 a1 - attempts m a) - 0) with (errors + 1) by lia.
           by apply progress_count_error.
        -- intros _. split; [lia|]. by exists None.
Qed.

Lemma backoffs_snoc (st : shared_state) (r : nat) :
  backoffs st 0 (S r) = backoffs st 0 r ++ [backoff_factor st * (Z.of_nat r + 1)].
Proof.
  unfold backoffs. rewrite seq_S, fmap_app. simpl. do 3 f_equal. lia.
Qed.

(** The [while] loop, whatever the responses. *)
Lemma retry_loop_progress (rounds_left : nat) :
  forall (rc : Z) (d : option (option Payload)) (w : world) (m : nat) (a b : list K)
         (errors : Z),
  progress w m a b errors (backoffs (shared w0) 0 (Z.to_nat rc)) -> data_ok w d ->
  0 <= rc -> rc + Z.of_nat rounds_left = max_retries_per_request (shared w0) ->
  (0 < rounds_left)%nat ->
  attempts m a <= rc * Z.of_nat (length q) ->
  exists w' data m' a' b' errors' k,
    retry_loop rounds_left rc d w = (w', Ok (endpoint_name, data)) /\
    progress w' m' a' b' errors' (backoffs (shared w0) 0 k) /\
    Z.of_nat k < max_retries_per_request (shared w0) /\
    attempts m a < attempts m' a' <=
      max_retries_per_request (shared w0) * Z.of_nat (length q) /\
    (forall payload, data = Some payload -> answered w' payload) /\
    attempts m' a' - attempts m a - 1 <= errors' - errors <=
      attempts m' a' - attempts m a + 1 /\
    (data = None -> attempts m' a' - attempts m a <= errors' - errors) /\
    (200 ∉ get_retry_statuses (shared w0) -> is_Some data ->
     errors' - errors = attempts m' a' - attempts m a - 1).
Proof.
  induction rounds_left as [|rounds_left IH]; intros rc d w m a b errors Hp Hd Hrc Hmax Hpos Hn;
    [lia|].
  destruct (progress_shared _ _ _ _ _ _ Hp) as (Hm & Hbf & Hrs & Hq & Hlen & Hne).
  cbn [retry_loop]. rewrite Hm, Hq, Hlen.
  assert ((rc <? max_retries_per_request (shared w0)) = true) as -> by lia.
  destruct (key_loop_progress (length q) false d w m a b errors _ Hp Hd)
    as (w1 & l & m1 & a1 & b1 & -> & Hp1 & Hd1 & Hn1 & Hsome).
  destruct (Hsome Hne) as (Hlt & o & Ho & Hexit). clear Hsome.
  destruct (progress_shared _ _ _ _ _ _ Hp1) as (Hm1 & Hbf1 & _).
  set (errors1 := errors + (attempts m1 a1 - attempts m a) - returned (l_exit l)) in *.
  assert (attempts m1 a1 <= (rc + 1) * Z.of_nat (length q)) as Hn1' by lia.
  assert (attempts m1 a1 <= max_retries_per_request (shared w0) * Z.of_nat (length q)) as Hbound.
  { etrans; [exact Hn1'|]. apply Z.mul_le_mono_nonneg_r; lia. }
  assert (forall wf,
            requests wf = requests w1 ->
            forall payload, o = Some payload -> answered wf payload) as Hans.
  { intros wf Hreq payload ->. destruct (Hd1 payload Ho) as (reqs & url & Hreqs & Hnet).
    exists reqs, url. by rewrite Hreq. }
  assert (Z.of_nat (Z.to_nat rc) < max_retries_per_request (shared w0)) as Hk by lia.
  destruct (l_exit l) as [| |payload] eqn:Hl; cbn [returned] in errors1.
  3:{ subst o. exists w1, (Some payload), m1, a1, b1, errors1, (Z.to_nat rc).
      split_and!; try done; try (unfold errors1; lia).
      intros p Hp'. by apply (Hans w1). }
  all: destruct (l_retry_needed l).
  all: try (rewrite Hm1;
            destruct (Z.ltb_spec (rc + 1) (max_retries_per_request (shared w0))) as [Hmore|Hlast]).
  all: try (rewrite Ho; cbn [return_data]).
  - rewrite Hbf1.
    destruct (IH (rc + 1) (Some o) (sleep (backoff_factor (shared w0) * (rc + 1)) w1)
                m1 a1 b1 errors1)
      as (w' & data & m' & a' & b' & errors' & k & Hloop & Hp' & Hk' & Hn' & Ha' & He' & Hnone' & Hsucc').
    + replace (Z.to_nat (rc + 1)) with (S (Z.to_nat rc)) by lia.
      rewrite backoffs_snoc, Z2Nat.id by lia. by apply progress_sleep.
    + intros p Hp'. injection Hp' as ->. by apply (Hans _ eq_refl).
    + lia.
    + lia.
    + lia.
    + lia.
    + exists w', data, m', a', b', errors', k.
      split_and!; try done; try (unfold errors1 in *; lia).
      * intros Hnone. specialize (Hnone' Hnone). unfold errors1 in *. lia.
      * intros H200 Hsome. specialize (Hsucc' H200 Hsome). unfold errors1 in *. lia.
  - exists (count_error w1), o, m1, a1, b1, (errors1 + 1), (Z.to_nat rc).
    split_and!; try done; try (unfold errors1; lia).
    + by apply progress_count_error.
    + by apply Hans.
    + intros H200 [p Hsome]. specialize (Hexit H200). congruence.
  - exists w1, o, m1, a1, b1, errors1, (Z.to_nat rc).
    split_and!; try done; try (unfold errors1; lia).
    + by apply Hans.
    + intros H200 [p Hsome]. specialize (Hexit H200). congruence.
  - rewrite Hbf1.
    destruct (IH (rc + 1) (Some o) (sleep (backoff_factor (shared w0) * (rc + 1)) w1)
                m1 a1 b1 errors1)
      as (w' & data & m' & a' & b' & errors' & k & Hloop & Hp' & Hk' & Hn' & Ha' & He' & Hnone' & Hsucc').
    + replace (Z.to_nat (rc + 1)) with (S (Z.to_nat rc)) by lia.
      rewrite backoffs_snoc, Z2Nat.id by lia. by apply progress_sleep.
    + intros p Hp'. injection Hp' as ->. by apply (Hans _ eq_refl).
    + lia.
    + lia.
    + lia.
    + lia.
    + exists w', data, m', a', b', errors', k.
      split_and!; try done; try (unfold errors1 in *; lia).
      * intros Hnone. specialize (Hnone' Hnone). unfold errors1 in *. lia.
      * intros H200 Hsome. specialize (Hsucc' H200 Hsome). unfold errors1 in *. lia.
  - exists (count_error w1), o, m1, a1, b1, (errors1 + 1), (Z.to_nat rc).
    split_and!; try done; try (unfold errors1; lia).
    + by apply progress_count_error.
    + by apply Hans.
    + intros H200 [p Hsome]. specialize (Hexit H200). congruence.
  - exists w1, o, m1, a1, b1, errors1, (Z.to_nat rc).
    split_and!; try done; try (unfold errors1; lia).
    + by apply Hans.
    + intros H200 [p Hsome]. specialize (Hexit H200). congruence.
Qed.

End Invariant.
Lemma progress_start (q : list K) (w : world) :
  api_key_queues w !! api_key_group = Some q -> q <> [] ->
  progress q w w 0 [] q 0 (backoffs (shared w) 0 (Z.to_nat 0)).
Proof.
  intros Hq Hne. unfold progress. simpl. split_and!; try done.
  - by rewrite app_nil_r, insert_id.
  - by rewrite app_nil_r.
  - unfold add_errors. destruct (shared w). simpl. f_equal. lia.
  - by rewrite app_nil_r.
Qed.

(** A fetch on a group that has a key, with a retry still allowed, returns
    whatever the server answers. *)
Lemma fetch_endpoint_data_progress (q : list K) (w : world) :
  api_key_queues w !! api_key_group = Some q -> q <> [] ->
  0 < max_retries_per_request (shared w) ->
  exists w' data m a b errors k,
    fetch_endpoint_data w = (w', Ok (endpoint_name, data)) /\
    progress q w w' m a b errors (backoffs (shared w) 0 k) /\
    Z.of_nat k < max_retries_per_request (shared w) /\
    0 < attempts q m a <= max_retries_per_request (shared w) * Z.of_nat (length q) /\
    (forall payload, data = Some payload -> answered w' payload) /\
    attempts q m a - 1 <= errors <= attempts q m a + 1 /\
    (data = None -> attempts q m a <= errors) /\
    (200 ∉ get_retry_statuses (shared w) -> is_Some data -> errors = attempts q m a - 1).
Proof.
  intros Hq Hne Hmax. unfold fetch_endpoint_data.
  destruct (retry_loop_progress q w (Z.to_nat (max_retries_per_request (shared w)))
              0 None w 0 [] q 0)
    as (w' & data & m & a & b & errors & k & Hloop & Hp & Hk & Hn & Ha & He & Hnone & Hsucc).
  - by apply progress_start.
  - intros payload Hd. discriminate Hd.
  - done.
  - lia.
  - lia.
  - unfold attempts. simpl. lia.
  - exists w', data, m, a, b, errors, k.
    replace (attempts q 0 []) with 0 in * by (unfold attempts; simpl; lia).
    rewrite !Z.sub_0_r in *. split_and!; try done; lia.
Qed.

Lemma fetch_endpoint_data_no_retry (w : world) :
  max_retries_per_request (shared w) <= 0 ->
  fetch_endpoint_data w = (w, Raise UnboundLocalError).
Proof.
  intros Hmax. unfold fetch_endpoint_data.
  by replace (Z.to_nat (max_retries_per_request (shared w))) with 0%nat by lia.
Qed.

Lemma fetch_endpoint_data_no_group (w : world) :
  0 < max_retries_per_request (shared w) ->
  api_key_queues w !! api_key_group = None ->
  fetch_endpoint_data w = (w, Raise KeyError).
Proof.
  intros Hmax Hq. unfold fetch_endpoint_data.
  destruct (Z.to_nat (max_retries_per_request (shared w))) as [|r] eqn:Er; [lia|].
  cbn [retry_loop]. rewrite Hq.
  by assert ((0 <? max_retries_per_request (shared w)) = true) as -> by lia.
Qed.

Lemma fetch_endpoint_data_empty_group (w : world) :
  api_key_queues w !! api_key_group = Some [] ->
  fetch_endpoint_data w = (w, Raise UnboundLocalError).
Proof.
  intros Hq. unfold fetch_endpoint_data.
  destruct (Z.to_nat (max_retries_per_request (shared w))) as [|r] eqn:Er; [done|].
  cbn [retry_loop]. rewrite Hq.
  by assert ((0 <? max_retries_per_request (shared w)) = true) as -> by lia.
Qed.

(** [fetch_endpoint_data] never stays suspended, whatever the server
    answers.  It returns a pair under its own endpoint name exactly when the
    group has a key and [max_retries_per_request] is positive; it raises
    [KeyError] when the group does not exist, and [UnboundLocalError] (the
    final [return] reads [data], which no fetch has assigned) when no round
    is allowed or the group has no key. *)
Theorem fetch_endpoint_data_outcome (w : world) :
  match (fetch_endpoint_data w).2 with
  | Ok (name, _) =>
      name = endpoint_name /\ 0 < max_retries_per_request (shared w) /\
      exists key rest, api_key_queues w !! api_key_group = Some (key :: rest)
  | Raise e =>
      (fetch_endpoint_data w).1 = w /\
      ((e = KeyError /\ 0 < max_retries_per_request (shared w) /\
        api_key_queues w !! api_key_group = None) \/
       (e = UnboundLocalError /\
        (max_retries_per_request (shared w) <= 0 \/
         api_key_queues w !! api_key_group = Some [])))
  | Suspended => False
  end.
Proof.
  destruct (Z.le_gt_cases (max_retries_per_request (shared w)) 0) as [Hmax|Hmax].
  { rewrite fetch_endpoint_data_no_retry by done. simpl. split; [done|]. right. by eauto. }
  destruct (api_key_queues w !! api_key_group) as [[|key rest]|] eqn:Hq.
  - rewrite fetch_endpoint_data_empty_group by done. simpl. split; [done|]. right. by eauto.
  - destruct (fetch_endpoint_data_progress (key :: rest) w Hq ltac:(done) ltac:(lia))
      as (w' & data & m & a & b & errors & k & -> & _).
    simpl. split_and!; [done|lia|by eauto].
  - rewrite fetch_endpoint_data_no_group by (done || lia). simpl. split; [done|]. left.
    split_and!; [done|lia|done].
Qed.


(** A payload that [fetch_endpoint_data] returns is the body of the
    status-200 response to the last request it made. *)
Theorem payload_is_last_response (w w' : world) (name : string) (payload : Payload) :
  fetch_endpoint_data w = (w', Ok (name, Some payload)) ->
  exists reqs url,
    requests w' = reqs ++ [url] /\
    (length (requests w) <= length reqs)%nat /\
    net (length reqs) url = HttpReply 200 (Json payload).
Proof.
  intros Hrun. pose proof (fetch_endpoint_data_outcome w) as Hout.
  rewrite Hrun in Hout. cbn [snd] in Hout.
  destruct Hout as (_ & Hmax & key & rest & Hq).
  destruct (fetch_endpoint_data_progress (key :: rest) w Hq ltac:(done) Hmax)
    as (w1 & data & m & a & b & errors & k & Hrun' & Hp & _ & Hn & Ha & _).
  rewrite Hrun in Hrun'. injection Hrun' as <- _ <-.
  destruct (Ha payload eq_refl) as (reqs & url & Hreqs & Hnet).
  exists reqs, url. split_and!; [done| |done].
  destruct Hp as (_ & _ & _ & Hreq & _). rewrite Hreq in Hreqs.
  apply (f_equal length) in Hreqs. rewrite !length_app, length_fmap in Hreqs.
  rewrite length_app, length_concat, fmap_replicate, sum_list_replicate in Hreqs.
  unfold attempts in Hn. cbn [length] in Hreqs, Hn. lia.
Qed.


End Endpoint.

(** *** The fan-out over the endpoints of one bill *)

Definition endpoints : list string :=
  [""; "/cosponsors"; "/actions"; "/amendments"; "/committees"; "/subjects";
   "/relatedbills"; "/summaries"].

(** [endpoint.lstrip('/')] *)
Fixpoint lstrip_slash (s : string) : string :=
  match s with
  | String c s' => if Ascii.eqb c (Ascii.ascii_of_nat 47) then lstrip_slash s' else s
  | EmptyString => s
  end.

(** [endpoint.lstrip('/') if endpoint else 'sponsors'] *)
Definition endpoint_name_of (endpoint : string) : string :=
  if decide (endpoint = "") then "sponsors" else lstrip_slash endpoint.

(** [f"group_{i + 1}"] *)
Definition group_of (i : nat) : string := "group_" +:+ pretty (i + 1)%nat.

(** [asyncio.gather] over the tasks, which run here one after the other in the
    order of their creation.  Every task runs to its end whatever the others
    do; the first exception is the one [gather] raises, and a task that
    never resumes leaves [gather] waiting unless another one raised. *)
Fixpoint run_tasks {A : Type} (tasks : list (world -> world * result A)) (w : world)
    : world * list (result A) :=
  match tasks with
  | [] => (w, [])
  | task :: tasks' =>
      let '(w, r) := task w in
      let '(w, rs) := run_tasks tasks' w in
      (w, r :: rs)
  end.

Fixpoint first_exception {A : Type} (rs : list (result A)) : option exn :=
  match rs with
  | [] => None
  | Raise e :: _ => Some e
  | _ :: rs' => first_exception rs'
  end.

Fixpoint all_values {A : Type} (rs : list (result A)) : option (list A) :=
  match rs with
  | [] => Some []
  | Ok a :: rs' => cons a <$> all_values rs'
  | _ :: _ => None
  end.

Definition gather {A : Type} (tasks : list (world -> world * result A)) (w : world)
    : world * result (list A) :=
  let '(w, rs) := run_tasks tasks w in
  match first_exception rs with
  | Some e => (w, Raise e)
  | None =>
      match all_values rs with
      | Some values => (w, Ok values)
      | None => (w, Suspended)
      end
  end.

(** [record[column]] on the dictionary of a row. *)
Definition getitem {V : Type} (record : gmap string V) (column : string) : result V :=
  match record !! column with
  | Some v => Ok v
  | None => Raise KeyError
  end.

(** [fetch_record_data]: one task per endpoint, then the results keyed by
    endpoint name. *)
Definition fetch_record_data (record : gmap string Cell) (w : world)
    : world * result (gmap string (option Payload)) :=
  match getitem record "congress" with
  | Ok congress =>
  match getitem record "type" with
  | Ok bill_type =>
  match getitem record "number" with
  | Ok bill_number =>
      let tasks :=
        imap (fun i endpoint =>
                fetch_endpoint_data (group_of i) congress bill_type bill_number
                                    endpoint (endpoint_name_of endpoint))
             endpoints in
      match gather tasks w with
      | (w, Ok endpoint_results) =>
          (w, Ok (foldl (fun results '(endpoint_name, data) =>
                           <[endpoint_name := data]> results)
                        ∅ endpoint_results))
      | (w, Raise e) => (w, Raise e)
      | (w, Suspended) => (w, Suspended)
      end
  | Raise e => (w, Raise e) | Suspended => (w, Suspended) end
  | Raise e => (w, Raise e) | Suspended => (w, Suspended) end
  | Raise e => (w, Raise e) | Suspended => (w, Suspended) end.

(** *** What the fan-out returns *)

Lemma return_data_name (endpoint_name : string) (d : option (option Payload)) (w w' : world)
    (name : string) (data : option Payload) :
  return_data endpoint_name d w = (w', Ok (name, data)) -> name = endpoint_name.
Proof. unfold return_data. destruct d; intros H; by inversion H. Qed.

Lemma retry_loop_name (g : string) (congress bill_type bill_number : Cell)
    (endpoint endpoint_name : string) (rounds_left : nat) :
  forall (rc : Z) (d : option (option Payload)) (w w' : world) (name : string)
         (data : option Payload),
  retry_loop g congress bill_type bill_number endpoint endpoint_name rounds_left rc d w =
    (w', Ok (name, data)) ->
  name = endpoint_name.
Proof.
  induction rounds_left as [|m IH]; intros rc d w w' name data H; simpl in H.
  - by eapply return_data_name.
  - destruct (rc <? _); [|by eapply return_data_name].
    destruct (api_key_queues w !! g) as [queue|]; [|done].
    destruct (key_loop _ _ _ _ _ _ _ _ _) as [w1 [l| |]]; [|done..].
    destruct (l_exit l); try (by inversion H).
    + destruct (l_retry_needed l); [|by eapply return_data_name].
      destruct (_ <? _); [by eapply IH|by eapply return_data_name].
    + destruct (l_retry_needed l); [|by eapply return_data_name].
      destruct (_ <? _); [by eapply IH|by eapply return_data_name].
Qed.

Lemma all_values_Forall2 {A : Type} (rs : list (result A)) (values : list A) :
  all_values rs = Some values -> rs = Ok <$> values.
Proof.
  revert values. induction rs as [|r rs IH]; intros values H; simpl in H.
  - by inversion H.
  - destruct r as [a| |]; [|done..].
    destruct (all_values rs) as [vs|]; [|done]. simpl in H.
    inversion H; subst. simpl. f_equal. by apply IH.
Qed.

(** When [gather] returns, its values are the values of the tasks, each run
    from some world, in task order. *)
Lemma gather_values {A : Type} (tasks : list (world -> world * result A)) (w w' : world)
    (values : list A) :
  gather tasks w = (w', Ok values) ->
  Forall2 (fun task v => exists w1 w2, task w1 = (w2, Ok v)) tasks values.
Proof.
  unfold gather. destruct (run_tasks tasks w) as [w1 rs] eqn:Erun.
  destruct (first_exception rs); [done|].
  destruct (all_values rs) as [vs|] eqn:Evs; [|done].
  intros H; inversion H; subst. apply all_values_Forall2 in Evs. subst rs.
  clear H. revert w w' values Erun.
  induction tasks as [|task tasks IH]; intros w w' values Erun; simpl in Erun.
  - inversion Erun. destruct values; [constructor|done].
  - destruct (task w) as [w1 r] eqn:Et.
    destruct (run_tasks tasks w1) as [w2 rs] eqn:Ers.
    inversion Erun; subst. destruct values as [|v values]; [done|].
    simpl in *. inversion H1; subst. constructor; [by eauto|by eapply IH].
Qed.

Definition endpoint_names : list string := endpoint_name_of <$> endpoints.

Lemma foldl_insert_keys {V : Type} (entries : list (string * V)) (init : gmap string V)
    (k : string) :
  is_Some (foldl (fun results '(name, data) => <[name := data]> results) init entries !! k) ->
  k ∈ entries.*1 \/ is_Some (init !! k).
Proof.
  revert init. induction entries as [|[name data] entries IH]; intros init H; simpl in *.
  - by right.
  - destruct (IH _ H) as [Hin|Hinit].
    + left. by apply elem_of_cons; right.
    + destruct (decide (name = k)) as [->|Hne].
      * left. by apply elem_of_cons; left.
      * right. by rewrite lookup_insert_ne in Hinit.
Qed.

(** The keys of the map [fetch_record_data] returns are endpoint names. *)
Lemma fetch_record_data_keys (record : gmap string Cell) (w w' : world)
    (results : gmap string (option Payload)) (k : string) :
  fetch_record_data record w = (w', Ok results) ->
  is_Some (results !! k) -> k ∈ endpoint_names.
Proof.
  unfold fetch_record_data.
  destruct (getitem record "congress") as [congress| |]; [|done..].
  destruct (getitem record "type") as [bill_type| |]; [|done..].
  destruct (getitem record "number") as [bill_number| |]; [|done..].
  destruct (gather _ w) as [w1 [vs| |]] eqn:Eg; [|done..].
  intros H; inversion H; subst; clear H. intros Hk.
  apply gather_values in Eg.
  apply foldl_insert_keys in Hk as [Hk|Hk]; [|by rewrite lookup_empty in Hk; destruct Hk].
  apply list_elem_of_fmap in Hk as ([name data] & -> & Hin). simpl.
  apply list_elem_of_lookup in Hin as [i Hi].
  destruct (Forall2_lookup_r _ _ _ _ _ Eg Hi) as (task & Htask & w1' & w2' & Hrun).
  apply list_lookup_imap_Some in Htask as (endpoint & Hendpoint & ->).
  unfold fetch_endpoint_data in Hrun. apply retry_loop_name in Hrun. subst name.
  apply list_elem_of_fmap. exists endpoint. split; [done|].
  by eapply list_elem_of_lookup_2.
Qed.

(** *** The fan-out, whatever the server answers *)

(** Every group an endpoint uses has a key, and a round is allowed. *)
Definition ready (w : world) : Prop :=
  0 < max_retries_per_request (shared w) /\
  forall i endpoint,
    endpoints !! i = Some endpoint ->
    exists key rest, api_key_queues w !! group_of i = Some (key :: rest).

Lemma fetch_endpoint_data_ready (g : string) (congress bill_type bill_number : Cell)
    (endpoint endpoint_name : string) (w : world) (key : K) (rest : list K) :
  ready w -> api_key_queues w !! g = Some (key :: rest) ->
  exists w' data,
    fetch_endpoint_data g congress bill_type bill_number endpoint endpoint_name w =
      (w', Ok (endpoint_name, data)) /\
    ready w'.
Proof.
  intros [Hmax Hgroups] Hq.
  destruct (fetch_endpoint_data_progress g congress bill_type bill_number endpoint
              endpoint_name (key :: rest) w Hq ltac:(done) Hmax)
    as (w' & data & m & a & b & errors & k & Hrun & Hp & _).
  exists w', data. split; [done|].
  destruct Hp as (_ & Hb & Hqueue & _ & Hst & _). split.
  - by rewrite Hst.
  - intros i e He. rewrite Hqueue.
    destruct (decide (g = group_of i)) as [->|Hne].
    + rewrite lookup_insert_eq. destruct b as [|key' b']; [done|]. by eauto.
    + rewrite lookup_insert_ne by done. by eapply Hgroups.
Qed.

Lemma run_tasks_all_ok {A : Type} (P : world -> Prop)
    (tasks : list (world -> world * result A)) :
  Forall (fun task => forall w, P w -> exists w' v, task w = (w', Ok v) /\ P w') tasks ->
  forall w, P w ->
    exists w' values, run_tasks tasks w = (w', Ok <$> values) /\ P w'.
Proof.
  induction 1 as [|task tasks Htask _ IH]; intros w Hw; simpl.
  - by exists w, [].
  - destruct (Htask w Hw) as (w1 & v & -> & Hw1).
    destruct (IH w1 Hw1) as (w2 & values & -> & Hw2).
    by exists w2, (v :: values).
Qed.

Lemma gather_all_ok {A : Type} (tasks : list (world -> world * result A)) (w w' : world)
    (values : list A) :
  run_tasks tasks w = (w', Ok <$> values) -> gather tasks w = (w', Ok values).
Proof.
  intros Hrun. unfold gather. rewrite Hrun.
  assert (first_exception (Ok <$> values) = None) as Hnone.
  { clear. by induction values. }
  assert (all_values (Ok <$> values) = Some values) as Hall.
  { clear. induction values as [|v values IH]; [done|].
    rewrite fmap_cons. cbn [all_values]. by rewrite IH. }
  by rewrite Hnone, Hall.
Qed.

Lemma endpoint_names_NoDup : NoDup endpoint_names.
Proof. apply NoDup_ListNoDup. vm_compute. repeat constructor; simpl; intuition discriminate. Qed.

Lemma foldl_insert_absent {V : Type} (entries : list (string * V)) (init : gmap string V)
    (k : string) :
  k ∉ entries.*1 ->
  foldl (fun results '(name, data) => <[name := data]> results) init entries !! k = init !! k.
Proof.
  revert init. induction entries as [|[name data] entries IH]; intros init Hk; [done|].
  simpl in *. apply not_elem_of_cons in Hk as [Hne Hk].
  rewrite IH by done. by rewrite lookup_insert_ne.
Qed.

Lemma foldl_insert_lookup {V : Type} (entries : list (string * V)) (init : gmap string V)
    (k : string) (v : V) :
  NoDup entries.*1 -> (k, v) ∈ entries ->
  foldl (fun results '(name, data) => <[name := data]> results) init entries !! k = Some v.
Proof.
  revert init. induction entries as [|[name data] entries IH]; intros init Hnd Hin.
  - by apply elem_of_nil in Hin.
  - simpl in *. apply NoDup_cons in Hnd as [Hname Hnd].
    apply elem_of_cons in Hin as [Heq|Hin].
    + injection Heq as <- <-. rewrite foldl_insert_absent by done.
      by rewrite lookup_insert_eq.
    + by apply IH.
Qed.

(** When the fan-out returns, its result has exactly the eight endpoint
    names as keys, and the value under each name is what the fetch of that
    endpoint returned, made with the key group of its position: [group_1]
    for the sponsors, ..., [group_8] for the summaries. *)
Theorem fetch_record_data_result (record : gmap string Cell) (w w' : world)
    (results : gmap string (option Payload)) :
  fetch_record_data record w = (w', Ok results) ->
  dom results = list_to_set endpoint_names /\
  exists congress bill_type bill_number,
    record !! "congress" = Some congress /\ record !! "type" = Some bill_type /\
    record !! "number" = Some bill_number /\
    forall i endpoint,
      endpoints !! i = Some endpoint ->
      exists data w1 w2,
        fetch_endpoint_data (group_of i) congress bill_type bill_number
                            endpoint (endpoint_name_of endpoint) w1 =
          (w2, Ok (endpoint_name_of endpoint, data)) /\
        results !! endpoint_name_of endpoint = Some data.
Proof.
  intros Hrun. pose proof (fun k => fetch_record_data_keys record w w' results k Hrun) as Hkeys.
  unfold fetch_record_data, getitem in Hrun.
  destruct (record !! "congress") as [congress|]; [|done].
  destruct (record !! "type") as [bill_type|]; [|done].
  destruct (record !! "number") as [bill_number|]; [|done].
  destruct (gather _ w) as [w1 [values| |]] eqn:Hg; [|done..].
  injection Hrun as <- <-. apply gather_values in Hg.
  assert (forall i endpoint,
            endpoints !! i = Some endpoint ->
            exists data w1 w2,
              fetch_endpoint_data (group_of i) congress bill_type bill_number
                                  endpoint (endpoint_name_of endpoint) w1 =
                (w2, Ok (endpoint_name_of endpoint, data)) /\
              values !! i = Some (endpoint_name_of endpoint, data)) as Htasks.
  { intros i endpoint Hi.
    assert (imap (fun i endpoint =>
                    fetch_endpoint_data (group_of i) congress bill_type bill_number
                                        endpoint (endpoint_name_of endpoint))
                 endpoints !! i =
            Some (fetch_endpoint_data (group_of i) congress bill_type bill_number
                                      endpoint (endpoint_name_of endpoint))) as Ht.
    { apply list_lookup_imap_Some. by exists endpoint. }
    destruct (Forall2_lookup_l _ _ _ _ _ Hg Ht) as ([name data] & Hv & wa & wb & Htask).
    pose proof Htask as Hname. unfold fetch_endpoint_data in Hname.
    apply retry_loop_name in Hname. subst name. by exists data, wa, wb. }
  assert (values.*1 = endpoint_names) as Hnames.
  { apply list_eq. intros i. unfold endpoint_names. rewrite !list_lookup_fmap.
    destruct (endpoints !! i) as [endpoint|] eqn:Hi.
    - destruct (Htasks i endpoint Hi) as (data & _ & _ & _ & ->). done.
    - apply Forall2_length in Hg. rewrite length_imap in Hg.
      apply lookup_ge_None in Hi. rewrite Hg in Hi.
      apply lookup_ge_None in Hi. by rewrite Hi. }
  assert (forall i endpoint,
            endpoints !! i = Some endpoint ->
            exists data w1 w2,
              fetch_endpoint_data (group_of i) congress bill_type bill_number
                                  endpoint (endpoint_name_of endpoint) w1 =
                (w2, Ok (endpoint_name_of endpoint, data)) /\
              foldl (fun (results : gmap string (option Payload)) '(endpoint_name, data) =>
                       <[endpoint_name := data]> results)
                    ∅ values !! endpoint_name_of endpoint = Some data) as Hall.
  { intros i endpoint Hi. destruct (Htasks i endpoint Hi) as (data & wa & wb & Htask & Hv).
    exists data, wa, wb. split; [done|]. apply foldl_insert_lookup.
    - rewrite Hnames. apply endpoint_names_NoDup.
    - by eapply list_elem_of_lookup_2. }
  split.
  - apply set_eq. intros k. rewrite elem_of_dom, elem_of_list_to_set. split; [apply Hkeys|].
    intros Hk. apply list_elem_of_fmap in Hk as (endpoint & -> & Hin).
    apply list_elem_of_lookup in Hin as [i Hi].
    destruct (Hall i endpoint Hi) as (data & _ & _ & _ & ->). by eexists.
  - by exists congress, bill_type, bill_number.
Qed.

(** With a key in each of the eight groups and a round allowed, the
    fan-out of a record that has the three columns returns. *)
Lemma fetch_record_data_ready (record : gmap string Cell) (w : world) :
  ready w ->
  is_Some (record !! "congress") -> is_Some (record !! "type") ->
  is_Some (record !! "number") ->
  exists w' results, fetch_record_data record w = (w', Ok results) /\ ready w'.
Proof.
  intros Hready [congress Hc] [bill_type Ht] [bill_number Hn].
  unfold fetch_record_data, getitem. rewrite Hc, Ht, Hn.
  set (tasks := imap _ endpoints).
  destruct (run_tasks_all_ok ready tasks) with (w := w) as (w' & values & Hrun & Hready');
    [|done|].
  - apply Forall_lookup. intros i task Hi w1 Hw1.
    apply list_lookup_imap_Some in Hi as (endpoint & Hi & ->).
    destruct Hw1 as [Hmax Hgroups]. destruct (Hgroups i endpoint Hi) as (key & rest & Hq).
    destruct (fetch_endpoint_data_ready (group_of i) congress bill_type bill_number endpoint
                (endpoint_name_of endpoint) w1 key rest (conj Hmax Hgroups) Hq)
      as (w2 & data & Hrun & Hw2).
    by exists w2, (endpoint_name_of endpoint, data).
  - rewrite (gather_all_ok _ _ _ _ Hrun). by eauto.
Qed.

(** With a key in each of the eight groups and a round allowed, the
    fan-out of a record that has the three columns returns, whatever the
    server answers, and leaves a key in every group; a record without one of
    the columns raises [KeyError] before any request is made. *)
Theorem fan_out_outcome (record : gmap string Cell) (w : world) :
  ready w ->
  match record !! "congress", record !! "type", record !! "number" with
  | Some _, Some _, Some _ =>
      exists w' results, fetch_record_data record w = (w', Ok results) /\ ready w'
  | _, _, _ => fetch_record_data record w = (w, Raise KeyError)
  end.
Proof.
  intros Hready.
  destruct (record !! "congress") as [congress|] eqn:Hc.
  2:{ unfold fetch_record_data, getitem. by rewrite Hc. }
  destruct (record !! "type") as [bill_type|] eqn:Ht.
  2:{ unfold fetch_record_data, getitem. by rewrite Hc, Ht. }
  destruct (record !! "number") as [bill_number|] eqn:Hn.
  2:{ unfold fetch_record_data, getitem. by rewrite Hc, Ht, Hn. }
  apply fetch_record_data_ready; [done|by rewrite ?Hc, ?Ht, ?Hn..].
Qed.

(** *** Nothing hangs *)

Lemma fetch_endpoint_data_not_suspended (g : string) (congress bill_type bill_number : Cell)
    (endpoint endpoint_name : string) (w : world) :
  (fetch_endpoint_data g congress bill_type bill_number endpoint endpoint_name w).2 <>
  Suspended.
Proof.
  destruct (Z.le_gt_cases (max_retries_per_request (shared w)) 0) as [Hmax|Hmax].
  { by rewrite fetch_endpoint_data_no_retry. }
  destruct (api_key_queues w !! g) as [[|key rest]|] eqn:Hq.
  - by rewrite fetch_endpoint_data_empty_group.
  - destruct (fetch_endpoint_data_progress g congress bill_type bill_number endpoint
                endpoint_name (key :: rest) w Hq ltac:(done) ltac:(lia))
      as (w' & data & m & a & b & errors & k & -> & _).
    done.
  - by rewrite fetch_endpoint_data_no_group by (done || lia).
Qed.

Lemma gather_not_suspended {A : Type} (tasks : list (world -> world * result A)) :
  Forall (fun task => forall w, (task w).2 <> Suspended) tasks ->
  forall w, (gather tasks w).2 <> Suspended.
Proof.
  intros Htasks w. unfold gather.
  destruct (run_tasks tasks w) as [w' rs] eqn:Hrun.
  assert (Forall (fun r => r <> Suspended) rs) as Hrs.
  { revert w w' rs Hrun. induction Htasks as [|task tasks Htask _ IH]; intros w w' rs Hrun.
    - simpl in Hrun. injection Hrun as <- <-. constructor.
    - simpl in Hrun. specialize (Htask w). destruct (task w) as [w1 r].
      destruct (run_tasks tasks w1) as [w2 rs'] eqn:Hrun'.
      injection Hrun as <- <-. constructor; [done|]. by eapply IH. }
  destruct (first_exception rs) as [e|] eqn:He; [done|].
  destruct (all_values rs) as [values|] eqn:Hv; [done|]. exfalso.
  clear Hrun. induction Hrs as [|r rs Hr _ IH]; [done|].
  destruct r as [a|e|]; simpl in *; [|done..].
  destruct (all_values rs); [done|]. by apply IH.
Qed.

Lemma fetch_record_data_not_suspended (record : gmap string Cell) (w : world) :
  (fetch_record_data record w).2 <> Suspended.
Proof.
  unfold fetch_record_data, getitem.
  destruct (record !! "congress") as [congress|]; [|done].
  destruct (record !! "type") as [bill_type|]; [|done].
  destruct (record !! "number") as [bill_number|]; [|done].
  set (tasks := imap _ endpoints).
  assert ((gather tasks w).2 <> Suspended) as Hg.
  { apply gather_not_suspended. apply Forall_lookup. intros i task Hi w1.
    apply list_lookup_imap_Some in Hi as (endpoint & _ & ->).
    apply fetch_endpoint_data_not_suspended. }
  by destruct (gather tasks w) as [w' [values| |]].
Qed.

(** *** A group without keys *)








End Fetcher.

Arguments world : clear implicits.
Arguments request : clear implicits.
Arguments reply : clear implicits.
Arguments body : clear implicits.
Arguments locals : clear implicits.
Arguments for_exit : clear implicits.

(** *** Runs on a group of three keys

    The [shared_state] is the one [process_batches] builds: 3 rounds, backoff
    factor 5, retry status 429. *)

Definition initial_shared_state : shared_state := SharedState 0 3 5 (Some {[ 429 ]}).

Definition three_keys : world string Z :=
  World {[ "group_1" := ["k1"; "k2"; "k3"] ]} initial_shared_state [] [].

(** The server answers the GETs of the run, in order, with [replies]; the
    transport fails once they are used up. *)
Definition scripted (replies : list (reply string)) : nat -> request string Z -> reply string :=
  fun n _ => nth n replies TransportFailure.

Definition sponsors_of_hr5 (net : nat -> request string Z -> reply string)
    : world string Z * result (string * option string) :=
  fetch_endpoint_data net "group_1" 117 1 5 "" "sponsors" three_keys.

Example run_429_429_200 :
  sponsors_of_hr5 (scripted [HttpReply 429 JsonNull; HttpReply 429 JsonNull;
                             HttpReply 200 (Json "sponsors of hr5")]) =
  (World {[ "group_1" := ["k1"; "k2"; "k3"] ]} (SharedState 2 3 5 (Some {[ 429 ]}))
         [Request 117 1 5 "" "k1"; Request 117 1 5 "" "k2"; Request 117 1 5 "" "k3"] [],
   Ok ("sponsors", Some "sponsors of hr5")).
Proof. vm_compute. reflexivity. Qed.

Example run_all_rate_limited :
  let '(w, r) := sponsors_of_hr5 (fun _ _ => HttpReply 429 JsonNull) in
  r = Ok ("sponsors", None) /\ error_count (shared w) = 10 /\
  length (requests w) = 9%nat /\ sleeps w = [5; 10].
Proof. vm_compute. done. Qed.

Lemma three_keys_statuses : 200 ∉ get_retry_statuses (shared three_keys).
Proof. unfold get_retry_statuses; simpl. set_solver. Qed.



Example run_204 :
  let '(w, r) := sponsors_of_hr5 (fun _ _ => HttpReply 204 (Json "no content")) in
  r = Ok ("sponsors", None) /\ error_count (shared w) = 1 /\
  (r_api_key <$> requests w) = ["k1"] /\ sleeps w = [].
Proof. vm_compute. done. Qed.

(** C5 as stated fails: after a status 500 for the first key the second key,
    which would have succeeded, is never tried. *)
Lemma failure_does_not_rotate :
  let '(w, r) :=
    sponsors_of_hr5 (scripted [HttpReply 500 JsonNull;
                               HttpReply 200 (Json "sponsors of hr5")]) in
  r = Ok ("sponsors", None) /\
  ("k2" ∉ (r_api_key <$> requests w)) /\
  (r_api_key <$> requests w) = ["k1"] /\
  error_count (shared w) = 1.
Proof.
  vm_compute. split_and!; try done.
  intros Hin. apply list_elem_of_singleton in Hin. discriminate Hin.
Qed.

Example run_transport_failure :
  let '(w, r) :=
    sponsors_of_hr5 (scripted [TransportFailure; HttpReply 200 (Json "sponsors of hr5")]) in
  r = Ok ("sponsors", None) /\ (r_api_key <$> requests w) = ["k1"] /\
  error_count (shared w) = 1.
Proof. vm_compute. done. Qed.

(** A rate limit for the first key, then a status 500 for the second: the
    third key is not tried in that round; the next round starts with it. *)
Lemma non_rate_limit_failure_witness :
  let net := scripted [HttpReply 429 JsonNull; HttpReply 500 JsonNull;
                       HttpReply 200 (Json "sponsors of hr5")] in
  let w' := after_attempts "group_1" 117 1 5 "" ["k1"; "k2"] ["k3"] 2 three_keys in
  (r_api_key <$> requests w') = ["k1"; "k2"] /\
  error_count (shared w') = 2 /\
  retry_loop net "group_1" 117 1 5 "" "sponsors" 3 0 None three_keys =
  retry_loop net "group_1" 117 1 5 "" "sponsors" 2 1 (Some None) (sleep 5 w').
Proof.
  intros net w'.
  destruct (non_rate_limit_failure_ends_round net "group_1" 117 1 5 "" "sponsors"
              three_keys ["k1"] ["k3"] "k2" 2 0 None) as (Hreq & Herr & Hloop).
  - reflexivity.
  - simpl. lia.
  - exact three_keys_statuses.
  - intros [|i] k Hk; simpl in Hk; try discriminate.
    unfold rate_limited, get_retry_statuses; simpl; set_solver.
  - unfold failed, get_retry_statuses; simpl. split; [set_solver|done].
  - split; [done|]. split; [done|]. exact Hloop.
Defined.

(** Two rounds: every key is rate limited, then, after the backoff, the
    first key again and the second key succeeds. *)
Definition two_rounds : nat -> request string Z -> reply string :=
  scripted [HttpReply 429 JsonNull; HttpReply 429 JsonNull; HttpReply 429 JsonNull;
            HttpReply 429 JsonNull; HttpReply 200 (Json "sponsors of hr5")].

Example run_two_rounds :
  sponsors_of_hr5 two_rounds =
  (World {[ "group_1" := ["k3"; "k1"; "k2"] ]} (SharedState 4 3 5 (Some {[ 429 ]}))
         (Request 117 1 5 "" <$> ["k1"; "k2"; "k3"; "k1"; "k2"]) [5],
   Ok ("sponsors", Some "sponsors of hr5")).
Proof. vm_compute. reflexivity. Qed.



Lemma payload_is_last_response_witness :
  exists reqs url,
    Request 117 1 5 "" <$> ["k1"; "k2"; "k3"; "k1"; "k2"] = reqs ++ [url] /\
    (length (requests three_keys) <= length reqs)%nat /\
    two_rounds (length reqs) url = HttpReply 200 (Json "sponsors of hr5").
Proof.
  exact (payload_is_last_response two_rounds "group_1" 117 1 5 "" "sponsors" three_keys _ _ _
           run_two_rounds).
Defined.


(** A key file with two keys in each of the eight groups, and the row of
    H.R. 5 of the 117th Congress. *)
Definition eight_groups : world string Z :=
  World (list_to_map ((fun i => (group_of i, ["a"; "b"])) <$> seq 0 8))
        initial_shared_state [] [].

Definition hr5 : gmap string Z := {[ "congress" := 117; "type" := 1; "number" := 5 ]}.

Lemma eight_groups_ready : ready eight_groups.
Proof.
  split; [done|]. intros i endpoint Hi. apply lookup_lt_Some in Hi.
  exists "a", ["b"].
  do 8 (destruct i as [|i]; [vm_compute; reflexivity|]).
  simpl in Hi. lia.
Qed.

Example fan_out_all_ok :
  is_Ok (fetch_record_data (fun _ _ => HttpReply 200 (Json "{}")) hr5 eight_groups).2 = true.
Proof. vm_compute. reflexivity. Qed.

Lemma fetch_record_data_result_witness :
  exists w' results,
    fetch_record_data (fun _ _ => HttpReply 200 (Json "{}")) hr5 eight_groups =
      (w', Ok results) /\
    dom results = list_to_set endpoint_names /\
    exists congress bill_type bill_number,
      hr5 !! "congress" = Some congress /\ hr5 !! "type" = Some bill_type /\
      hr5 !! "number" = Some bill_number /\
      forall i endpoint,
        endpoints !! i = Some endpoint ->
        exists data (w1 w2 : world string Z),
          fetch_endpoint_data (fun _ _ => HttpReply 200 (Json "{}")) (group_of i)
                              congress bill_type bill_number
                              endpoint (endpoint_name_of endpoint) w1 =
            (w2, Ok (endpoint_name_of endpoint, data)) /\
          results !! endpoint_name_of endpoint = Some data.
Proof.
  pose proof fan_out_all_ok as Hok.
  destruct (fetch_record_data (fun _ _ => HttpReply 200 (Json "{}")) hr5 eight_groups)
    as [w' [results|e|]] eqn:Hrun; [|discriminate Hok..].
  exists w', results. split; [reflexivity|].
  exact (fetch_record_data_result _ hr5 eight_groups w' results Hrun).
Defined.

Lemma fan_out_outcome_witness :
  (exists w' results,
     fetch_record_data (fun _ _ => HttpReply 500 (Json "error")) hr5 eight_groups =
       (w', Ok results) /\
     ready w') /\
  fetch_record_data (fun _ _ => HttpReply 500 (Json "error")) (delete "number" hr5) eight_groups =
    (eight_groups, Raise KeyError).
Proof.
  split.
  - exact (fan_out_outcome (fun _ _ => HttpReply 500 (Json "error")) hr5 eight_groups
             eight_groups_ready).
  - exact (fan_out_outcome (fun _ _ => HttpReply 500 (Json "error")) (delete "number" hr5)
             eight_groups eight_groups_ready).
Defined.

End Fetcher.

(** ** The batch checkpoint pipeline
    ([split_into_batches], [process_batch], [process_batches], [main]) *)

Module Pipeline.

Import Pool Fetcher.

Section Pipeline.

(** API keys are the JSON values of the key file. *)
Context {Payload Cell : Type} `{!EqDecision Cell}.

Variable net : nat -> request json Cell -> reply Payload.

(** A value of an output row: a field of the input row, or what an endpoint
    returned. *)
Inductive value : Type :=
  | Field (c : Cell)
  | Fetched (data : option Payload).

(** The output file, line by line. *)
Inductive line : Type :=
  | Header (columns : gset string)
  | Row (fields : gmap string value).

(** [range(0, stop, step)] for a positive [step]. *)
Definition range_step (stop step : nat) : list nat :=
  (fun k => k * step) <$> seq 0 ((stop + step - 1) / step).

(** [split_into_batches(df, batch_size)]; [range] raises on a zero step. *)
Definition split_into_batches {A : Type} (df : list A) (batch_size : nat)
    : result (list (list A)) :=
  if decide (batch_size = 0) then Raise ValueError
  else Ok ((fun i => take batch_size (drop i df)) <$> range_step (length df) batch_size).

(** [{**record, **result}]: the fetched entries win over fields of the same
    name. *)
Definition combine (record : gmap string Cell) (result : gmap string (option Payload))
    : gmap string value :=
  (Fetched <$> result) ∪ (Field <$> record).

(** [process_record], the closure of [process_batch]: an exception of the
    fan-out is counted and swallowed; the log line of the handler reads
    [record['index']]. *)
Definition process_record (record : gmap string Cell) (w : world json Cell)
    : world json Cell * result (option (gmap string (option Payload))) :=
  match fetch_record_data net record w with
  | (w, Ok result) => (w, Ok (Some result))
  | (w, Raise _) =>
      let w := count_error w in
      match getitem record "index" with
      | Ok _ => (w, Ok None)
      | Raise e => (w, Raise e)
      | Suspended => (w, Suspended)
      end
  | (w, Suspended) => (w, Suspended)
  end.

(** The rows a batch adds to [output_rows]: for each record whose result is
    not [None], the combined record, in batch order. *)
Definition combined_rows (results : list (option (gmap string (option Payload))))
    (batch : list (gmap string Cell)) : list (gmap string value) :=
  omap (fun '(result, record) => combine record <$> result) (zip results batch).

(** [process_batch]: returns the list [output_rows] it appended to. *)
Definition process_batch (batch : list (gmap string Cell))
    (output_rows : list (gmap string value)) (w : world json Cell)
    : world json Cell * result (list (gmap string value)) :=
  match gather (process_record <$> batch) w with
  | (w, Ok results) => (w, Ok (output_rows ++ combined_rows results batch))
  | (w, Raise e) => (w, Raise e)
  | (w, Suspended) => (w, Suspended)
  end.

(** The columns of [pd.DataFrame(output_rows)]. *)
Definition columns (output_rows : list (gmap string value)) : gset string :=
  ⋃ (dom <$> output_rows).

(** [output_df.to_csv(output_file, index=False, mode='a', header=not
    os.path.exists(output_file))]; [None] is a file that does not exist. *)
Definition to_csv (output_rows : list (gmap string value)) (output_file : option (list line))
    : list line :=
  let header := negb (bool_decide (is_Some output_file)) in
  default [] output_file ++
  (if header then [Header (columns output_rows)] else []) ++
  (Row <$> output_rows).

(** The loop of [process_batches] over the batches, with the buffer
    [output_rows] and the output file as they stand. *)
Fixpoint batches_loop (batches : list (list (gmap string Cell)))
    (output_rows : list (gmap string value)) (output_file : option (list line))
    (w : world json Cell) : world json Cell * option (list line) * result unit :=
  match batches with
  | [] => (w, output_file, Ok ())
  | batch :: batches' =>
      match process_batch batch output_rows w with
      | (w, Ok output_rows) =>
          let output_file := Some (to_csv output_rows output_file) in
          let output_rows : list (gmap string value) := [] in
          batches_loop batches' output_rows output_file w
      | (w, Raise e) => (w, output_file, Raise e)
      | (w, Suspended) => (w, output_file, Suspended)
      end
  end.

(** [process_batches]: a fresh [shared_state], then the loop. *)
Definition process_batches (api_key_queues : gmap string (list json))
    (batches : list (list (gmap string Cell))) (output_file : option (list line))
    : world json Cell * option (list line) * result unit :=
  let output_rows := [] in
  let shared_state := initial_shared_state in
  batches_loop batches output_rows output_file (World api_key_queues shared_state [] []).

(** [pd.read_csv(output_file)['index']]: the first line names the columns;
    a file without columns cannot be parsed, a table without the column
    has no such key. *)
Definition read_index_column (lines : list line) : result (list Cell) :=
  match lines with
  | Header columns :: rows =>
      if decide ("index" ∈ columns) then
        Ok (omap (fun l => match l with
                           | Row fields =>
                               match fields !! "index" with
                               | Some (Field c) => Some c
                               | _ => None
                               end
                           | Header _ => None
                           end) rows)
      else if decide (columns = ∅) then Raise EmptyDataError
      else Raise KeyError
  | _ => Raise EmptyDataError
  end.

(** [bill_data['index'].isin(processed_indices)], row by row. *)
Definition isin (processed_indices : list Cell) (record : gmap string Cell) : bool :=
  match record !! "index" with
  | Some c => bool_decide (c ∈ processed_indices)
  | None => false
  end.

(** [bill_data[~bill_data['index'].isin(processed_indices)]] *)
Definition not_processed (processed_indices : list Cell) (bill_data : list (gmap string Cell))
    : list (gmap string Cell) :=
  filter (fun record => isin processed_indices record = false) bill_data.

(** The rows [main] still has to process, given the output file. *)
Definition remaining_rows (bill_data : list (gmap string Cell)) (output_file : option (list line))
    : result (list (gmap string Cell)) :=
  match output_file with
  | Some lines =>
      let* processed_indices := read_index_column lines in
      Ok (not_processed processed_indices bill_data)
  | None => Ok bill_data
  end.

(** [main], from the loaded table [bill_data] and the decoded key file on,
    with the batch size as a parameter. *)
Definition main_with (batch_size : nat) (bill_data : list (gmap string Cell)) (api_keys : json)
    (output_file : option (list line))
    : option (world json Cell) * option (list line) * result unit :=
  match load_api_key_queues api_keys with
  | Ok api_key_queues =>
      match remaining_rows bill_data output_file with
      | Ok [] => (None, output_file, Ok ())
      | Ok bill_data =>
          match split_into_batches bill_data batch_size with
          | Ok batches =>
              let '(w, output_file, r) := process_batches api_key_queues batches output_file in
              (Some w, output_file, r)
          | Raise e => (None, output_file, Raise e)
          | Suspended => (None, output_file, Suspended)
          end
      | Raise e => (None, output_file, Raise e)
      | Suspended => (None, output_file, Suspended)
      end
  | Raise e => (None, output_file, Raise e)
  | Suspended => (None, output_file, Suspended)
  end.


(** *** Batches *)

Lemma concat_chunks {A : Type} (df : list A) (s c : nat) :
  concat ((fun i => take s (drop i df)) <$> ((fun k => k * s) <$> seq 0 c)) = take (c * s) df.
Proof.
  induction c as [|c IH].
  - done.
  - rewrite seq_S, !fmap_app, concat_app, IH. simpl.
    rewrite app_nil_r, take_take_drop. f_equal. lia.
Qed.

Lemma range_step_covers (stop step : nat) :
  step <> 0 -> stop <= (stop + step - 1) / step * step.
Proof.
  intros Hstep.
  pose proof (Nat.div_mod (stop + step - 1) step Hstep) as Hdm.
  pose proof (Nat.mod_upper_bound (stop + step - 1) step Hstep) as Hlt.
  nia.
Qed.

Lemma split_into_batches_concat {A : Type} (df : list A) (batch_size : nat) :
  batch_size <> 0 ->
  exists batches,
    split_into_batches df batch_size = Ok batches /\ concat batches = df /\
    Forall (fun batch => length batch <= batch_size) batches.
Proof.
  intros Hbs. unfold split_into_batches. rewrite decide_False by done.
  eexists. split; [done|]. split.
  - unfold range_step. rewrite concat_chunks, take_ge; [done|].
    by apply range_step_covers.
  - apply Forall_fmap, Forall_forall. intros i _. simpl.
    rewrite length_take. lia.
Qed.

(** *** The shape of the batches *)




Example split_37_by_16 :
  fmap (M := result) (fmap length) (split_into_batches (seq 0 37) 16) = Ok [16; 16; 5].
Proof. reflexivity. Qed.

(** *** One record *)

Lemma combine_lookup (record : gmap string Cell) (result : gmap string (option Payload))
    (column : string) :
  combine record result !! column =
  match result !! column with
  | Some data => Some (Fetched data)
  | None => Field <$> record !! column
  end.
Proof.
  unfold combine. rewrite lookup_union, !lookup_fmap.
  destruct (result !! column), (record !! column); done.
Qed.


Lemma process_record_Some (record : gmap string Cell) (w w' : world json Cell)
    (result : gmap string (option Payload)) :
  process_record record w = (w', Ok (Some result)) ->
  fetch_record_data net record w = (w', Ok result).
Proof.
  unfold process_record.
  destruct (fetch_record_data net record w) as [w1 [res|e|]]; intros H.
  - by inversion H.
  - destruct (getitem record "index"); by inversion H.
  - by inversion H.
Qed.

Lemma process_record_None (record : gmap string Cell) (w w' : world json Cell) :
  process_record record w = (w', Ok None) ->
  exists w1 e, fetch_record_data net record w = (w1, Raise e) /\ w' = count_error w1.
Proof.
  unfold process_record.
  destruct (fetch_record_data net record w) as [w1 [res|e|]]; intros H.
  - by inversion H.
  - destruct (getitem record "index"); inversion H; subst. by eauto.
  - by inversion H.
Qed.

(** *** One batch *)

Lemma combined_rows_elem (results : list (option (gmap string (option Payload))))
    (batch : list (gmap string Cell)) (row : gmap string value) :
  row ∈ combined_rows results batch <->
  exists i record result,
    batch !! i = Some record /\ results !! i = Some (Some result) /\
    row = combine record result.
Proof.
  unfold combined_rows. rewrite list_elem_of_omap. split.
  - intros ([result record] & Hin & Hrow).
    apply list_elem_of_lookup in Hin as [i Hi].
    apply lookup_zip_with_Some in Hi as (r & rec & Heq & Hr & Hrec).
    inversion Heq; subst. destruct r as [res|]; simpl in Hrow; [|done].
    inversion Hrow; subst. by exists i, rec, res.
  - intros (i & record & result & Hrec & Hres & ->).
    exists (Some result, record). split; [|done].
    apply list_elem_of_lookup. exists i.
    apply lookup_zip_with_Some. by exists (Some result), record.
Qed.

Lemma process_batch_rows (batch : list (gmap string Cell))
    (output_rows rows : list (gmap string value)) (w w' : world json Cell) :
  process_batch batch output_rows w = (w', Ok rows) ->
  exists results,
    gather (process_record <$> batch) w = (w', Ok results) /\
    rows = output_rows ++ combined_rows results batch.
Proof.
  unfold process_batch.
  destruct (gather (process_record <$> batch) w) as [w1 [results|e|]]; intros H;
    inversion H; subst. by exists results.
Qed.

(** The results of a batch, record by record: a map when the fan-out of the
    record returned one, [None] when it raised. *)
Lemma gather_process_record (batch : list (gmap string Cell)) (w w' : world json Cell)
    (results : list (option (gmap string (option Payload)))) :
  gather (process_record <$> batch) w = (w', Ok results) ->
  length results = length batch /\
  forall i record,
    batch !! i = Some record ->
    (exists result w0 w0',
       results !! i = Some (Some result) /\
       fetch_record_data net record w0 = (w0', Ok result)) \/
    (exists e w0 w0',
       results !! i = Some None /\
       fetch_record_data net record w0 = (w0', Raise e)).
Proof.
  intros Hg. apply gather_values in Hg. split.
  - apply Forall2_length in Hg. by rewrite length_fmap in Hg.
  - intros i record Hi.
    assert ((process_record <$> batch) !! i = Some (process_record record)) as Ht
      by (by rewrite list_lookup_fmap, Hi).
    destruct (Forall2_lookup_l _ _ _ _ _ Hg Ht) as (res & Hres & w0 & w0' & Hrun).
    destruct res as [result|].
    + left. exists result, w0, w0'. split; [done|]. by apply process_record_Some.
    + right. apply process_record_None in Hrun as (w1 & e & Hrun & _).
      by exists e, w0, w1.
Qed.


(** *** The whole run on an existing output file *)

Definition row_of (batches : list (list (gmap string Cell))) (row : gmap string value) : Prop :=
  exists record result w0 w0',
    record ∈ concat batches /\
    fetch_record_data net record w0 = (w0', Ok result) /\
    row = combine record result.

Lemma batches_loop_appends (batches : list (list (gmap string Cell))) :
  forall (lines : list line) (w w' : world json Cell) (file' : option (list line))
         (r : result unit),
  batches_loop batches [] (Some lines) w = (w', file', r) ->
  exists new, file' = Some (lines ++ (Row <$> new)) /\ Forall (row_of batches) new.
Proof.
  induction batches as [|batch batches IH]; intros lines w w' file' r H; simpl in H.
  - inversion H; subst. exists []. by rewrite app_nil_r.
  - destruct (process_batch batch [] w) as [w1 [rows|e|]] eqn:Hb.
    + apply process_batch_rows in Hb as (results & Hg & ->). simpl in H.
      unfold to_csv in H. simpl in H.
      apply IH in H as (new & -> & Hnew).
      exists (combined_rows results batch ++ new). split.
      * by rewrite fmap_app, app_assoc.
      * apply Forall_app. split.
        -- apply Forall_forall. intros row Hrow.
           apply combined_rows_elem in Hrow as (i & record & result & Hi & Hres & ->).
           destruct (gather_process_record _ _ _ _ Hg) as [_ Hall].
           destruct (Hall i record Hi) as [(res & w0 & w0' & Hres' & Hrun)
                                          |(e & w0 & w0' & Hres' & _)].
           ++ rewrite Hres in Hres'. inversion Hres'; subst.
              exists record, res, w0, w0'. split_and!; [|done..].
              simpl. apply elem_of_app. left. by eapply list_elem_of_lookup_2.
           ++ rewrite Hres in Hres'. discriminate.
        -- eapply Forall_impl; [exact Hnew|].
           intros row (record & result & w0 & w0' & Hin & Hrun & ->).
           exists record, result, w0, w0'. split_and!; [|done..].
           simpl. apply elem_of_app. by right.
    + inversion H; subst. exists []. by rewrite app_nil_r.
    + inversion H; subst. exists []. by rewrite app_nil_r.
Qed.

Lemma index_is_no_endpoint : "index" ∉ endpoint_names.
Proof. vm_compute. intros H. repeat (inversion H as [|? ? ? H']; subst; clear H; rename H' into H). Qed.

(** The index of an output row is the index of its input row. *)
Lemma row_of_index (batches : list (list (gmap string Cell))) (row : gmap string value) :
  row_of batches row ->
  exists record, record ∈ concat batches /\ row !! "index" = Field <$> record !! "index".
Proof.
  intros (record & result & w0 & w0' & Hin & Hrun & ->).
  exists record. split; [done|]. rewrite combine_lookup.
  destruct (result !! "index") as [data|] eqn:E; [|done].
  exfalso. apply index_is_no_endpoint.
  eapply fetch_record_data_keys; [exact Hrun|]. by rewrite E.
Qed.

Lemma not_processed_elem (processed : list Cell) (bill_data : list (gmap string Cell))
    (record : gmap string Cell) :
  record ∈ not_processed processed bill_data <->
  record ∈ bill_data /\ isin processed record = false.
Proof. unfold not_processed. rewrite list_elem_of_filter. tauto. Qed.

(** C7: when the output file exists, [main] reads the row indices it holds
    and removes the input rows with such an index before any batch is
    formed; the batches are exactly the remaining rows, in input order, and
    only they are processed; the file keeps its lines, and every row the run
    adds carries the index of a remaining input row, which is none of the
    persisted indices. *)
Theorem resume_skips_persisted_rows (batch_size : nat) (bill_data : list (gmap string Cell))
    (api_keys : json) (lines : list line) (processed : list Cell) :
  batch_size <> 0 ->
  read_index_column lines = Ok processed ->
  let todo := not_processed processed bill_data in
  remaining_rows bill_data (Some lines) = Ok todo /\
  (forall record, record ∈ todo <-> record ∈ bill_data /\ isin processed record = false) /\
  (exists batches,
     split_into_batches todo batch_size = Ok batches /\ concat batches = todo /\
     forall api_key_queues,
       load_api_key_queues api_keys = Ok api_key_queues -> todo <> [] ->
       main_with batch_size bill_data api_keys (Some lines) =
       let '(w, output_file, r) := process_batches api_key_queues batches (Some lines) in
       (Some w, output_file, r)) /\
  (forall w' file' r,
     main_with batch_size bill_data api_keys (Some lines) = (w', file', r) ->
     exists new,
       file' = Some (lines ++ (Row <$> new)) /\
       Forall (fun row =>
                 exists record,
                   record ∈ todo /\ row !! "index" = Field <$> record !! "index" /\
                   forall c, row !! "index" = Some (Field c) -> c ∉ processed) new).
Proof.
  intros Hbs Hread todo.
  assert (remaining_rows bill_data (Some lines) = Ok todo) as Hrem.
  { unfold remaining_rows. by rewrite Hread. }
  destruct (split_into_batches_concat todo batch_size Hbs) as (batches & Hsplit & Hcat & _).
  split_and!.
  - done.
  - apply not_processed_elem.
  - exists batches. split_and!; [done..|].
    intros queues Hload Hne. unfold main_with. rewrite Hload, Hrem, Hsplit.
    by destruct todo.
  - intros w' file' r Hmain. unfold main_with in Hmain.
    destruct (load_api_key_queues api_keys) as [queues|e|].
    2,3: inversion Hmain; subst; exists []; by rewrite app_nil_r.
    rewrite Hrem, Hsplit in Hmain.
    destruct todo as [|record0 todo'] eqn:Etodo.
    { inversion Hmain; subst. exists []. by rewrite app_nil_r. }
    unfold process_batches in Hmain.
    destruct (batches_loop batches [] (Some lines) _) as [[w1 f1] r1] eqn:Hloop.
    inversion Hmain; subst. apply batches_loop_appends in Hloop as (new & -> & Hnew).
    exists new. split; [done|].
    eapply Forall_impl; [exact Hnew|]. intros row Hrow.
    apply row_of_index in Hrow as (record & Hin & Hidx).
    rewrite Hcat in Hin. exists record. split_and!; [done..|].
    intros c Hc. rewrite Hidx in Hc.
    rewrite <- Etodo in Hin. apply not_processed_elem in Hin as [_ Hisin].
    unfold isin in Hisin. destruct (record !! "index") as [c'|]; [|done].
    inversion Hc; subst. by apply bool_decide_eq_false in Hisin.
Qed.

(** *** A key file with an empty group *)



(** *** A run with a key in every group

    With such a key file every fan-out returns, whatever the server
    answers, so every record gets its row. *)

Definition has_columns (record : gmap string Cell) : Prop :=
  is_Some (record !! "congress") /\ is_Some (record !! "type") /\
  is_Some (record !! "number").

(** [row] is the input [record] merged with the result of its fan-out. *)
Definition row_for (record : gmap string Cell) (row : gmap string value) : Prop :=
  exists result w0 w0',
    fetch_record_data net record w0 = (w0', Ok result) /\ row = combine record result.

Lemma process_record_ready (record : gmap string Cell) (w : world json Cell) :
  ready w -> has_columns record ->
  exists w' result,
    process_record record w = (w', Ok (Some result)) /\ ready w' /\
    row_for record (combine record result).
Proof.
  intros Hw (Hc & Ht & Hn).
  destruct (fetch_record_data_ready net record w Hw Hc Ht Hn) as (w' & result & Hrun & Hw').
  exists w', result. unfold process_record. rewrite Hrun.
  split_and!; [done..|]. by exists result, w, w'.
Qed.

Lemma run_tasks_ready (batch : list (gmap string Cell)) :
  Forall has_columns batch ->
  forall w, ready w ->
    exists w' results,
      run_tasks (process_record <$> batch) w = (w', Ok <$> (Some <$> results)) /\
      ready w' /\
      Forall2 (fun record result => row_for record (combine record result)) batch results.
Proof.
  induction 1 as [|record batch Hrecord _ IH]; intros w Hw.
  - exists w, []. by split_and!.
  - rewrite fmap_cons. cbn [run_tasks].
    destruct (process_record_ready record w Hw Hrecord) as (w1 & result & -> & Hw1 & Hrow).
    destruct (IH w1 Hw1) as (w2 & results & -> & Hw2 & Hrows).
    exists w2, (result :: results). split_and!; [done..|]. by constructor.
Qed.

Lemma combined_rows_all (results : list (gmap string (option Payload)))
    (batch : list (gmap string Cell)) :
  length results = length batch ->
  combined_rows (Some <$> results) batch = zip_with combine batch results.
Proof.
  revert batch. induction results as [|result results IH]; intros [|record batch] Hlen;
    try done.
  unfold combined_rows in *. simpl. f_equal. apply IH. simpl in Hlen. lia.
Qed.

Lemma row_for_zip (batch : list (gmap string Cell))
    (results : list (gmap string (option Payload))) :
  Forall2 (fun record result => row_for record (combine record result)) batch results ->
  Forall2 row_for batch (zip_with combine batch results).
Proof. induction 1 as [|record result batch results Hrow _ IH]; simpl; by constructor. Qed.

Lemma process_batch_ready (batch : list (gmap string Cell)) (w : world json Cell) :
  Forall has_columns batch -> ready w ->
  exists w' rows,
    process_batch batch [] w = (w', Ok rows) /\ ready w' /\ Forall2 row_for batch rows.
Proof.
  intros Hbatch Hw.
  destruct (run_tasks_ready batch Hbatch w Hw) as (w' & results & Hrun & Hw' & Hrows).
  exists w', (zip_with combine batch results). unfold process_batch.
  rewrite (gather_all_ok _ _ _ _ Hrun). simpl.
  rewrite combined_rows_all by (symmetry; by eapply Forall2_length).
  split_and!; [done..|]. by apply row_for_zip.
Qed.

Lemma batches_loop_ready (batches : list (list (gmap string Cell))) :
  Forall (Forall has_columns) batches ->
  forall (lines : list line) (w : world json Cell),
    ready w ->
    exists w' rows,
      batches_loop batches [] (Some lines) w = (w', Some (lines ++ (Row <$> rows)), Ok ()) /\
      ready w' /\ Forall2 row_for (concat batches) rows.
Proof.
  induction 1 as [|batch batches Hbatch _ IH]; intros lines w Hw; simpl.
  - exists w, []. rewrite app_nil_r. by split_and!.
  - destruct (process_batch_ready batch w Hbatch Hw) as (w1 & rows & -> & Hw1 & Hrows).
    unfold to_csv. simpl.
    destruct (IH (lines ++ (Row <$> rows)) w1 Hw1) as (w2 & rows' & -> & Hw2 & Hrows').
    exists w2, (rows ++ rows'). rewrite fmap_app, app_assoc.
    split_and!; [done..|]. by apply Forall2_app.
Qed.

Lemma first_batch {A : Type} (df : list A) (batch_size : nat) (batch : list A)
    (batches : list (list A)) :
  split_into_batches df batch_size = Ok (batch :: batches) ->
  batch = take batch_size df /\ concat batches = drop batch_size df.
Proof.
  intros Hsplit.
  assert (batch_size <> 0) as Hbs.
  { intros ->. unfold split_into_batches in Hsplit. by rewrite decide_True in Hsplit. }
  destruct (split_into_batches_concat df batch_size Hbs) as (batches' & Hsplit' & Hcat & _).
  rewrite Hsplit in Hsplit'. injection Hsplit' as <-.
  assert (batch = take batch_size df) as ->.
  { unfold split_into_batches in Hsplit. rewrite decide_False in Hsplit by done.
    injection Hsplit as Hsplit. unfold range_step in Hsplit.
    destruct ((length df + batch_size - 1) / batch_size) as [|c]; [done|].
    simpl in Hsplit. by injection Hsplit as <- _. }
  split; [done|]. simpl in Hcat.
  rewrite <- (take_drop batch_size df) in Hcat at 2. by apply app_inv_head in Hcat.
Qed.

(** The whole first run, with the header it writes: the columns of the
    rows of the first batch. *)
Lemma first_run (batch_size : nat) (bill_data : list (gmap string Cell)) (api_keys : json)
    (api_key_queues : gmap string (list json)) :
  batch_size <> 0 -> bill_data <> [] ->
  load_api_key_queues api_keys = Ok api_key_queues ->
  (forall i endpoint,
     endpoints !! i = Some endpoint ->
     exists key rest, api_key_queues !! group_of i = Some (key :: rest)) ->
  Forall has_columns bill_data ->
  exists w' rows,
    main_with batch_size bill_data api_keys None =
      (Some w', Some (Header (columns (take batch_size rows)) :: (Row <$> rows)), Ok ()) /\
    Forall2 row_for bill_data rows.
Proof.
  intros Hbs Hne Hload Hgroups Hcols. unfold main_with. rewrite Hload. simpl.
  destruct (split_into_batches_concat bill_data batch_size Hbs) as (batches & Hsplit & Hcat & _).
  rewrite Hsplit.
  destruct bill_data as [|record0 bill_data'] eqn:Hdata; [done|]. rewrite <- Hdata in *.
  assert (Forall (Forall has_columns) batches) as Hbatches.
  { rewrite <- Hcat in Hcols. by apply Forall_concat. }
  destruct batches as [|batch batches].
  { simpl in Hcat. congruence. }
  unfold process_batches. cbn [batches_loop].
  apply Forall_cons in Hbatches as [Hbatch Hbatches].
  assert (ready (World api_key_queues initial_shared_state [] [] : world json Cell)) as Hw.
  { split; [done|exact Hgroups]. }
  destruct (process_batch_ready batch _ Hbatch Hw) as (w1 & rows & -> & Hw1 & Hrows).
  unfold to_csv. simpl.
  destruct (batches_loop_ready batches Hbatches (Header (columns rows) :: (Row <$> rows)) w1 Hw1)
    as (w2 & rows' & -> & Hw2 & Hrows').
  exists w2, (rows ++ rows'). split.
  - assert (take batch_size (rows ++ rows') = rows) as ->; [|by rewrite fmap_app].
    destruct (first_batch _ _ _ _ Hsplit) as [Hb Hrest].
    apply Forall2_length in Hrows, Hrows'. destruct rows' as [|row' rows'].
    + rewrite app_nil_r. apply take_ge. rewrite <- Hrows, Hb, length_take. lia.
    + apply take_app_length'. rewrite <- Hrows, Hb, length_take.
      rewrite Hrest, length_drop in Hrows'. simpl in Hrows'. lia.
  - rewrite <- Hcat. simpl. by apply Forall2_app.
Qed.

(** With at least one key in each of the eight groups, a first run over
    records that have the three columns ends normally, whatever the server
    answers, and writes a header followed by exactly one row per input
    record, in input order, each the record merged with the result of its
    fan-out. *)
Theorem complete_first_run (batch_size : nat) (bill_data : list (gmap string Cell))
    (api_keys : json) (api_key_queues : gmap string (list json)) :
  batch_size <> 0 -> bill_data <> [] ->
  load_api_key_queues api_keys = Ok api_key_queues ->
  (forall i endpoint,
     endpoints !! i = Some endpoint ->
     exists key rest, api_key_queues !! group_of i = Some (key :: rest)) ->
  Forall has_columns bill_data ->
  exists w' header rows,
    main_with batch_size bill_data api_keys None =
      (Some w', Some (Header header :: (Row <$> rows)), Ok ()) /\
    Forall2 row_for bill_data rows /\
    Forall2 (fun record row => forall column,
               column ∉ endpoint_names ->
               row !! column = Field <$> record !! column) bill_data rows.
Proof.
  intros Hbs Hne Hload Hgroups Hcols.
  destruct (first_run batch_size bill_data api_keys api_key_queues Hbs Hne Hload Hgroups Hcols)
    as (w' & rows & Hmain & Hrows).
  exists w', (columns (take batch_size rows)), rows. split_and!; [done..|].
  eapply Forall2_impl; [exact Hrows|].
  intros record row (result & w0 & w0' & Hrun & ->) column Hcolumn.
  rewrite combine_lookup. destruct (result !! column) as [data|] eqn:E; [|done].
  exfalso. apply Hcolumn. eapply fetch_record_data_keys; [exact Hrun|]. by rewrite E.
Qed.

Lemma read_written_indices (header : gset string) (rows : list (gmap string value))
    (indices : list Cell) :
  "index" ∈ header ->
  Forall2 (fun row c => row !! "index" = Some (Field c)) rows indices ->
  read_index_column (Header header :: (Row <$> rows)) = Ok indices.
Proof.
  intros Hheader Hrows. unfold read_index_column. rewrite decide_True by done. f_equal.
  induction Hrows as [|row c rows indices Hrow _ IH]; [done|].
  rewrite fmap_cons. cbn [omap list_omap]. rewrite Hrow. simpl. f_equal. apply IH.
Qed.

(** After such a run, over records that also carry their index, a second
    run finds every index in the output file: it makes no request and
    leaves the file as it is. *)
Theorem second_run_does_nothing (batch_size : nat) (bill_data : list (gmap string Cell))
    (api_keys : json) (api_key_queues : gmap string (list json)) :
  batch_size <> 0 -> bill_data <> [] ->
  load_api_key_queues api_keys = Ok api_key_queues ->
  (forall i endpoint,
     endpoints !! i = Some endpoint ->
     exists key rest, api_key_queues !! group_of i = Some (key :: rest)) ->
  Forall (fun record => has_columns record /\ is_Some (record !! "index")) bill_data ->
  exists w' output_file,
    main_with batch_size bill_data api_keys None = (Some w', Some output_file, Ok ()) /\
    main_with batch_size bill_data api_keys (Some output_file) =
      (None, Some output_file, Ok ()).
Proof.
  intros Hbs Hne Hload Hgroups Hall.
  assert (Forall has_columns bill_data) as Hcols.
  { eapply Forall_impl; [exact Hall|]. by intros record [? _]. }
  destruct (first_run batch_size bill_data api_keys api_key_queues Hbs Hne Hload Hgroups Hcols)
    as (w' & rows & Hmain & Hrows).
  exists w', (Header (columns (take batch_size rows)) :: (Row <$> rows)).
  split; [done|].
  assert (Forall2 (fun record row => exists c,
                     record !! "index" = Some c /\ row !! "index" = Some (Field c))
                  bill_data rows) as Hindex.
  { apply Forall2_same_length_lookup. split; [by eapply Forall2_length|].
    intros i record row Hi Hrow.
    destruct (Forall2_lookup_lr _ _ _ _ _ _ Hrows Hi Hrow) as (result & w0 & w0' & Hrun & ->).
    rewrite Forall_lookup in Hall. destruct (Hall i record Hi) as [_ [c Hc]].
    exists c. split; [done|]. rewrite combine_lookup.
    destruct (result !! "index") as [data|] eqn:E; [|by rewrite Hc].
    exfalso. apply index_is_no_endpoint.
    eapply fetch_record_data_keys; [exact Hrun|]. by rewrite E. }
  set (indices := omap (fun record : gmap string Cell => record !! "index") bill_data).
  assert (read_index_column (Header (columns (take batch_size rows)) :: (Row <$> rows)) =
          Ok indices) as Hread.
  { apply read_written_indices.
    - destruct bill_data as [|record0 bill_data']; [done|].
      destruct rows as [|row0 rows']; [by apply Forall2_length in Hrows|].
      apply Forall2_cons in Hindex as [(c & _ & Hrow0) _].
      destruct batch_size as [|n]; [done|]. simpl. unfold columns. simpl.
      apply elem_of_union_l, elem_of_dom. by eexists.
    - unfold indices. clear Hmain Hrows Hall Hcols Hne.
      induction Hindex as [|record row bill_data' rows' (c & Hc & Hrow) _ IH]; [constructor|].
      simpl. rewrite Hc. by constructor. }
  assert (not_processed indices bill_data = []) as Hnone.
  { destruct (not_processed indices bill_data) as [|record rest] eqn:E; [done|]. exfalso.
    assert (record ∈ not_processed indices bill_data) as Hin by (rewrite E; by left).
    apply not_processed_elem in Hin as [Hin Hisin].
    rewrite Forall_forall in Hall. destruct (Hall record Hin) as [_ [c Hc]].
    unfold isin in Hisin. rewrite Hc in Hisin. apply bool_decide_eq_false in Hisin.
    apply Hisin. unfold indices. apply list_elem_of_omap. by exists record. }
  unfold main_with. rewrite Hload. unfold remaining_rows. rewrite Hread. simpl.
  by rewrite Hnone.
Qed.

(** *** A run never fails on a record

    Whatever the key file holds and whatever the server answers, an
    exception of a fan-out is swallowed by [process_record] as long as the
    record has the [index] its log line prints. *)

Lemma process_record_returns (record : gmap string Cell) (w : world json Cell) :
  is_Some (record !! "index") ->
  exists w' result, process_record record w = (w', Ok result).
Proof.
  intros [c Hc]. unfold process_record, getitem. rewrite Hc.
  pose proof (fetch_record_data_not_suspended net record w) as Hns.
  destruct (fetch_record_data net record w) as [w' [result|e|]]; [by eauto..|done].
Qed.

Lemma process_batch_returns (batch : list (gmap string Cell))
    (output_rows : list (gmap string value)) (w : world json Cell) :
  Forall (fun record => is_Some (record !! "index")) batch ->
  exists w' rows, process_batch batch output_rows w = (w', Ok rows).
Proof.
  intros Hbatch.
  destruct (run_tasks_all_ok (fun _ => True) (process_record <$> batch)) with (w := w)
    as (w' & results & Hrun & _); [|done|].
  - apply Forall_fmap. eapply Forall_impl; [exact Hbatch|].
    intros record Hindex w1 _. simpl.
    destruct (process_record_returns record w1 Hindex) as (w2 & result & ->). by eauto.
  - unfold process_batch. rewrite (gather_all_ok _ _ _ _ Hrun). by eauto.
Qed.

Lemma batches_loop_returns (batches : list (list (gmap string Cell))) :
  Forall (Forall (fun record => is_Some (record !! "index"))) batches ->
  forall (output_file : option (list line)) (w : world json Cell),
    exists w' output_file',
      batches_loop batches [] output_file w = (w', output_file', Ok ()).
Proof.
  induction 1 as [|batch batches Hbatch _ IH]; intros output_file w; simpl.
  - by eauto.
  - destruct (process_batch_returns batch [] w Hbatch) as (w1 & rows & ->). apply IH.
Qed.

(** Once the key file is loaded and the indices of the output file, if
    there is one, are read, [main] ends normally over records that carry
    an [index]: whatever the server answers and whatever groups the key
    file has, no exception of a fetch leaves [process_record], and nothing
    waits for ever. *)
Theorem main_ends_normally (batch_size : nat) (bill_data : list (gmap string Cell))
    (api_keys : json) (output_file : option (list line)) :
  batch_size <> 0 ->
  is_Ok (load_api_key_queues api_keys) = true ->
  is_Ok (remaining_rows bill_data output_file) = true ->
  Forall (fun record => is_Some (record !! "index")) bill_data ->
  exists w' output_file',
    main_with batch_size bill_data api_keys output_file = (w', output_file', Ok ()).
Proof.
  intros Hbs Hload Hremaining Hindex. unfold main_with.
  destruct (load_api_key_queues api_keys) as [api_key_queues| |]; [|done..].
  assert (forall todo, remaining_rows bill_data output_file = Ok todo ->
            Forall (fun record => is_Some (record !! "index")) todo) as Htodo.
  { intros todo Hrem. unfold remaining_rows in Hrem.
    destruct output_file as [lines|]; [|by injection Hrem as <-].
    destruct (read_index_column lines) as [processed| |]; [|done..].
    injection Hrem as <-. apply Forall_forall. intros record Hin.
    apply not_processed_elem in Hin as [Hin _]. rewrite Forall_forall in Hindex.
    by apply Hindex. }
  destruct (remaining_rows bill_data output_file) as [todo| |]; [|done..].
  specialize (Htodo todo eq_refl).
  destruct todo as [|record0 todo']; [by eauto|].
  destruct (split_into_batches_concat (record0 :: todo') batch_size Hbs)
    as (batches & -> & Hcat & _).
  assert (Forall (Forall (fun record => is_Some (record !! "index"))) batches) as Hbatches.
  { rewrite <- Hcat in Htodo. by apply Forall_concat. }
  unfold process_batches.
  destruct (batches_loop_returns batches Hbatches output_file
              (World api_key_queues initial_shared_state [] []))
    as (w' & output_file' & ->).
  by eauto.
Qed.

End Pipeline.

Arguments value : clear implicits.
Arguments line : clear implicits.

(** *** Resuming a run over the rows 1..10 after the rows 1..4 were persisted *)

Definition bill (i : Z) : gmap string Z :=
  {[ "index" := i; "congress" := 117%Z; "type" := 1%Z; "number" := (100 + i)%Z ]}.

Definition ten_bills : list (gmap string Z) := bill <$> [1; 2; 3; 4; 5; 6; 7; 8; 9; 10]%Z.

(** Two keys in each of the eight groups. *)
Definition two_keys_per_group : json :=
  JObject ((fun i => (group_of i, JArray [JString "a"; JString "b"])) <$> seq 0 8).

Definition always_200 : nat -> request json Z -> reply string :=
  fun _ _ => HttpReply 200 (Json "payload").

(** The output file a first run leaves when it is stopped after its first
    batch of four. *)
Definition after_first_batch : list (line string Z) :=
  default [] (main_with always_200 4 (take 4 ten_bills) two_keys_per_group None).1.2.

Definition row_indices (lines : list (line string Z)) : list (option (value string Z)) :=
  omap (fun l => match l with Row fields => Some (fields !! "index") | Header _ => None end) lines.

Example first_batch_persisted :
  row_indices after_first_batch =
  [Some (Field 1); Some (Field 2); Some (Field 3); Some (Field 4)]%Z /\
  read_index_column after_first_batch = Ok [1; 2; 3; 4]%Z.
Proof. vm_compute. done. Qed.

Definition indices (batch : list (gmap string Z)) : list (option Z) :=
  (fun record => record !! "index") <$> batch.

Example batches_of_four :
  exists batches,
    split_into_batches (not_processed [1; 2; 3; 4]%Z ten_bills) 4 = Ok batches /\
    (indices <$> batches) = [Some <$> [5; 6; 7; 8]%Z; Some <$> [9; 10]%Z].
Proof. eexists. split; [reflexivity|]. vm_compute. reflexivity. Qed.

Example rerun_output :
  let '(w, output_file, r) :=
    main_with always_200 4 ten_bills two_keys_per_group (Some after_first_batch) in
  r = Ok () /\
  row_indices (default [] output_file) = (fun i => Some (Field i)) <$> [1; 2; 3; 4; 5; 6; 7; 8; 9; 10]%Z /\
  (r_bill_number <$> default [] (requests <$> w)) =
    ([105; 106; 107; 108; 109; 110]%Z ≫= replicate 8).
Proof. vm_compute. done. Qed.

Lemma resume_witness :
  let todo := not_processed [1; 2; 3; 4]%Z ten_bills in
  indices todo = Some <$> [5; 6; 7; 8; 9; 10]%Z /\
  remaining_rows ten_bills (Some after_first_batch) = Ok todo /\
  (exists batches, split_into_batches todo 4 = Ok batches /\ concat batches = todo) /\
  forall w' file' r,
    main_with always_200 4 ten_bills two_keys_per_group (Some after_first_batch) = (w', file', r) ->
    exists new,
      file' = Some (after_first_batch ++ (Row <$> new)) /\
      Forall (fun row => forall c, row !! "index" = Some (Field c) -> c ∉ [1; 2; 3; 4]%Z) new.
Proof.
  intros todo.
  pose proof (resume_skips_persisted_rows always_200 4 ten_bills two_keys_per_group
              after_first_batch [1; 2; 3; 4]%Z) as H.
  assert (4 <> 0)%nat as H4 by lia.
  assert (read_index_column after_first_batch = Ok [1; 2; 3; 4]%Z) as Hr by (vm_compute; reflexivity).
  specialize (H H4 Hr).
  destruct H as (Hrem & _ & (batches & Hsplit & Hcat & _) & Hout).
  split.
  { vm_compute. reflexivity. }
  split.
  { exact Hrem. }
  split.
  { exists batches. split; assumption. }
  intros w' file' r Hmain. 
  destruct (Hout w' file' r Hmain) as (new & Hf & Hnew).
  exists new. split; [exact Hf|].
  eapply Forall_impl; [exact Hnew|]. intros row (record & _ & _ & Hc). exact Hc.
Defined.

(** *** A run with an empty first group *)




(** *** A first run and a second one, against a server that is down *)

Definition loaded_queues : gmap string (list json) :=
  match load_api_key_queues two_keys_per_group with
  | Ok api_key_queues => api_key_queues
  | _ => ∅
  end.

Lemma two_keys_loaded : load_api_key_queues two_keys_per_group = Ok loaded_queues.
Proof. reflexivity. Qed.

Lemma two_keys_in_every_group (i : nat) (endpoint : string) :
  endpoints !! i = Some endpoint ->
  exists key rest, loaded_queues !! group_of i = Some (key :: rest).
Proof.
  intros Hi. apply lookup_lt_Some in Hi. exists (JString "a"), [JString "b"].
  do 8 (destruct i as [|i]; [vm_compute; reflexivity|]).
  simpl in Hi. lia.
Qed.

Lemma ten_bills_columns :
  Forall (fun record : gmap string Z =>
            has_columns record /\ is_Some (record !! "index")) ten_bills.
Proof.
  apply Forall_forall. intros record Hin.
  apply list_elem_of_fmap in Hin as (i & -> & _).
  unfold has_columns, bill. split_and!; by eexists.
Qed.

Definition server_down : nat -> request json Z -> reply string :=
  fun _ _ => TransportFailure.

Lemma complete_first_run_witness :
  exists w' header rows,
    main_with server_down 4 ten_bills two_keys_per_group None =
      (Some w', Some (Header header :: (Row <$> rows)), Ok ()) /\
    Forall2 (row_for server_down) ten_bills rows /\
    Forall2 (fun record row => forall column,
               column ∉ endpoint_names ->
               row !! column = Field <$> record !! column) ten_bills rows.
Proof.
  apply (complete_first_run server_down 4 ten_bills two_keys_per_group loaded_queues).
  - lia.
  - discriminate.
  - exact two_keys_loaded.
  - exact two_keys_in_every_group.
  - eapply Forall_impl; [exact ten_bills_columns|]. by intros record [H _].
Defined.

Lemma second_run_witness :
  exists w' output_file,
    main_with server_down 4 ten_bills two_keys_per_group None =
      (Some w', Some output_file, Ok ()) /\
    main_with server_down 4 ten_bills two_keys_per_group (Some output_file) =
      (None, Some output_file, Ok ()).
Proof.
  apply (second_run_does_nothing server_down 4 ten_bills two_keys_per_group loaded_queues).
  - lia.
  - discriminate.
  - exact two_keys_loaded.
  - exact two_keys_in_every_group.
  - exact ten_bills_columns.
Defined.

(** The server being down, every row holds [None] for every endpoint, and
    eight errors were counted per record. *)
Example server_down_run :
  let '(w, output_file, r) := main_with server_down 4 ten_bills two_keys_per_group None in
  r = Ok () /\
  row_indices (default [] output_file) =
    (fun i => Some (Field i)) <$> [1; 2; 3; 4; 5; 6; 7; 8; 9; 10]%Z /\
  (error_count <$> (shared <$> w)) = Some 80%Z.
Proof. vm_compute. done. Qed.

(** A key file with one group only: for every record the fetch of the
    sponsors is made and the fan-out then raises [KeyError]; the run counts
    one error per record, writes no row and ends normally. *)
Definition one_group : json := JObject [("group_1", JArray [JString "a"])].

Example one_group_run :
  let '(w, output_file, r) := main_with always_200 4 ten_bills one_group None in
  r = Ok () /\
  row_indices (default [] output_file) = [] /\
  (error_count <$> (shared <$> w)) = Some 10%Z /\
  (length <$> (requests <$> w)) = Some 10%nat.
Proof. vm_compute. done. Qed.

Lemma main_ends_normally_witness :
  exists w' output_file',
    main_with always_200 4 ten_bills one_group None = (w', output_file', Ok ()).
Proof.
  apply (main_ends_normally always_200 4 ten_bills one_group None).
  - lia.
  - reflexivity.
  - reflexivity.
  - eapply Forall_impl; [exact ten_bills_columns|]. by intros record [_ H].
Defined.

End Pipeline.

(** ** The field-extraction pass
    ([get_sponsor_info], [get_summaries_count], [get_subject_info],
    [get_latest_summary_text]) *)

Module Extract.

Local Open Scope Z_scope.

(** The Python values the pass meets: what a cell of the table holds (a
    string, or a float such as NaN where the cell is empty) and what
    [ast.literal_eval] builds.  The entries of a [PyDict] are its items, the
    keys pairwise different. *)
Inductive float_value : Type :=
  | FNaN
  | FInf (negative : bool)
  | FFinite (mantissa exponent : Z).

Inductive pyvalue : Type :=
  | PyNone
  | PyBool (b : bool)
  | PyInt (z : Z)
  | PyFloat (f : float_value)
  | PyStr (s : string)
  | PyBytes (bytes : list Z)
  | PyList (items : list pyvalue)
  | PyTuple (items : list pyvalue)
  | PySet (items : list pyvalue)
  | PyDict (entries : list (pyvalue * pyvalue)).

(** [bool(v)] *)
Definition truthy (v : pyvalue) : bool :=
  match v with
  | PyNone => false
  | PyBool b => b
  | PyInt z => negb (z =? 0)
  | PyFloat (FFinite 0 _) => false
  | PyFloat _ => true
  | PyStr s => negb (String.eqb s "")
  | PyBytes bytes => negb (bool_decide (bytes = []))
  | PyList items | PyTuple items | PySet items => negb (Nat.eqb (length items) 0)
  | PyDict entries => negb (Nat.eqb (length entries) 0)
  end.

(** [v == key] for a string [key]: only a string equals a string. *)
Definition eq_str (key : string) (v : pyvalue) : bool :=
  match v with
  | PyStr s => String.eqb s key
  | _ => false
  end.

Fixpoint starts_with (prefix s : string) : bool :=
  match prefix, s with
  | EmptyString, _ => true
  | String a prefix', String b s' => Ascii.eqb a b && starts_with prefix' s'
  | String _ _, EmptyString => false
  end.

Fixpoint is_substring (needle s : string) : bool :=
  starts_with needle s ||
  match s with
  | String _ s' => is_substring needle s'
  | EmptyString => false
  end.

(** [key in container] for a string [key]. *)
Definition contains_str (key : string) (container : pyvalue) : result bool :=
  match container with
  | PyDict entries => Ok (existsb (eq_str key) entries.*1)
  | PyList items | PyTuple items | PySet items => Ok (existsb (eq_str key) items)
  | PyStr s => Ok (is_substring key s)
  | PyBytes _ | PyNone | PyBool _ | PyInt _ | PyFloat _ => Raise TypeError
  end.

Fixpoint assoc_str (key : string) (entries : list (pyvalue * pyvalue)) : option pyvalue :=
  match entries with
  | [] => None
  | (k, v) :: entries' => if eq_str key k then Some v else assoc_str key entries'
  end.

(** [container[key]] for a string [key]. *)
Definition getitem_str (container : pyvalue) (key : string) : result pyvalue :=
  match container with
  | PyDict entries =>
      match assoc_str key entries with
      | Some v => Ok v
      | None => Raise KeyError
      end
  | _ => Raise TypeError
  end.

(** [v.get(key, default)]: a method of dictionaries only. *)
Definition get_str (v : pyvalue) (key : string) (fallback : pyvalue) : result pyvalue :=
  match v with
  | PyDict entries => Ok (default fallback (assoc_str key entries))
  | _ => Raise AttributeError
  end.

(** [len(v)] *)
Definition len (v : pyvalue) : result Z :=
  match v with
  | PyStr s => Ok (Z.of_nat (String.length s))
  | PyBytes bytes => Ok (Z.of_nat (length bytes))
  | PyList items | PyTuple items | PySet items => Ok (Z.of_nat (length items))
  | PyDict entries => Ok (Z.of_nat (length entries))
  | PyNone | PyBool _ | PyInt _ | PyFloat _ => Raise TypeError
  end.

(** [for x in v] *)
Definition iter (v : pyvalue) : result (list pyvalue) :=
  match v with
  | PyList items | PyTuple items | PySet items => Ok items
  | PyDict entries => Ok entries.*1
  | PyStr s => Ok ((fun c => PyStr (String c EmptyString)) <$> String.list_ascii_of_string s)
  | PyBytes bytes => Ok (PyInt <$> bytes)
  | PyNone | PyBool _ | PyInt _ | PyFloat _ => Raise TypeError
  end.

Fixpoint traverse {A B : Type} (f : A -> result B) (l : list A) : result (list B) :=
  match l with
  | [] => Ok []
  | a :: l' =>
      let* b := f a in
      let* bs := traverse f l' in
      Ok (b :: bs)
  end.

(** [sep.join(parts)]: every part must be a string. *)
Definition as_str (v : pyvalue) : result string :=
  match v with
  | PyStr s => Ok s
  | _ => Raise TypeError
  end.

Fixpoint join_strings (sep : string) (parts : list string) : string :=
  match parts with
  | [] => ""
  | [s] => s
  | s :: parts' => s +:+ sep +:+ join_strings sep parts'
  end.

Definition join (sep : string) (parts : list pyvalue) : result pyvalue :=
  let* strings := traverse as_str parts in
  Ok (PyStr (join_strings sep strings)).

(** [s.strip()] over ASCII: the characters [isspace] accepts there. *)
Definition is_space (c : Ascii.ascii) : bool :=
  let n := Ascii.nat_of_ascii c in
  ((9 <=? n) && (n <=? 13) || (28 <=? n) && (n <=? 32))%nat.

Fixpoint lstrip (l : list Ascii.ascii) : list Ascii.ascii :=
  match l with
  | c :: l' => if is_space c then lstrip l' else l
  | [] => []
  end.

Definition strip (s : string) : string :=
  String.string_of_list_ascii
    (rev (lstrip (rev (lstrip (String.list_ascii_of_string s))))).

Section Functions.

(** Three library functions stay parameters: [ast.literal_eval] on the text
    of a cell, [repr] for the values an f-string renders that are neither
    strings, [None], booleans nor integers, and
    [sorted(l, key=f, reverse=True)]. *)
Variable literal_eval : string -> result pyvalue.
Variable repr : pyvalue -> string.
Variable sorted_reverse : (pyvalue -> result pyvalue) -> list pyvalue -> result (list pyvalue).

(** [str(v)], as an f-string renders [v]. *)
Definition str_of (v : pyvalue) : string :=
  match v with
  | PyStr s => s
  | PyNone => "None"
  | PyBool true => "True"
  | PyBool false => "False"
  | PyInt z => pretty z
  | _ => repr v
  end.

(** [try: data = ast.literal_eval(s)  except (SyntaxError, ValueError):
    return fallback], then the rest of the function on [data]. *)
Definition parse_or {A : Type} (s : string) (fallback : A) (rest : pyvalue -> result A)
    : result A :=
  match literal_eval s with
  | Ok data => rest data
  | Raise SyntaxError | Raise ValueError => Ok fallback
  | Raise e => Raise e
  | Suspended => Suspended
  end.

(** The body of [for sponsor in sponsor_list]: the name and the id appended
    to [sponsors] and [bioguideIds]. *)
Definition sponsor_entry (sponsor : pyvalue) : result (pyvalue * pyvalue) :=
  let* first_name := get_str sponsor "firstName" (PyStr "") in
  let* last_name := get_str sponsor "lastName" (PyStr "") in
  let full_name := strip (str_of first_name +:+ " " +:+ str_of last_name) in
  let* bioguideId := get_str sponsor "bioguideId" (PyStr "") in
  Ok (PyStr full_name, bioguideId).

Definition get_sponsor_info (sponsors_str : pyvalue) : result (list pyvalue) :=
  let fallback := [PyStr "NA"; PyStr "NA"; PyInt 0] in
  match sponsors_str with
  | PyStr s =>
      parse_or s fallback (fun data =>
        let* has_bill := contains_str "bill" data in
        if has_bill then
          let* bill := getitem_str data "bill" in
          let* has_sponsors := contains_str "sponsors" bill in
          if has_sponsors then
            let* sponsor_list := getitem_str bill "sponsors" in
            let* sponsor_count := len sponsor_list in
            let* items := iter sponsor_list in
            let* entries := traverse sponsor_entry items in
            let* sponsor_names_str := join "; " entries.*1 in
            let* bioguideIds_str := join "; " entries.*2 in
            Ok [bioguideIds_str; sponsor_names_str; PyInt sponsor_count]
          else Ok fallback
        else Ok fallback)
  | _ => Ok fallback
  end.

Definition get_summaries_count (summaries_str : pyvalue) : result pyvalue :=
  match summaries_str with
  | PyStr s =>
      parse_or s (PyInt 0) (fun data =>
        let* has_pagination := contains_str "pagination" data in
        if has_pagination then
          let* pagination := getitem_str data "pagination" in
          let* has_count := contains_str "count" pagination in
          if has_count then getitem_str pagination "count"
          else Ok (PyInt 0)
        else Ok (PyInt 0))
  | _ => Ok (PyInt 0)
  end.

(** The [legislativeSubjects] part of [get_subject_info]: the count and the
    texts collected. *)
Definition legislative_subjects (subjects_data : pyvalue) : result (Z * list pyvalue) :=
  let* has_subjects := contains_str "legislativeSubjects" subjects_data in
  if has_subjects then
    let* subjects_list := getitem_str subjects_data "legislativeSubjects" in
    if truthy subjects_list then
      let* subject_count := len subjects_list in
      let* items := iter subjects_list in
      let* subject_texts := traverse (fun subject => get_str subject "name" (PyStr "")) items in
      Ok (subject_count, subject_texts)
    else Ok (0, [])
  else Ok (0, []).

(** The [policyArea] part: a dictionary gives at most one text, a list the
    names that are not empty. *)
Definition policy_areas (subjects_data : pyvalue) : result (Z * list pyvalue) :=
  let* has_policy_area := contains_str "policyArea" subjects_data in
  if has_policy_area then
    let* policy_area := getitem_str subjects_data "policyArea" in
    match policy_area with
    | PyDict _ =>
        let* policy_area_name := get_str policy_area "name" (PyStr "") in
        if truthy policy_area_name then Ok (1, [policy_area_name]) else Ok (0, [])
    | PyList items =>
        let* names := traverse (fun pa => get_str pa "name" (PyStr "")) items in
        let policy_area_names := filter (fun name => truthy name = true) names in
        Ok (Z.of_nat (length policy_area_names), policy_area_names)
    | _ => Ok (0, [])
    end
  else Ok (0, []).

(** ['; '.join(texts) if texts else 'NA'] *)
Definition join_or_NA (texts : list pyvalue) : result pyvalue :=
  match texts with
  | [] => Ok (PyStr "NA")
  | _ => join "; " texts
  end.

Definition get_subject_info (subjects_str : pyvalue) : result (list pyvalue) :=
  let fallback := [PyInt 0; PyStr "NA"; PyInt 0; PyStr "NA"] in
  match subjects_str with
  | PyStr s =>
      parse_or s fallback (fun data =>
        let* has_subjects := contains_str "subjects" data in
        let* '(subject_count, subject_texts, policy_area_count, policy_area_texts) :=
          (if has_subjects then
             let* subjects_data := getitem_str data "subjects" in
             let* '(subject_count, subject_texts) := legislative_subjects subjects_data in
             let* '(policy_area_count, policy_area_texts) := policy_areas subjects_data in
             Ok (subject_count, subject_texts, policy_area_count, policy_area_texts)
           else Ok (0, [], 0, [])) in
        let* subject_texts_str := join_or_NA subject_texts in
        let* policy_area_texts_str := join_or_NA policy_area_texts in
        Ok [PyInt subject_count; subject_texts_str; PyInt policy_area_count;
            policy_area_texts_str])
  | _ => Ok fallback
  end.

(** [summary.get('updateDate', '') or summary.get('actionDate', '')] *)
Definition get_date (summary : pyvalue) : result pyvalue :=
  let* update_date := get_str summary "updateDate" (PyStr "") in
  if truthy update_date then Ok update_date
  else get_str summary "actionDate" (PyStr "").

Definition get_latest_summary_text (summaries_str : pyvalue) : result pyvalue :=
  match summaries_str with
  | PyStr s =>
      parse_or s (PyStr "NA") (fun data =>
        let* has_summaries := contains_str "summaries" data in
        if has_summaries then
          let* summaries_list := getitem_str data "summaries" in
          match summaries_list with
          | PyList items =>
              if negb (truthy summaries_list) then Ok (PyStr "NA")
              else
                let* summaries_list_sorted := sorted_reverse get_date items in
                match summaries_list_sorted with
                | latest_summary :: _ => get_str latest_summary "text" (PyStr "NA")
                | [] => Raise OtherError
                end
          | _ => Ok (PyStr "NA")
          end
        else Ok (PyStr "NA"))
  | _ => Ok (PyStr "NA")
  end.

(** *** The cosponsors

    [get_cosponsor_info]: the columns are the count, the ids and the names,
    in that order; unlike the sponsors, the cosponsors must be a list. *)

(** The body of [for cosponsor in cosponsor_list]. *)
Definition cosponsor_entry (cosponsor : pyvalue) : result (pyvalue * pyvalue) :=
  let* bioguideId := get_str cosponsor "bioguideId" (PyStr "") in
  let* first_name := get_str cosponsor "firstName" (PyStr "") in
  let* last_name := get_str cosponsor "lastName" (PyStr "") in
  let full_name := strip (str_of first_name +:+ " " +:+ str_of last_name) in
  Ok (bioguideId, PyStr full_name).

Definition get_cosponsor_info (cosponsors_str : pyvalue) : result (list pyvalue) :=
  let fallback := [PyInt 0; PyStr "NA"; PyStr "NA"] in
  match cosponsors_str with
  | PyStr s =>
      parse_or s fallback (fun data =>
        let* has_cosponsors := contains_str "cosponsors" data in
        if has_cosponsors then
          let* cosponsors := getitem_str data "cosponsors" in
          match cosponsors with
          | PyList _ =>
              let* cosponsor_list := getitem_str data "cosponsors" in
              let* cosponsor_count := len cosponsor_list in
              let* items := iter cosponsor_list in
              let* entries := traverse cosponsor_entry items in
              let* cosponsor_bioguideIds_str := join "; " entries.*1 in
              let* cosponsor_names_str := join "; " entries.*2 in
              Ok [PyInt cosponsor_count; cosponsor_bioguideIds_str; cosponsor_names_str]
          | _ => Ok fallback
          end
        else Ok fallback)
  | _ => Ok fallback
  end.

(** *** Counts and joined texts agree *)

Lemma traverse_length {A B : Type} (f : A -> result B) (l : list A) (l' : list B) :
  traverse f l = Ok l' -> length l' = length l.
Proof.
  revert l'. induction l as [|a l IH]; intros l' H; simpl in H.
  - by injection H as <-.
  - destruct (f a) as [b| |]; [|done..]. simpl in H.
    destruct (traverse f l) as [bs| |]; [|done..]. simpl in H.
    injection H as <-. simpl. by rewrite (IH bs).
Qed.

Lemma traverse_as_str (parts : list pyvalue) (strings : list string) :
  traverse as_str parts = Ok strings -> parts = PyStr <$> strings.
Proof.
  revert strings. induction parts as [|v parts IH]; intros strings H; simpl in H.
  - by injection H as <-.
  - destruct v; try done. simpl in H.
    destruct (traverse as_str parts) as [ss| |]; [|done..]. simpl in H.
    injection H as <-. simpl. by rewrite (IH ss).
Qed.

(** A join that succeeds joined strings, as many as there were parts. *)
Lemma join_Ok (sep : string) (parts : list pyvalue) (v : pyvalue) :
  join sep parts = Ok v ->
  exists strings,
    parts = PyStr <$> strings /\ v = PyStr (join_strings sep strings).
Proof.
  unfold join. destruct (traverse as_str parts) as [strings| |] eqn:H; [|done..].
  simpl. intros Hv. injection Hv as <-. exists strings. split; [|done].
  by apply traverse_as_str.
Qed.

Lemma length_list_ascii_of_string (s : string) :
  length (String.list_ascii_of_string s) = String.length s.
Proof. induction s as [|c s IH]; simpl; [done|by rewrite IH]. Qed.

(** [len(v)] is the number of items [for x in v] goes through. *)
Lemma len_iter (v : pyvalue) (n : Z) (items : list pyvalue) :
  len v = Ok n -> iter v = Ok items -> n = Z.of_nat (length items).
Proof.
  destruct v; simpl; try done; intros Hn Hitems;
    injection Hn as <-; injection Hitems as <-;
    by rewrite ?length_fmap, ?length_list_ascii_of_string.
Qed.

(** What the two functions return is the default row or a row whose count
    is the number of names, and of ids, that were joined. *)
Definition counted_row (count ids names : pyvalue) : Prop :=
  exists id_list name_list : list string,
    length id_list = length name_list /\
    count = PyInt (Z.of_nat (length name_list)) /\
    ids = PyStr (join_strings "; " id_list) /\
    names = PyStr (join_strings "; " name_list).

Lemma entries_counted (entries : list (pyvalue * pyvalue)) (n : Z) (a b : pyvalue) :
  n = Z.of_nat (length entries) ->
  join "; " entries.*1 = Ok a -> join "; " entries.*2 = Ok b ->
  exists l1 l2 : list string,
    length l1 = length l2 /\ n = Z.of_nat (length l1) /\
    a = PyStr (join_strings "; " l1) /\ b = PyStr (join_strings "; " l2).
Proof.
  intros -> Ha Hb.
  apply join_Ok in Ha as (l1 & H1 & ->). apply join_Ok in Hb as (l2 & H2 & ->).
  apply (f_equal length) in H1, H2. rewrite !length_fmap in H1, H2.
  exists l1, l2. split_and!; [congruence|congruence|done..].
Qed.

(** Whenever [get_sponsor_info] or [get_cosponsor_info] returns, it returns
    either its default row or a row in which the count is the number of
    entries of the list and both texts are ['; ']-joins of that many
    strings; for an empty list that is the count 0 with two empty texts,
    not ['NA']. *)
Theorem counts_match_joined_names (v : pyvalue) (row : list pyvalue) :
  (get_sponsor_info v = Ok row ->
   row = [PyStr "NA"; PyStr "NA"; PyInt 0] \/
   exists ids names count, row = [ids; names; count] /\ counted_row count ids names) /\
  (get_cosponsor_info v = Ok row ->
   row = [PyInt 0; PyStr "NA"; PyStr "NA"] \/
   exists count ids names, row = [count; ids; names] /\ counted_row count ids names).
Proof.
  split.
  - unfold get_sponsor_info. destruct v as [| | | |s| | | | |];
      try (intros H; injection H as <-; by left).
    unfold parse_or. destruct (literal_eval s) as [data|e|]; [|destruct e; try done..|done];
      try (intros H; injection H as <-; by left).
    destruct (contains_str "bill" data) as [[|]| |]; simpl; try done;
      [|intros H; injection H as <-; by left].
    destruct (getitem_str data "bill") as [bill| |]; simpl; [|done..].
    destruct (contains_str "sponsors" bill) as [[|]| |]; simpl; try done;
      [|intros H; injection H as <-; by left].
    destruct (getitem_str bill "sponsors") as [sponsor_list| |]; simpl; [|done..].
    destruct (len sponsor_list) as [n| |] eqn:Hlen; simpl; [|done..].
    destruct (iter sponsor_list) as [items| |] eqn:Hiter; simpl; [|done..].
    destruct (traverse sponsor_entry items) as [entries| |] eqn:Hentries; simpl; [|done..].
    destruct (join "; " entries.*1) as [names| |] eqn:Hnames; simpl; [|done..].
    destruct (join "; " entries.*2) as [ids| |] eqn:Hids; simpl; [|done..].
    intros H; injection H as <-. right. exists ids, names, (PyInt n). split; [done|].
    pose proof (len_iter _ _ _ Hlen Hiter) as Hn.
    apply traverse_length in Hentries. rewrite <- Hentries in Hn.
    destruct (entries_counted entries n names ids Hn Hnames Hids)
      as (l1 & l2 & Hl & Hn' & -> & ->).
    exists l2, l1. split_and!; [done|congruence|done..].
  - unfold get_cosponsor_info. destruct v as [| | | |s| | | | |];
      try (intros H; injection H as <-; by left).
    unfold parse_or. destruct (literal_eval s) as [data|e|]; [|destruct e; try done..|done];
      try (intros H; injection H as <-; by left).
    destruct (contains_str "cosponsors" data) as [[|]| |]; simpl; try done;
      [|intros H; injection H as <-; by left].
    destruct (getitem_str data "cosponsors") as [cosponsors| |]; simpl; [|done..].
    destruct cosponsors as [| | | | | |items| | |];
      try (intros H; injection H as <-; by left).
    simpl.
    destruct (traverse cosponsor_entry items) as [entries| |] eqn:Hentries; simpl; [|done..].
    destruct (join "; " entries.*1) as [ids| |] eqn:Hids; simpl; [|done..].
    destruct (join "; " entries.*2) as [names| |] eqn:Hnames; simpl; [|done..].
    intros H; injection H as <-. right.
    exists (PyInt (Z.of_nat (length items))), ids, names. split; [done|].
    apply traverse_length in Hentries.
    destruct (entries_counted entries (Z.of_nat (length items)) ids names
                ltac:(by rewrite Hentries) Hids Hnames)
      as (l1 & l2 & Hl & Hn' & -> & ->).
    exists l1, l2. split_and!; [done|congruence|done..].
Qed.

(** ['; '.join(texts) if texts else 'NA'], on strings. *)
Definition joined_or_NA (texts : list string) : string :=
  match texts with
  | [] => "NA"
  | _ => join_strings "; " texts
  end.

Lemma join_or_NA_Ok (texts : list pyvalue) (v : pyvalue) :
  join_or_NA texts = Ok v ->
  exists strings, texts = PyStr <$> strings /\ v = PyStr (joined_or_NA strings).
Proof.
  destruct texts as [|t texts]; simpl.
  - intros H; injection H as <-. by exists [].
  - intros H. apply join_Ok in H as (strings & Hs & ->). exists strings. split; [done|].
    by destruct strings.
Qed.

Lemma legislative_subjects_count (subjects_data : pyvalue) (n : Z) (texts : list pyvalue) :
  legislative_subjects subjects_data = Ok (n, texts) -> n = Z.of_nat (length texts).
Proof.
  unfold legislative_subjects.
  destruct (contains_str "legislativeSubjects" subjects_data) as [[|]| |]; simpl; try done;
    [|intros H; by injection H as <- <-].
  destruct (getitem_str subjects_data "legislativeSubjects") as [subjects_list| |];
    simpl; [|done..].
  destruct (truthy subjects_list); [|intros H; by injection H as <- <-].
  destruct (len subjects_list) as [count| |] eqn:Hlen; simpl; [|done..].
  destruct (iter subjects_list) as [items| |] eqn:Hiter; simpl; [|done..].
  destruct (traverse _ items) as [names| |] eqn:Hnames; simpl; [|done..].
  intros H; injection H as <- <-. apply traverse_length in Hnames. rewrite Hnames.
  by eapply len_iter.
Qed.

Lemma policy_areas_count (subjects_data : pyvalue) (n : Z) (texts : list pyvalue) :
  policy_areas subjects_data = Ok (n, texts) -> n = Z.of_nat (length texts).
Proof.
  unfold policy_areas.
  destruct (contains_str "policyArea" subjects_data) as [[|]| |]; simpl; try done;
    [|intros H; by injection H as <- <-].
  destruct (getitem_str subjects_data "policyArea") as [policy_area| |]; simpl; [|done..].
  destruct policy_area as [| | | | | |items| | |entries];
    try (intros H; by injection H as <- <-).
  - destruct (traverse _ items) as [names| |]; simpl; [|done..].
    intros H; by injection H as <- <-.
  - simpl. destruct (truthy _); intros H; by injection H as <- <-.
Qed.

(** Whenever [get_subject_info] returns, each of its two counts is the
    number of texts joined in the column next to it, and that column is
    ['NA'] when there is none. *)
Theorem subject_counts_match_texts (v : pyvalue) (row : list pyvalue) :
  get_subject_info v = Ok row ->
  exists subject_texts policy_area_texts : list string,
    row = [PyInt (Z.of_nat (length subject_texts)); PyStr (joined_or_NA subject_texts);
           PyInt (Z.of_nat (length policy_area_texts));
           PyStr (joined_or_NA policy_area_texts)].
Proof.
  assert (forall r, r = [PyInt 0; PyStr "NA"; PyInt 0; PyStr "NA"] ->
            exists subject_texts policy_area_texts : list string,
              r = [PyInt (Z.of_nat (length subject_texts));
                   PyStr (joined_or_NA subject_texts);
                   PyInt (Z.of_nat (length policy_area_texts));
                   PyStr (joined_or_NA policy_area_texts)]) as Hdefault.
  { intros r ->. by exists [], []. }
  unfold get_subject_info. destruct v as [| | | |s| | | | |];
    try (intros H; injection H as <-; by apply Hdefault).
  unfold parse_or. destruct (literal_eval s) as [data|e|]; [|destruct e; try done..|done];
    try (intros H; injection H as <-; by apply Hdefault).
  destruct (contains_str "subjects" data) as [has| |]; simpl; [|done..].
  destruct (if has then _ else _) as [[[[sc st] pc] pt]| |] eqn:Hparts; simpl; [|done..].
  assert (sc = Z.of_nat (length st) /\ pc = Z.of_nat (length pt)) as [-> ->].
  { destruct has; [|by injection Hparts as <- <- <- <-].
    destruct (getitem_str data "subjects") as [subjects_data| |]; simpl in Hparts; [|done..].
    destruct (legislative_subjects subjects_data) as [[sc' st']| |] eqn:Hls;
      simpl in Hparts; [|done..].
    destruct (policy_areas subjects_data) as [[pc' pt']| |] eqn:Hpa;
      simpl in Hparts; [|done..].
    injection Hparts as <- <- <- <-.
    split; [by eapply legislative_subjects_count|by eapply policy_areas_count]. }
  destruct (join_or_NA st) as [stv| |] eqn:Hst; simpl; [|done..].
  destruct (join_or_NA pt) as [ptv| |] eqn:Hpt; simpl; [|done..].
  intros H; injection H as <-.
  apply join_or_NA_Ok in Hst as (ss & -> & ->). apply join_or_NA_Ok in Hpt as (ps & -> & ->).
  exists ss, ps. by rewrite !length_fmap.
Qed.

(** *** The fallbacks *)

(** The text does not parse: [literal_eval] raises one of the two
    exceptions the functions catch. *)
Definition unparsable (s : string) : Prop :=
  literal_eval s = Raise SyntaxError \/ literal_eval s = Raise ValueError.

Lemma parse_or_unparsable {A : Type} (s : string) (fallback : A)
    (rest : pyvalue -> result A) :
  unparsable s -> parse_or s fallback rest = Ok fallback.
Proof. unfold parse_or. by intros [-> | ->]. Qed.

(** C10: on a value that is not a string, and on a string for which
    [ast.literal_eval] raises [SyntaxError] or [ValueError], each of the four
    extraction functions returns its fixed default and does not raise. *)
Theorem extraction_fallbacks (v : pyvalue) :
  (forall s, v = PyStr s -> unparsable s) ->
  get_sponsor_info v = Ok [PyStr "NA"; PyStr "NA"; PyInt 0] /\
  get_summaries_count v = Ok (PyInt 0) /\
  get_subject_info v = Ok [PyInt 0; PyStr "NA"; PyInt 0; PyStr "NA"] /\
  get_latest_summary_text v = Ok (PyStr "NA").
Proof.
  intros Hv. destruct v as [| | | |s| | | | |]; try done.
  specialize (Hv s eq_refl).
  unfold get_sponsor_info, get_summaries_count, get_subject_info, get_latest_summary_text.
  by rewrite !parse_or_unparsable.
Qed.

End Functions.

(** *** Cells of a small table

    Stand-ins for the three library functions: a [literal_eval] that knows
    the texts of a table and finds a syntax error in any other, and a
    [sorted] for keys that are strings (stable, largest key first). *)

Definition literal_eval_of (table : list (string * pyvalue)) (s : string) : result pyvalue :=
  match list_find (fun entry => entry.1 = s) table with
  | Some (_, (_, data)) => Ok data
  | None => Raise SyntaxError
  end.

Fixpoint insert_by_key (x : string * pyvalue) (sorted : list (string * pyvalue))
    : list (string * pyvalue) :=
  match sorted with
  | [] => [x]
  | y :: sorted' =>
      if String.ltb x.1 y.1 then y :: insert_by_key x sorted' else x :: sorted
  end.

Definition sorted_by_str_key (key : pyvalue -> result pyvalue) (l : list pyvalue)
    : result (list pyvalue) :=
  let* keyed := traverse (fun x => let* k := key x in let* s := as_str k in Ok (s, x)) l in
  Ok (foldr insert_by_key [] keyed).*2.

Definition summaries_cell : string := "{'pagination': {'count': 2}, 'summaries': [...]}".

Definition summaries_data : pyvalue :=
  PyDict [(PyStr "pagination", PyDict [(PyStr "count", PyInt 2)]);
          (PyStr "summaries",
           PyList [PyDict [(PyStr "actionDate", PyStr "2021-01-04");
                           (PyStr "updateDate", PyStr "2021-02-01");
                           (PyStr "text", PyStr "introduced")];
                   PyDict [(PyStr "actionDate", PyStr "2021-03-10");
                           (PyStr "updateDate", PyStr "2021-03-12");
                           (PyStr "text", PyStr "passed house")]])].

Definition sponsors_cell : string := "{'bill': {'sponsors': [...]}}".

Definition sponsors_data : pyvalue :=
  PyDict [(PyStr "bill",
           PyDict [(PyStr "sponsors",
                    PyList [PyDict [(PyStr "bioguideId", PyStr "A000001");
                                    (PyStr "firstName", PyStr "Ada ");
                                    (PyStr "lastName", PyStr "Lovelace")];
                            PyDict [(PyStr "bioguideId", PyStr "B000002");
                                    (PyStr "lastName", PyStr "Babbage")]])])].

Definition table : list (string * pyvalue) :=
  [(summaries_cell, summaries_data); (sponsors_cell, sponsors_data)].

Definition no_repr (v : pyvalue) : string := "<object>".

Example summaries_count_of_cell :
  get_summaries_count (literal_eval_of table) (PyStr summaries_cell) = Ok (PyInt 2).
Proof. vm_compute. reflexivity. Qed.

Example latest_summary_of_cell :
  get_latest_summary_text (literal_eval_of table) sorted_by_str_key (PyStr summaries_cell) =
  Ok (PyStr "passed house").
Proof. vm_compute. reflexivity. Qed.

Example sponsor_info_of_cell :
  get_sponsor_info (literal_eval_of table) no_repr (PyStr sponsors_cell) =
  Ok [PyStr "A000001; B000002"; PyStr "Ada  Lovelace; Babbage"; PyInt 2].
Proof. vm_compute. reflexivity. Qed.

Example subject_info_without_subjects :
  get_subject_info (literal_eval_of table) (PyStr sponsors_cell) =
  Ok [PyInt 0; PyStr "NA"; PyInt 0; PyStr "NA"].
Proof. vm_compute. reflexivity. Qed.

(** A parsed value of the wrong shape is not covered by the fallbacks: the
    text [3] parses, and ['bill' in 3] raises. *)
Example number_cell_raises :
  get_sponsor_info (literal_eval_of [("3", PyInt 3)]) no_repr (PyStr "3") = Raise TypeError.
Proof. vm_compute. reflexivity. Qed.

(** An empty cell (NaN) and a truncated text both give the defaults. *)
Lemma extraction_fallbacks_witness :
  (get_sponsor_info (literal_eval_of table) no_repr (PyFloat FNaN) =
     Ok [PyStr "NA"; PyStr "NA"; PyInt 0] /\
   get_latest_summary_text (literal_eval_of table) sorted_by_str_key (PyFloat FNaN) =
     Ok (PyStr "NA")) /\
  (get_sponsor_info (literal_eval_of table) no_repr (PyStr "{'bill': {'spons") =
     Ok [PyStr "NA"; PyStr "NA"; PyInt 0] /\
   get_summaries_count (literal_eval_of table) (PyStr "{'bill': {'spons") = Ok (PyInt 0) /\
   get_subject_info (literal_eval_of table) (PyStr "{'bill': {'spons") =
     Ok [PyInt 0; PyStr "NA"; PyInt 0; PyStr "NA"] /\
   get_latest_summary_text (literal_eval_of table) sorted_by_str_key (PyStr "{'bill': {'spons") =
     Ok (PyStr "NA")).
Proof.
  split.
  - destruct (extraction_fallbacks (literal_eval_of table) no_repr sorted_by_str_key
                (PyFloat FNaN)) as (H1 & _ & _ & H4).
    + intros s Hs. discriminate Hs.
    + split; [exact H1|exact H4].
  - apply (extraction_fallbacks (literal_eval_of table) no_repr sorted_by_str_key
             (PyStr "{'bill': {'spons")).
    intros s Hs. injection Hs as <-. left. vm_compute. reflexivity.
Defined.

(** Two more cells: cosponsors, once one of them and once none, and the
    subjects of a bill. *)
Definition more_cells : list (string * pyvalue) :=
  [("{'cosponsors': [...]}",
    PyDict [(PyStr "cosponsors",
             PyList [PyDict [(PyStr "bioguideId", PyStr "C000003");
                             (PyStr "firstName", PyStr "Grace");
                             (PyStr "lastName", PyStr "Hopper")]])]);
   ("{'cosponsors': []}", PyDict [(PyStr "cosponsors", PyList [])]);
   ("{'subjects': {...}}",
    PyDict [(PyStr "subjects",
             PyDict [(PyStr "legislativeSubjects",
                      PyList [PyDict [(PyStr "name", PyStr "Taxation")];
                              PyDict [(PyStr "name", PyStr "Budget")]]);
                     (PyStr "policyArea", PyDict [(PyStr "name", PyStr "Economics")])])])].

Example cosponsor_info_of_cell :
  get_cosponsor_info (literal_eval_of more_cells) no_repr (PyStr "{'cosponsors': [...]}") =
  Ok [PyInt 1; PyStr "C000003"; PyStr "Grace Hopper"].
Proof. vm_compute. reflexivity. Qed.

(** No cosponsor: the count 0 with empty texts, where the default row has
    ['NA']. *)
Example no_cosponsor :
  get_cosponsor_info (literal_eval_of more_cells) no_repr (PyStr "{'cosponsors': []}") =
  Ok [PyInt 0; PyStr ""; PyStr ""].
Proof. vm_compute. reflexivity. Qed.

Example subject_info_of_cell :
  get_subject_info (literal_eval_of more_cells) (PyStr "{'subjects': {...}}") =
  Ok [PyInt 2; PyStr "Taxation; Budget"; PyInt 1; PyStr "Economics"].
Proof. vm_compute. reflexivity. Qed.

Lemma counts_match_witness :
  ([PyStr "A000001; B000002"; PyStr "Ada  Lovelace; Babbage"; PyInt 2] =
     [PyStr "NA"; PyStr "NA"; PyInt 0] \/
   exists ids names count,
     [PyStr "A000001; B000002"; PyStr "Ada  Lovelace; Babbage"; PyInt 2] = [ids; names; count] /\
     counted_row count ids names) /\
  ([PyInt 0; PyStr ""; PyStr ""] = [PyInt 0; PyStr "NA"; PyStr "NA"] \/
   exists count ids names,
     [PyInt 0; PyStr ""; PyStr ""] = [count; ids; names] /\ counted_row count ids names).
Proof.
  split.
  - apply (counts_match_joined_names (literal_eval_of table) no_repr (PyStr sponsors_cell)).
    exact sponsor_info_of_cell.
  - apply (counts_match_joined_names (literal_eval_of more_cells) no_repr
             (PyStr "{'cosponsors': []}")).
    exact no_cosponsor.
Defined.

Lemma subject_counts_witness :
  exists subject_texts policy_area_texts : list string,
    [PyInt 2; PyStr "Taxation; Budget"; PyInt 1; PyStr "Economics"] =
    [PyInt (Z.of_nat (length subject_texts)); PyStr (joined_or_NA subject_texts);
     PyInt (Z.of_nat (length policy_area_texts)); PyStr (joined_or_NA policy_area_texts)].
Proof.
  exact (subject_counts_match_texts (literal_eval_of more_cells) _ _ subject_info_of_cell).
Defined.

(** *** The latest summary

    With the stand-in for [sorted] on string keys: the order of Python's
    strings, for the dates of the API, is the lexicographic order of
    [String.compare]. *)

Lemma ascii_compare_refl (a : Ascii.ascii) : Ascii.compare a a = Eq.
Proof. unfold Ascii.compare. apply N.compare_refl. Qed.

Lemma ascii_compare_trans (a b c : Ascii.ascii) :
  Ascii.compare a b = Lt -> Ascii.compare b c = Lt -> Ascii.compare a c = Lt.
Proof. unfold Ascii.compare. rewrite !N.compare_lt_iff. lia. Qed.

Lemma string_compare_refl (s : string) : String.compare s s = Eq.
Proof. induction s as [|a s IH]; simpl; [done|]. by rewrite ascii_compare_refl. Qed.

Lemma string_compare_trans (s1 : string) :
  forall s2 s3 : string,
  String.compare s1 s2 = Lt -> String.compare s2 s3 = Lt -> String.compare s1 s3 = Lt.
Proof.
  induction s1 as [|a s1 IH]; intros [|b s2] [|c s3]; simpl; try done.
  destruct (Ascii.compare a b) eqn:Hab; [| |done];
    destruct (Ascii.compare b c) eqn:Hbc; try done.
  - apply Ascii.compare_eq_iff in Hab, Hbc. subst. rewrite ascii_compare_refl. apply IH.
  - apply Ascii.compare_eq_iff in Hab. subst. by rewrite Hbc.
  - apply Ascii.compare_eq_iff in Hbc. subst. by rewrite Hab.
  - by rewrite (ascii_compare_trans a b c).
Qed.

Lemma ltb_irrefl (s : string) : String.ltb s s = false.
Proof. unfold String.ltb. by rewrite string_compare_refl. Qed.

Lemma ltb_asym (s1 s2 : string) : String.ltb s1 s2 = true -> String.ltb s2 s1 = false.
Proof.
  unfold String.ltb. rewrite (String.compare_antisym s2 s1).
  by destruct (String.compare s1 s2).
Qed.

(** [s1 >= s2 >= s3] *)
Lemma ltb_false_trans (s1 s2 s3 : string) :
  String.ltb s1 s2 = false -> String.ltb s2 s3 = false -> String.ltb s1 s3 = false.
Proof.
  unfold String.ltb. intros H12 H23.
  destruct (String.compare s1 s3) eqn:H13; try done. exfalso.
  destruct (String.compare s1 s2) eqn:E12; [| done |].
  - apply String.compare_eq_iff in E12. subst. by rewrite H13 in H23.
  - assert (String.compare s2 s1 = Lt) as E21.
    { rewrite String.compare_antisym, E12. done. }
    by rewrite (string_compare_trans s2 s1 s3 E21 H13) in H23.
Qed.

(** The head of the sorted list: the first of the items with the greatest
    key. *)
Lemma greatest_first (keyed : list (string * pyvalue)) :
  keyed <> [] ->
  exists i k x,
    keyed !! i = Some (k, x) /\
    head (foldr insert_by_key [] keyed) = Some (k, x) /\
    forall j k' x',
      keyed !! j = Some (k', x') ->
      String.ltb k k' = false /\ ((j < i)%nat -> String.ltb k' k = true).
Proof.
  induction keyed as [|[k0 x0] tail IH]; intros Hne; [done|].
  destruct tail as [|entry tail'].
  - exists 0%nat, k0, x0. split_and!; [done..|].
    intros [|j] k' x' Hj; [|done]. injection Hj as <- <-.
    split; [apply ltb_irrefl|lia].
  - destruct (IH ltac:(done)) as (i & k & x & Hi & Hhead & Hmax).
    set (tail := entry :: tail') in *. cbn [foldr].
    destruct (foldr insert_by_key [] tail) as [|[k1 x1] sorted]; [done|].
    injection Hhead as -> ->. cbn [insert_by_key fst].
    destruct (String.ltb k0 k) eqn:Hlt.
    + exists (S i), k, x. split_and!; [done..|].
      intros [|j] k' x' Hj.
      * injection Hj as <- <-. split; [by apply ltb_asym|done].
      * destruct (Hmax j k' x' Hj) as [Hge Hbefore]. split; [done|].
        intros Hji. apply Hbefore. lia.
    + exists 0%nat, k0, x0. split_and!; [done..|].
      intros [|j] k' x' Hj.
      * injection Hj as <- <-. split; [apply ltb_irrefl|lia].
      * destruct (Hmax j k' x' Hj) as [Hge _]. split; [|lia].
        by apply (ltb_false_trans k0 k k').
Qed.

Lemma traverse_lookup {A B : Type} (f : A -> result B) (l : list A) (l' : list B) :
  traverse f l = Ok l' ->
  forall i, match l !! i, l' !! i with
            | Some a, Some b => f a = Ok b
            | None, None => True
            | _, _ => False
            end.
Proof.
  revert l'. induction l as [|a l IH]; intros l' H i; simpl in H.
  - injection H as <-. by destruct i.
  - destruct (f a) as [b| |] eqn:Hb; [|done..]. simpl in H.
    destruct (traverse f l) as [bs| |]; [|done..]. simpl in H.
    injection H as <-. destruct i as [|i]; [done|]. simpl. exact (IH bs eq_refl i).
Qed.

Lemma sorted_by_str_key_greatest (key : pyvalue -> result pyvalue) (l : list pyvalue)
    (first : pyvalue) (rest : list pyvalue) :
  sorted_by_str_key key l = Ok (first :: rest) ->
  exists i k,
    l !! i = Some first /\ key first = Ok (PyStr k) /\
    forall j x,
      l !! j = Some x ->
      exists k', key x = Ok (PyStr k') /\
        String.ltb k k' = false /\ ((j < i)%nat -> String.ltb k' k = true).
Proof.
  unfold sorted_by_str_key.
  destruct (traverse _ l) as [keyed| |] eqn:Hkeyed; [|done..]. simpl. intros Hsorted.
  injection Hsorted as Hsorted.
  pose proof (traverse_lookup _ _ _ Hkeyed) as Hlookup.
  assert (forall i k x, keyed !! i = Some (k, x) -> l !! i = Some x /\ key x = Ok (PyStr k))
    as Hkey.
  { intros i k x Hi. specialize (Hlookup i). rewrite Hi in Hlookup.
    destruct (l !! i) as [a|]; [|done].
    destruct (key a) as [v| |] eqn:Hka; [|done..]. simpl in Hlookup.
    destruct v; try done. simpl in Hlookup. injection Hlookup as <- <-. by split. }
  assert (keyed <> []) as Hne.
  { intros ->. done. }
  destruct (greatest_first keyed Hne) as (i & k & x & Hi & Hhead & Hmax).
  destruct (foldr insert_by_key [] keyed) as [|[k1 x1] sorted]; [done|].
  injection Hhead as -> ->. simpl in Hsorted. injection Hsorted as <- _.
  destruct (Hkey i k x Hi) as [Hx Hk]. exists i, k. split_and!; [done..|].
  intros j y Hj. specialize (Hlookup j). rewrite Hj in Hlookup.
  destruct (keyed !! j) as [[k' y']|] eqn:Hkj; [|done].
  destruct (Hkey j k' y' Hkj) as [Hy Hk']. rewrite Hj in Hy. injection Hy as <-.
  exists k'. split; [done|]. by apply (Hmax j k' y).
Qed.

(** On a cell whose [summaries] is a non-empty list, what
    [get_latest_summary_text] returns is the text of the summary with the
    greatest date -- its [updateDate], or its [actionDate] when that is
    missing or empty -- and, among summaries of that date, of the first in
    the list; ['NA'] when that summary has no text. *)
Theorem latest_summary_has_greatest_date (literal_eval : string -> result pyvalue)
    (s : string) (entries : list (pyvalue * pyvalue)) (items : list pyvalue)
    (text : pyvalue) :
  literal_eval s = Ok (PyDict entries) ->
  assoc_str "summaries" entries = Some (PyList items) ->
  items <> [] ->
  get_latest_summary_text literal_eval sorted_by_str_key (PyStr s) = Ok text ->
  exists i latest date,
    items !! i = Some latest /\
    get_date latest = Ok (PyStr date) /\
    get_str latest "text" (PyStr "NA") = Ok text /\
    forall j summary,
      items !! j = Some summary ->
      exists date',
        get_date summary = Ok (PyStr date') /\
        String.ltb date date' = false /\
        ((j < i)%nat -> String.ltb date' date = true).
Proof.
  intros Hparse Hsummaries Hne. unfold get_latest_summary_text, parse_or.
  rewrite Hparse. cbn [contains_str bind].
  assert (existsb (eq_str "summaries") entries.*1 = true) as ->.
  { clear Hparse. induction entries as [|[k v] entries IH]; [done|].
    simpl in *. destruct (eq_str "summaries" k); [done|]. by apply IH. }
  cbn [getitem_str]. rewrite Hsummaries. cbn [bind].
  assert (truthy (PyList items) = true) as ->.
  { by destruct items. }
  cbn [negb].
  destruct (sorted_by_str_key get_date items) as [[|latest rest]| |] eqn:Hsorted;
    cbn [bind]; [done| |done..].
  intros Htext.
  destruct (sorted_by_str_key_greatest _ _ _ _ Hsorted) as (i & date & Hi & Hdate & Hmax).
  by exists i, latest, date.
Qed.

Lemma latest_summary_witness :
  exists i latest date,
    [PyDict [(PyStr "actionDate", PyStr "2021-01-04");
             (PyStr "updateDate", PyStr "2021-02-01");
             (PyStr "text", PyStr "introduced")];
     PyDict [(PyStr "actionDate", PyStr "2021-03-10");
             (PyStr "updateDate", PyStr "2021-03-12");
             (PyStr "text", PyStr "passed house")]] !! i = Some latest /\
    get_date latest = Ok (PyStr date) /\
    get_str latest "text" (PyStr "NA") = Ok (PyStr "passed house") /\
    forall j summary,
      [PyDict [(PyStr "actionDate", PyStr "2021-01-04");
               (PyStr "updateDate", PyStr "2021-02-01");
               (PyStr "text", PyStr "introduced")];
       PyDict [(PyStr "actionDate", PyStr "2021-03-10");
               (PyStr "updateDate", PyStr "2021-03-12");
               (PyStr "text", PyStr "passed house")]] !! j = Some summary ->
      exists date',
        get_date summary = Ok (PyStr date') /\
        String.ltb date date' = false /\
        ((j < i)%nat -> String.ltb date' date = true).
Proof.
  eapply (latest_summary_has_greatest_date (literal_eval_of table) summaries_cell).
  - reflexivity.
  - reflexivity.
  - discriminate.
  - exact latest_summary_of_cell.
Defined.

End Extract.

(** ** Dates ([datetime], [timedelta])

    A naive [datetime] is a point on the proleptic Gregorian time line with
    microsecond resolution; it is represented by its distance to
    0001-01-01 00:00:00 in microseconds.  The calendar fields are computed
    with the algorithms of CPython's [datetime] module, and the range
    errors of the library are kept. *)

Module Calendar.

Local Open Scope Z_scope.

Definition MAXYEAR : Z := 9999.

(** [_is_leap(year)] *)
Definition is_leap (year : Z) : bool :=
  (year mod 4 =? 0) && (negb (year mod 100 =? 0) || (year mod 400 =? 0)).

(** [_days_before_year(year)]: the days before January 1st of [year]. *)
Definition days_before_year (year : Z) : Z :=
  let y := year - 1 in
  y * 365 + y / 4 - y / 100 + y / 400.

(** The tables [_DAYS_IN_MONTH] and [_DAYS_BEFORE_MONTH] (index 0 holds -1). *)
Definition DAYS_IN_MONTH (month : Z) : Z :=
  match month with
  | 1 => 31 | 2 => 28 | 3 => 31 | 4 => 30 | 5 => 31 | 6 => 30
  | 7 => 31 | 8 => 31 | 9 => 30 | 10 => 31 | 11 => 30 | 12 => 31
  | _ => -1
  end.

Definition DAYS_BEFORE_MONTH (month : Z) : Z :=
  match month with
  | 1 => 0 | 2 => 31 | 3 => 59 | 4 => 90 | 5 => 120 | 6 => 151
  | 7 => 181 | 8 => 212 | 9 => 243 | 10 => 273 | 11 => 304 | 12 => 334
  | _ => -1
  end.

Definition b2z (b : bool) : Z := if b then 1 else 0.

(** [_days_in_month(year, month)] *)
Definition days_in_month (year month : Z) : Z :=
  if (month =? 2) && is_leap year then 29 else DAYS_IN_MONTH month.

(** [_days_before_month(year, month)] *)
Definition days_before_month (year month : Z) : Z :=
  DAYS_BEFORE_MONTH month + b2z ((2 <? month) && is_leap year).

(** [_ymd2ord(year, month, day)]: the ordinal of a date, 0001-01-01 being
    day 1. *)
Definition ymd2ord (year month day : Z) : Z :=
  days_before_year year + days_before_month year month + day.

Definition DI400Y : Z := 146097.
Definition DI100Y : Z := 36524.
Definition DI4Y : Z := 1461.

(** The end of [_ord2ymd]: the month and the day of the [n]-th day (from 0)
    of a year. *)
Definition month_and_day (leapyear : bool) (n : Z) : Z * Z :=
  let month := Z.shiftr (n + 50) 5 in
  let preceding := DAYS_BEFORE_MONTH month + b2z ((2 <? month) && leapyear) in
  if n <? preceding then
    let month := month - 1 in
    let preceding := preceding - (DAYS_IN_MONTH month + b2z ((month =? 2) && leapyear)) in
    (month, n - preceding + 1)
  else (month, n - preceding + 1).

(** [_ord2ymd(n)]: year, month and day of an ordinal. *)
Definition ord2ymd (n : Z) : Z * Z * Z :=
  let n := n - 1 in
  let n400 := n / DI400Y in
  let n := n mod DI400Y in
  let year := n400 * 400 + 1 in
  let n100 := n / DI100Y in
  let n := n mod DI100Y in
  let n4 := n / DI4Y in
  let n := n mod DI4Y in
  let n1 := n / 365 in
  let n := n mod 365 in
  let year := year + n100 * 100 + n4 * 4 + n1 in
  if (n1 =? 4) || (n100 =? 4) then (year - 1, 12, 31)
  else
    let leapyear := (n1 =? 3) && (negb (n4 =? 24) || (n100 =? 3)) in
    let '(month, day) := month_and_day leapyear n in
    (year, month, day).

Definition MAXORDINAL : Z := 3652059.

(** *** [datetime] *)

Definition datetime : Type := Z.

Definition US_PER_DAY : Z := 86400000000.

Definition toordinal (t : datetime) : Z := t / US_PER_DAY + 1.

Definition time_of_day (t : datetime) : Z := t mod US_PER_DAY.

Definition year (t : datetime) : Z := (ord2ymd (toordinal t)).1.1.

Definition month (t : datetime) : Z := (ord2ymd (toordinal t)).1.2.

Definition day (t : datetime) : Z := (ord2ymd (toordinal t)).2.

(** The values a [datetime] can take: 0001-01-01 00:00:00 up to
    9999-12-31 23:59:59.999999. *)
Definition in_range (t : datetime) : Prop := 0 <= t < MAXORDINAL * US_PER_DAY.

(** [datetime(year, month, day, hour, minute)] *)
Definition datetime_of (year month day hour minute : Z) : datetime :=
  (ymd2ord year month day - 1) * US_PER_DAY + (hour * 60 + minute) * 60000000.

(** [t.replace(year=y, month=m, day=d)]: the date is replaced, the time of
    day kept; [ValueError] when the fields are no date. *)
Definition replace (t : datetime) (y m d : Z) : result datetime :=
  if (1 <=? y) && (y <=? MAXYEAR) && (1 <=? m) && (m <=? 12) &&
     (1 <=? d) && (d <=? days_in_month y m)
  then Ok ((ymd2ord y m d - 1) * US_PER_DAY + time_of_day t)
  else Raise ValueError.

(** [t + delta], [delta] in microseconds; [OverflowError] when the result is
    no [datetime]. *)
Definition add_timedelta (t : datetime) (delta : Z) : result datetime :=
  let t' := t + delta in
  if (0 <? toordinal t') && (toordinal t' <=? MAXORDINAL) then Ok t'
  else Raise OverflowError.

Definition weeks (n : Z) : Z := n * 7 * US_PER_DAY.
Definition days (n : Z) : Z := n * US_PER_DAY.
Definition hours (n : Z) : Z := n * 3600000000.
Definition minutes (n : Z) : Z := n * 60000000.

(** *** The calendar algorithms agree *)

Ltac zdiv := Z.div_mod_to_equations; lia.

Lemma is_leap_true (y : Z) :
  is_leap y = true <-> y mod 4 = 0 /\ (y mod 100 <> 0 \/ y mod 400 = 0).
Proof.
  unfold is_leap.
  destruct (Z.eqb_spec (y mod 4) 0), (Z.eqb_spec (y mod 100) 0), (Z.eqb_spec (y mod 400) 0);
    simpl; intuition congruence.
Qed.

Lemma days_before_year_succ (y : Z) :
  days_before_year (y + 1) = days_before_year y + 365 + b2z (is_leap y).
Proof.
  unfold days_before_year. replace (y + 1 - 1) with y by lia.
  destruct (is_leap y) eqn:E.
  - apply is_leap_true in E. simpl. zdiv.
  - assert (~ (y mod 4 = 0 /\ (y mod 100 <> 0 \/ y mod 400 = 0))) as H
      by (rewrite <- is_leap_true; congruence).
    simpl. zdiv.
Qed.

Lemma days_before_year_cycle (n400 n100 n4 n1 : Z) :
  0 <= n100 <= 3 -> 0 <= n4 <= 24 -> 0 <= n1 <= 3 ->
  days_before_year (400 * n400 + 100 * n100 + 4 * n4 + n1 + 1) =
  146097 * n400 + 36524 * n100 + 1461 * n4 + 365 * n1.
Proof.
  intros. unfold days_before_year. zdiv.
Qed.

Lemma is_leap_cycle (n400 n100 n4 n1 : Z) :
  0 <= n100 <= 3 -> 0 <= n4 <= 24 -> 0 <= n1 <= 3 ->
  is_leap (400 * n400 + 100 * n100 + 4 * n4 + n1 + 1) =
  (n1 =? 3) && (negb (n4 =? 24) || (n100 =? 3)).
Proof.
  intros B100 B4 B1.
  destruct (is_leap _) eqn:E.
  - apply is_leap_true in E. symmetry.
    destruct (Z.eqb_spec n1 3), (Z.eqb_spec n4 24), (Z.eqb_spec n100 3); simpl; try reflexivity; exfalso; zdiv.
  - assert (~ ((400 * n400 + 100 * n100 + 4 * n4 + n1 + 1) mod 4 = 0 /\ ((400 * n400 + 100 * n100 + 4 * n4 + n1 + 1) mod 100 <> 0 \/ (400 * n400 + 100 * n100 + 4 * n4 + n1 + 1) mod 400 = 0))) as H
      by (rewrite <- is_leap_true; congruence).
    symmetry.
    destruct (Z.eqb_spec n1 3), (Z.eqb_spec n4 24), (Z.eqb_spec n100 3); simpl; try reflexivity; exfalso; apply H; zdiv.
Qed.

(** [month_and_day] is checked day by day over a year of either kind. *)
Definition month_and_day_ok (leapyear : bool) (n : Z) : bool :=
  let '(m, d) := month_and_day leapyear n in
  (1 <=? m) && (m <=? 12) && (1 <=? d) &&
  (d <=? DAYS_IN_MONTH m + b2z ((m =? 2) && leapyear)) &&
  (DAYS_BEFORE_MONTH m + b2z ((2 <? m) && leapyear) + d =? n + 1).

Lemma forallb_range (P : Z -> bool) (len : nat) :
  forallb (fun i : nat => P (Z.of_nat i)) (seq 0 len) = true ->
  forall n, 0 <= n < Z.of_nat len -> P n = true.
Proof.
  intros H n Hn. rewrite forallb_forall in H.
  specialize (H (Z.to_nat n)). rewrite Z2Nat.id in H by lia.
  apply H. apply in_seq. lia.
Qed.

Lemma month_and_day_spec (leapyear : bool) (n : Z) :
  0 <= n < 365 + b2z leapyear ->
  month_and_day_ok leapyear n = true.
Proof.
  intros Hn. destruct leapyear; simpl in Hn.
  - apply (forallb_range (month_and_day_ok true) 366); [vm_compute; reflexivity|lia].
  - apply (forallb_range (month_and_day_ok false) 365); [vm_compute; reflexivity|lia].
Qed.

Definition valid_date (y m d : Z) : Prop :=
  1 <= y /\ 1 <= m <= 12 /\ 1 <= d <= days_in_month y m.

Lemma ord2ymd_spec (n : Z) :
  1 <= n ->
  let '(y, m, d) := ord2ymd n in
  valid_date y m d /\ ymd2ord y m d = n.
Proof.
  intros Hn. unfold ord2ymd.
  pose proof (Z.div_mod (n - 1) DI400Y ltac:(done)) as E400.
  pose proof (Z.mod_pos_bound (n - 1) DI400Y ltac:(done)) as B400.
  set (n400 := (n - 1) / DI400Y) in *. set (r400 := (n - 1) mod DI400Y) in *.
  pose proof (Z.div_mod r400 DI100Y ltac:(done)) as E100.
  pose proof (Z.mod_pos_bound r400 DI100Y ltac:(done)) as B100.
  set (n100 := r400 / DI100Y) in *. set (r100 := r400 mod DI100Y) in *.
  pose proof (Z.div_mod r100 DI4Y ltac:(done)) as E4.
  pose proof (Z.mod_pos_bound r100 DI4Y ltac:(done)) as B4.
  set (n4 := r100 / DI4Y) in *. set (r4 := r100 mod DI4Y) in *.
  pose proof (Z.div_mod r4 365 ltac:(done)) as E1.
  pose proof (Z.mod_pos_bound r4 365 ltac:(done)) as B1.
  set (n1 := r4 / 365) in *. set (r1 := r4 mod 365) in *.
  unfold DI400Y, DI100Y, DI4Y in *.
  assert (0 <= n400) as H400 by (subst n400; apply Z.div_pos; lia).
  assert (0 <= n100 <= 4) as H100 by lia.
  assert (0 <= n4 <= 24) as H4 by lia.
  assert (0 <= n1 <= 4) as H1 by lia.
  clearbody n400 r400 n100 r100 n4 r4 n1 r1.
  destruct (Z.eqb_spec n1 4) as [->|Hn1]; simpl orb.
  - (* last day of a leap year *)
    assert (n4 <= 23 \/ n100 = 4) as Hcase by lia.
    replace (n400 * 400 + 1 + n100 * 100 + n4 * 4 + 4 - 1)
      with (400 * n400 + 100 * n100 + 4 * n4 + 3 + 1) by lia.
    assert (n100 <= 3) by lia.
    split.
    + unfold valid_date, days_in_month. simpl. lia.
    + unfold ymd2ord, days_before_month.
      rewrite days_before_year_cycle, is_leap_cycle by lia.
      simpl DAYS_BEFORE_MONTH. simpl (2 <? 12).
      replace (3 =? 3) with true by reflexivity.
      destruct (Z.eqb_spec n4 24); [lia|]. simpl. lia.
  - destruct (Z.eqb_spec n100 4) as [->|Hn100]; simpl.
    + assert (n4 = 0 /\ n1 = 0 /\ r1 = 0) as (-> & -> & ->) by lia.
      replace (n400 * 400 + 1 + 4 * 100 + 0 * 4 + 0 - 1)
        with (400 * n400 + 100 * 3 + 4 * 24 + 3 + 1) by lia.
      split.
      * unfold valid_date, days_in_month. simpl. lia.
      * unfold ymd2ord, days_before_month.
        rewrite days_before_year_cycle, is_leap_cycle by lia.
        simpl. lia.
    + replace (n400 * 400 + 1 + n100 * 100 + n4 * 4 + n1)
        with (400 * n400 + 100 * n100 + 4 * n4 + n1 + 1) by lia.
      set (leapyear := (n1 =? 3) && (negb (n4 =? 24) || (n100 =? 3))).
      pose proof (month_and_day_spec leapyear r1) as Hmd.
      assert (0 <= r1 < 365 + b2z leapyear) as Hr by (destruct leapyear; simpl; lia).
      specialize (Hmd Hr). unfold month_and_day_ok in Hmd.
      destruct (month_and_day leapyear r1) as [m d].
      assert (is_leap (400 * n400 + 100 * n100 + 4 * n4 + n1 + 1) = leapyear) as Hleap
        by (apply is_leap_cycle; lia).
      split.
      * unfold valid_date, days_in_month. rewrite Hleap.
        destruct ((m =? 2) && leapyear) eqn:Em.
        -- apply andb_true_iff in Em as [Em _]. apply Z.eqb_eq in Em. subst m. simpl in *. lia.
        -- simpl in Hmd. lia.
      * unfold ymd2ord, days_before_month. rewrite Hleap.
        rewrite days_before_year_cycle by lia. lia.
Qed.

Lemma days_before_year_mono (y y' : Z) :
  y <= y' -> days_before_year y <= days_before_year y'.
Proof. intros H. unfold days_before_year. zdiv. Qed.

Lemma month_cases (m : Z) :
  1 <= m <= 12 ->
  m = 1 \/ m = 2 \/ m = 3 \/ m = 4 \/ m = 5 \/ m = 6 \/
  m = 7 \/ m = 8 \/ m = 9 \/ m = 10 \/ m = 11 \/ m = 12.
Proof. lia. Qed.

Lemma days_before_month_succ (y m : Z) :
  1 <= m <= 11 ->
  days_before_month y (m + 1) = days_before_month y m + days_in_month y m.
Proof.
  intros Hm. unfold days_before_month, days_in_month.
  assert (1 <= m <= 12) as Hm' by lia.
  destruct (month_cases m Hm') as [->|[->|[->|[->|[->|[->|[->|[->|[->|[->|[->| ->]]]]]]]]]]];
    try lia; destruct (is_leap y); reflexivity.
Qed.

Lemma days_before_month_december (y : Z) :
  days_before_month y 12 + days_in_month y 12 = 365 + b2z (is_leap y).
Proof. unfold days_before_month, days_in_month. destruct (is_leap y); reflexivity. Qed.

Lemma days_in_month_bounds (y m : Z) :
  1 <= m <= 12 -> 28 <= days_in_month y m <= 31.
Proof.
  intros Hm. unfold days_in_month.
  destruct (month_cases m Hm) as [->|[->|[->|[->|[->|[->|[->|[->|[->|[->|[->| ->]]]]]]]]]]];
    destruct (is_leap y); simpl; lia.
Qed.

Lemma days_before_month_bounds (y m : Z) :
  1 <= m <= 12 -> 0 <= days_before_month y m /\ days_before_month y m + days_in_month y m <= 365 + b2z (is_leap y).
Proof.
  intros Hm. unfold days_before_month, days_in_month.
  destruct (month_cases m Hm) as [->|[->|[->|[->|[->|[->|[->|[->|[->|[->|[->| ->]]]]]]]]]]];
    destruct (is_leap y); simpl; lia.
Qed.

(** The ordinal of a date lies within its year. *)
Lemma ymd2ord_in_year (y m d : Z) :
  valid_date y m d ->
  days_before_year y < ymd2ord y m d <= days_before_year (y + 1).
Proof.
  intros (Hy & Hm & Hd). unfold ymd2ord. rewrite days_before_year_succ.
  pose proof (days_before_month_bounds y m Hm). lia.
Qed.

Lemma valid_date_year_le (y m d : Z) :
  valid_date y m d -> ymd2ord y m d <= MAXORDINAL -> y <= MAXYEAR.
Proof.
  intros Hv Hn. destruct (Z_le_gt_dec y MAXYEAR) as [|Hgt]; [done|].
  pose proof (ymd2ord_in_year y m d Hv) as [Hlo _].
  pose proof (days_before_year_mono (MAXYEAR + 1) y ltac:(lia)) as Hmono.
  change (days_before_year (MAXYEAR + 1)) with MAXORDINAL in Hmono. lia.
Qed.

Lemma ymd2ord_le_max (y m d : Z) :
  valid_date y m d -> y <= MAXYEAR -> 1 <= ymd2ord y m d <= MAXORDINAL.
Proof.
  intros Hv Hy. pose proof (ymd2ord_in_year y m d Hv) as [Hlo Hhi].
  pose proof (days_before_year_mono (y + 1) (MAXYEAR + 1) ltac:(lia)) as Hmono.
  change (days_before_year (MAXYEAR + 1)) with MAXORDINAL in Hmono.
  pose proof (days_before_year_mono 1 y ltac:(destruct Hv; lia)) as Hmono1.
  change (days_before_year 1) with 0 in Hmono1. lia.
Qed.

(** *** Facts about [datetime] *)

Lemma datetime_split (t : datetime) :
  t = (toordinal t - 1) * US_PER_DAY + time_of_day t /\ 0 <= time_of_day t < US_PER_DAY.
Proof. unfold toordinal, time_of_day, US_PER_DAY. zdiv. Qed.

Lemma toordinal_pos (t : datetime) : 0 <= t -> 1 <= toordinal t.
Proof. unfold toordinal, US_PER_DAY. intros. zdiv. Qed.

Lemma toordinal_le_max (t : datetime) : in_range t -> 1 <= toordinal t <= MAXORDINAL.
Proof. unfold in_range, toordinal, US_PER_DAY, MAXORDINAL. intros. zdiv. Qed.

(** The calendar fields of a [datetime] form a date, whose ordinal is the
    day of the [datetime]. *)
Lemma fields_spec (t : datetime) :
  0 <= t ->
  valid_date (year t) (month t) (day t) /\
  ymd2ord (year t) (month t) (day t) = toordinal t.
Proof.
  intros Ht. pose proof (ord2ymd_spec (toordinal t) (toordinal_pos t Ht)) as H.
  unfold year, month, day. by destruct (ord2ymd (toordinal t)) as [[y m] d].
Qed.

Lemma year_le_max (t : datetime) : in_range t -> 1 <= year t <= MAXYEAR.
Proof.
  intros Ht. destruct (fields_spec t ltac:(destruct Ht; lia)) as [Hv Hn].
  split; [by destruct Hv|].
  apply (valid_date_year_le _ _ _ Hv). rewrite Hn. by apply toordinal_le_max.
Qed.

(** A date replaced by a valid one. *)
Lemma replace_Ok (t : datetime) (y m d : Z) :
  valid_date y m d -> y <= MAXYEAR ->
  replace t y m d = Ok ((ymd2ord y m d - 1) * US_PER_DAY + time_of_day t).
Proof.
  intros (Hy & Hm & Hd) Hmax. unfold replace.
  assert ((1 <=? y) && (y <=? MAXYEAR) && (1 <=? m) && (m <=? 12) && (1 <=? d) &&
          (d <=? days_in_month y m) = true) as ->; [|done].
  repeat (apply andb_true_iff; split); lia.
Qed.

Lemma replace_inv (t t' : datetime) (y m d : Z) :
  replace t y m d = Ok t' ->
  valid_date y m d /\ y <= MAXYEAR /\ t' = (ymd2ord y m d - 1) * US_PER_DAY + time_of_day t.
Proof.
  unfold replace. destruct (_ && _) eqn:E; [|done]. intros H; inversion H; subst.
  repeat (apply andb_true_iff in E as [E ?]). unfold valid_date. lia.
Qed.

(** *** A date is determined by its ordinal *)

Lemma days_before_month_mono (y m m' : Z) :
  1 <= m <= 12 -> 1 <= m' <= 12 -> m < m' ->
  days_before_month y m + days_in_month y m <= days_before_month y m'.
Proof.
  intros Hm Hm' Hlt. unfold days_before_month, days_in_month.
  destruct (month_cases m Hm) as [->|[->|[->|[->|[->|[->|[->|[->|[->|[->|[->| ->]]]]]]]]]]];
    destruct (month_cases m' Hm') as [->|[->|[->|[->|[->|[->|[->|[->|[->|[->|[->| ->]]]]]]]]]]];
    try lia; destruct (is_leap y); simpl; lia.
Qed.

Lemma ymd2ord_inj (y m d y' m' d' : Z) :
  valid_date y m d -> valid_date y' m' d' ->
  ymd2ord y m d = ymd2ord y' m' d' -> y = y' /\ m = m' /\ d = d'.
Proof.
  intros Hv Hv' Heq.
  pose proof (ymd2ord_in_year _ _ _ Hv) as [Hlo Hhi].
  pose proof (ymd2ord_in_year _ _ _ Hv') as [Hlo' Hhi'].
  assert (y = y') as <-.
  { destruct (Z.lt_trichotomy y y') as [Hlt|[Heqy|Hgt]]; [|done|].
    - pose proof (days_before_year_mono (y + 1) y' ltac:(lia)). lia.
    - pose proof (days_before_year_mono (y' + 1) y ltac:(lia)). lia. }
  destruct Hv as (_ & Hm & Hd), Hv' as (_ & Hm' & Hd').
  unfold ymd2ord in Heq.
  assert (m = m') as <-.
  { destruct (Z.lt_trichotomy m m') as [Hlt|[Heqm|Hgt]]; [|done|].
    - pose proof (days_before_month_mono y m m' Hm Hm' Hlt). lia.
    - pose proof (days_before_month_mono y m' m Hm' Hm ltac:(lia)). lia. }
  split_and!; [done..|lia].
Qed.

(** The fields of the [datetime] made of a date and a time of day are that
    date and that time. *)
Lemma fields_of_date (y m d tod : Z) :
  valid_date y m d -> 0 <= tod < US_PER_DAY ->
  let t := (ymd2ord y m d - 1) * US_PER_DAY + tod in
  year t = y /\ month t = m /\ day t = d /\ time_of_day t = tod /\ 0 <= t.
Proof.
  intros Hv Htod t.
  pose proof (ymd2ord_in_year _ _ _ Hv) as [Hlo _].
  pose proof (days_before_year_mono 1 y ltac:(destruct Hv; lia)) as Hmono.
  change (days_before_year 1) with 0 in Hmono.
  assert (0 <= t) as Ht by (unfold t, US_PER_DAY in *; nia).
  assert (toordinal t = ymd2ord y m d) as Hord.
  { unfold toordinal, t. rewrite Z.div_add_l by done.
    rewrite Z.div_small by done. lia. }
  assert (time_of_day t = tod) as Htime.
  { unfold time_of_day, t. rewrite Z.add_comm, Z.mod_add by done.
    by apply Z.mod_small. }
  destruct (fields_spec t Ht) as [Hvt Hnt]. rewrite Hord in Hnt.
  destruct (ymd2ord_inj _ _ _ _ _ _ Hvt Hv Hnt) as (? & ? & ?).
  split_and!; done.
Qed.

End Calendar.

(** ** The adaptive range partitioner
    ([generate_date_range], [congress_api_call], [adaptive_api_call]) *)

Module Partitioner.

Import Calendar.

Local Open Scope Z_scope.

(** The increments [generate_date_range] knows, coarsest first: 'month',
    'week', 'day', '4hour', 'hour', '15min', '3min'. *)
Inductive granularity : Set :=
  | Month
  | Week
  | Day
  | FourHour
  | Hour
  | FifteenMin
  | ThreeMin.

Definition granularity_levels : list granularity :=
  [Month; Week; Day; FourHour; Hour; FifteenMin; ThreeMin].

(** The body of the [while] loop of [generate_date_range] after the
    [yield]: the next date, before it is clamped to [end_date]. *)
Definition advance (increment : granularity) (current_date : datetime) : result datetime :=
  match increment with
  | Month =>
      if month current_date =? 12 then
        replace current_date (year current_date + 1) 1 1
      else
        replace current_date (year current_date) (month current_date mod 12 + 1) 1
  | Week => add_timedelta current_date (weeks 1)
  | Day => add_timedelta current_date (days 1)
  | FourHour => add_timedelta current_date (hours 4)
  | Hour => add_timedelta current_date (hours 1)
  | FifteenMin => add_timedelta current_date (minutes 15)
  | ThreeMin => add_timedelta current_date (minutes 3)
  end.

(** The least distance [advance] covers. *)
Definition min_step (increment : granularity) : Z :=
  match increment with
  | Month => days 1
  | Week => weeks 1
  | Day => days 1
  | FourHour => hours 4
  | Hour => hours 1
  | FifteenMin => minutes 15
  | ThreeMin => minutes 3
  end.

(** The [while current_date < end_date] loop, the dates it yields collected
    as [list(...)] does.  [fuel] bounds the number of turns; a loop that
    used it up would not have returned. *)
Fixpoint generate_loop (fuel : nat) (current_date end_date : datetime)
    (increment : granularity) : result (list datetime) :=
  match fuel with
  | O => Suspended
  | S fuel' =>
      if current_date <? end_date then
        let* next := advance increment current_date in
        let current_date' := Z.min next end_date in
        let* rest := generate_loop fuel' current_date' end_date increment in
        Ok (current_date :: rest)
      else Ok []
  end.

(** [list(generate_date_range(start_date, end_date, increment))]: every
    turn but the last moves on by [min_step] at least, which bounds the
    turns. *)
Definition generate_date_range (start_date end_date : datetime) (increment : granularity)
    : result (list datetime) :=
  let turns := Z.to_nat ((end_date - start_date) / min_step increment) in
  generate_loop (S (S turns)) start_date end_date increment.

(** *** One step *)

Lemma min_step_pos (increment : granularity) : 0 < min_step increment.
Proof. by destruct increment. Qed.

Lemma add_timedelta_inv (t t' : datetime) (delta : Z) :
  add_timedelta t delta = Ok t' -> t' = t + delta /\ in_range t'.
Proof.
  unfold add_timedelta. destruct (_ && _) eqn:E; [|done].
  intros H; inversion H; subst. split; [done|].
  apply andb_true_iff in E as [E1 E2].
  unfold in_range, toordinal, US_PER_DAY, MAXORDINAL in *. zdiv.
Qed.

Lemma add_timedelta_Ok (t : datetime) (delta : Z) :
  in_range (t + delta) -> add_timedelta t delta = Ok (t + delta).
Proof.
  intros Hr. unfold add_timedelta.
  pose proof (toordinal_le_max _ Hr).
  assert ((0 <? toordinal (t + delta)) && (toordinal (t + delta) <=? MAXORDINAL) = true)
    as ->; [|done].
  apply andb_true_iff; split; lia.
Qed.

(** The first day of the month after that of [t]. *)
Lemma next_month_ordinal (t : datetime) (y m : Z) :
  0 <= t ->
  (month t = 12 /\ y = year t + 1 /\ m = 1) \/
  (month t <> 12 /\ y = year t /\ m = month t mod 12 + 1) ->
  valid_date y m 1 /\ toordinal t < ymd2ord y m 1.
Proof.
  intros Ht Hcase. destruct (fields_spec t Ht) as [Hv Hn].
  pose proof (ymd2ord_in_year _ _ _ Hv) as [Hlo Hhi].
  destruct Hv as (Hy & Hm & Hd).
  destruct Hcase as [(Hm12 & -> & ->)|(Hm12 & -> & ->)].
  - split.
    + unfold valid_date, days_in_month. simpl. lia.
    + rewrite <- Hn. unfold ymd2ord at 2, days_before_month. simpl. lia.
  - rewrite Z.mod_small by lia.
    pose proof (days_in_month_bounds (year t) (month t + 1) ltac:(lia)).
    split.
    + unfold valid_date. lia.
    + rewrite <- Hn. unfold ymd2ord.
      rewrite days_before_month_succ by lia. lia.
Qed.

Lemma advance_later (increment : granularity) (t t' : datetime) :
  0 <= t -> advance increment t = Ok t' -> t + min_step increment <= t'.
Proof.
  intros Ht H. destruct increment; simpl in H;
    try (apply add_timedelta_inv in H as [-> _]; simpl; lia).
  pose proof (datetime_split t) as [Hsplit Htod].
  destruct (Z.eqb_spec (month t) 12) as [Hm|Hm];
    apply replace_inv in H as (_ & _ & ->).
  - destruct (next_month_ordinal t (year t + 1) 1 Ht) as [_ Hlt]; [by left|].
    unfold min_step, days. nia.
  - destruct (next_month_ordinal t (year t) (month t mod 12 + 1) Ht) as [_ Hlt]; [by right|].
    unfold min_step, days. nia.
Qed.

(** Ends up to which no step leaves the range of [datetime]. *)
Definition last_safe_end : datetime := datetime_of 9999 12 1 0 0.

Lemma advance_Ok (increment : granularity) (t : datetime) :
  0 <= t < last_safe_end -> exists t', advance increment t = Ok t'.
Proof.
  intros Ht.
  assert (in_range t) as Hr.
  { unfold in_range. change last_safe_end with 315535219200000000 in Ht.
    change (MAXORDINAL * US_PER_DAY) with 315537897600000000. lia. }
  destruct increment; simpl;
    try (eexists; apply add_timedelta_Ok; unfold in_range;
         change last_safe_end with 315535219200000000 in Ht;
         change (MAXORDINAL * US_PER_DAY) with 315537897600000000;
         unfold weeks, days, hours, minutes, US_PER_DAY; lia).
  pose proof (year_le_max t Hr) as Hy.
  destruct (Z.eqb_spec (month t) 12) as [Hm|Hm].
  - destruct (next_month_ordinal t (year t + 1) 1 ltac:(lia)) as [Hv _]; [by left|].
    eexists. apply replace_Ok; [done|].
    destruct (Z.eq_dec (year t) MAXYEAR) as [Hmax|]; [|lia].
    exfalso. destruct (fields_spec t ltac:(lia)) as [(_ & _ & Hd) Hn].
    rewrite Hm, Hmax in Hn.
    pose proof (datetime_split t) as [Hsplit Htod].
    assert (ymd2ord MAXYEAR 12 1 <= toordinal t) as Hle.
    { rewrite <- Hn. unfold ymd2ord. lia. }
    change last_safe_end with ((ymd2ord MAXYEAR 12 1 - 1) * US_PER_DAY) in Ht.
    unfold US_PER_DAY in *. nia.
  - destruct (next_month_ordinal t (year t) (month t mod 12 + 1) ltac:(lia)) as [Hv _];
      [by right|].
    eexists. apply replace_Ok; [done|lia].
Qed.

(** *** The boundaries and the sub-intervals *)

(** The sub-intervals [recursive_call] forms from the boundaries: each date
    with the next one, the last date with [end]. *)
Definition sub_intervals (date_range : list datetime) (end_date : datetime)
    : list (datetime * datetime) :=
  imap (fun i date => (date, default end_date (date_range !! S i))) date_range.

Inductive partition_of : datetime -> datetime -> list (datetime * datetime) -> Prop :=
  | partition_last (a b : datetime) :
      a < b -> partition_of a b [(a, b)]
  | partition_cons (a m b : datetime) (l : list (datetime * datetime)) :
      a < m -> partition_of m b l -> partition_of a b ((a, m) :: l).

Lemma sub_intervals_one (date end_date : datetime) :
  sub_intervals [date] end_date = [(date, end_date)].
Proof. reflexivity. Qed.

Lemma sub_intervals_cons (date next : datetime) (rest : list datetime) (end_date : datetime) :
  sub_intervals (date :: next :: rest) end_date =
  (date, next) :: sub_intervals (next :: rest) end_date.
Proof. reflexivity. Qed.

Lemma generate_loop_partition (increment : granularity) (end_date : datetime) (fuel : nat) :
  forall (current_date : datetime) (dates : list datetime),
  0 <= current_date < end_date ->
  generate_loop fuel current_date end_date increment = Ok dates ->
  exists rest, dates = current_date :: rest /\
    partition_of current_date end_date (sub_intervals dates end_date).
Proof.
  induction fuel as [|fuel IH]; intros current dates Hc H; simpl in H; [done|].
  assert ((current <? end_date) = true) as E by lia. rewrite E in H.
  destruct (advance increment current) as [next| |] eqn:Ha; simpl in H; [|done..].
  pose proof (advance_later increment current next ltac:(lia) Ha) as Hlater.
  pose proof (min_step_pos increment) as Hpos.
  destruct (generate_loop fuel (Z.min next end_date) end_date increment)
    as [rest| |] eqn:Hrest; simpl in H; [|done..].
  inversion H; subst. exists rest. split; [done|].
  destruct (Z_lt_ge_dec next end_date) as [Hlt|Hge].
  - rewrite Z.min_l in Hrest by lia.
    destruct (IH next rest ltac:(lia) Hrest) as (rest' & -> & Hpart).
    rewrite sub_intervals_cons. constructor; [lia|done].
  - rewrite Z.min_r in Hrest by lia.
    destruct fuel as [|fuel]; simpl in Hrest; [done|].
    rewrite Z.ltb_irrefl in Hrest. inversion Hrest; subst.
    rewrite sub_intervals_one. constructor. lia.
Qed.

Lemma div_step (a s : Z) : 0 < s -> s <= a -> (a - s) / s + 1 = a / s.
Proof.
  intros Hs Ha. replace a with ((a - s) + 1 * s) at 2 by lia.
  by rewrite Z.div_add by lia.
Qed.

(** The loop ends before its fuel does. *)
Lemma generate_loop_returns (increment : granularity) (end_date : datetime) (fuel : nat) :
  forall (current_date : datetime),
  0 <= current_date ->
  (current_date < end_date ->
   (end_date - current_date) / min_step increment + 2 <= Z.of_nat fuel) ->
  (0 < fuel)%nat ->
  generate_loop fuel current_date end_date increment <> Suspended.
Proof.
  pose proof (min_step_pos increment) as Hpos.
  induction fuel as [|fuel IH]; intros current Hc Hfuel Hnz; [lia|].
  simpl. destruct (Z.ltb_spec current end_date) as [Hlt|Hge]; [|done].
  specialize (Hfuel Hlt).
  destruct (advance increment current) as [next| |] eqn:Ha; simpl; [|done|].
  2:{ destruct increment; simpl in Ha; unfold replace, add_timedelta in Ha;
        repeat (destruct (_ : bool) in Ha; try done). }
  pose proof (advance_later increment current next Hc Ha) as Hlater.
  pose proof (Z.div_pos (end_date - current) (min_step increment) ltac:(lia) Hpos) as Hdiv.
  assert (generate_loop fuel (Z.min next end_date) end_date increment <> Suspended) as Hrec.
  { apply IH; [lia| |lia].
    intros Hmin. rewrite Z.min_l in * by lia.
    pose proof (div_step (end_date - current) (min_step increment) Hpos ltac:(lia)) as Hstep.
    assert ((end_date - next) / min_step increment <=
            (end_date - current - min_step increment) / min_step increment) as Hmono
      by (apply Z.div_le_mono; lia).
    lia. }
  by destruct (generate_loop fuel (Z.min next end_date) end_date increment).
Qed.

Lemma generate_date_range_returns (start_date end_date : datetime) (increment : granularity) :
  0 <= start_date ->
  generate_date_range start_date end_date increment <> Suspended.
Proof.
  intros Hs. unfold generate_date_range. apply generate_loop_returns; [done| |lia].
  intros Hlt. pose proof (min_step_pos increment) as Hpos.
  pose proof (Z.div_pos (end_date - start_date) (min_step increment) ltac:(lia) Hpos).
  lia.
Qed.

Lemma generate_loop_Ok (increment : granularity) (end_date : datetime) (fuel : nat) :
  forall (current_date : datetime),
  0 <= current_date ->
  end_date <= last_safe_end ->
  generate_loop fuel current_date end_date increment <> Suspended ->
  exists dates, generate_loop fuel current_date end_date increment = Ok dates.
Proof.
  induction fuel as [|fuel IH]; intros current Hc Hend Hns; simpl in *; [done|].
  destruct (Z.ltb_spec current end_date) as [Hlt|Hge]; [|by eauto].
  destruct (advance_Ok increment current ltac:(lia)) as [next Ha].
  rewrite Ha in *. simpl in *.
  pose proof (advance_later increment current next Hc Ha) as Hlater.
  pose proof (min_step_pos increment) as Hpos.
  destruct (IH (Z.min next end_date) ltac:(lia) Hend) as [rest Hrest].
  - intros Hs. by rewrite Hs in Hns.
  - rewrite Hrest. simpl. by eauto.
Qed.

(** What the claim says of the sub-intervals, property by property. *)
Definition covers (start_date end_date : datetime) (l : list (datetime * datetime)) : Prop :=
  (forall a b, (a, b) ∈ l -> a < b) /\
  (exists b, head l = Some (start_date, b)) /\
  (forall i a b a' b', l !! i = Some (a, b) -> l !! S i = Some (a', b') -> a' = b) /\
  (exists a, last l = Some (a, end_date)) /\
  (forall a b, (a, b) ∈ l -> start_date <= a /\ b <= end_date) /\
  (forall t, start_date <= t < end_date -> exists a b, (a, b) ∈ l /\ a <= t < b) /\
  (forall i j a b a' b' t,
     l !! i = Some (a, b) -> l !! j = Some (a', b') ->
     a <= t < b -> a' <= t < b' -> i = j).

Lemma partition_of_lt (a b : datetime) (l : list (datetime * datetime)) :
  partition_of a b l -> a < b.
Proof. induction 1; lia. Qed.

Lemma partition_of_bounds (a b : datetime) (l : list (datetime * datetime)) :
  partition_of a b l -> forall x y, (x, y) ∈ l -> a <= x /\ x < y /\ y <= b.
Proof.
  induction 1 as [a b Hab|a m b l Ham Hp IH]; intros x y Hin.
  - apply list_elem_of_singleton in Hin. inversion Hin; subst. lia.
  - apply elem_of_cons in Hin as [Heq|Hin].
    + inversion Heq; subst. apply partition_of_lt in Hp. lia.
    + specialize (IH x y Hin). lia.
Qed.

Lemma partition_of_covers (a b : datetime) (l : list (datetime * datetime)) :
  partition_of a b l -> covers a b l.
Proof.
  intros Hp. unfold covers. split_and!.
  - intros x y Hin. pose proof (partition_of_bounds _ _ _ Hp x y Hin). lia.
  - destruct Hp; simpl; by eauto.
  - induction Hp as [a b Hab|a m b l Ham Hp IH]; intros i x y x' y' Hi Hj.
    + by destruct i.
    + destruct i as [|i]; simpl in *.
      * inversion Hi; subst. destruct Hp; simpl in Hj; by inversion Hj.
      * by eapply IH.
  - induction Hp as [a b Hab|a m b l Ham Hp IH]; [by eauto|].
    destruct IH as [x Hx]. exists x. destruct l; [by inversion Hp|done].
  - intros x y Hin. pose proof (partition_of_bounds _ _ _ Hp x y Hin). lia.
  - induction Hp as [a b Hab|a m b l Ham Hp IH]; intros t Ht.
    + exists a, b. split; [by apply list_elem_of_singleton|done].
    + destruct (Z_lt_ge_dec t m) as [Hlt|Hge].
      * exists a, m. split; [by left|lia].
      * destruct (IH t ltac:(lia)) as (x & y & Hin & Hxy).
        exists x, y. split; [by right|done].
  - induction Hp as [a b Hab|a m b l Ham Hp IH]; intros i j x y x' y' t Hi Hj Ht Ht'.
    + destruct i, j; try done; simpl in *; by destruct i || destruct j.
    + destruct i as [|i], j as [|j]; simpl in *.
      * done.
      * inversion Hi; subst.
        apply list_elem_of_lookup_2 in Hj.
        pose proof (partition_of_bounds _ _ _ Hp x' y' Hj). lia.
      * inversion Hj; subst.
        apply list_elem_of_lookup_2 in Hi.
        pose proof (partition_of_bounds _ _ _ Hp x y Hi). lia.
      * f_equal. by eapply IH.
Qed.

(** C2: for every interval with [start_date < end_date] and every
    granularity, the boundary list is produced unless a step leaves the
    range of [datetime] (it is produced whenever [end_date] is at most
    9999-12-01), and the sub-intervals formed from adjacent boundaries are a
    partition of the interval: none is empty, the first starts at
    [start_date], each next one starts where the one before ended, the last
    ends at [end_date], and every instant of the interval lies in exactly
    one of them. *)
Theorem sub_intervals_partition (start_date end_date : datetime) (increment : granularity) :
  0 <= start_date < end_date ->
  generate_date_range start_date end_date increment <> Suspended /\
  (end_date <= last_safe_end ->
   exists date_range, generate_date_range start_date end_date increment = Ok date_range) /\
  (forall date_range,
     generate_date_range start_date end_date increment = Ok date_range ->
     partition_of start_date end_date (sub_intervals date_range end_date) /\
     covers start_date end_date (sub_intervals date_range end_date)).
Proof.
  intros Hs. split_and!.
  - apply generate_date_range_returns. lia.
  - intros Hend. apply generate_loop_Ok; [lia|done|].
    apply generate_date_range_returns. lia.
  - intros date_range Hgen.
    destruct (generate_loop_partition _ _ _ _ _ Hs Hgen) as (rest & _ & Hp).
    split; [done|]. by apply partition_of_covers.
Qed.

(** *** The increments of fixed length *)

(** The length of the step of an increment other than ['month']. *)
Definition fixed_step (increment : granularity) : option Z :=
  match increment with
  | Month => None
  | _ => Some (min_step increment)
  end.

Lemma advance_fixed (increment : granularity) (step : Z) (t t' : datetime) :
  fixed_step increment = Some step ->
  advance increment t = Ok t' -> t' = t + step.
Proof.
  intros Hstep H. destruct increment; simpl in Hstep; try discriminate;
    injection Hstep as <-; by apply add_timedelta_inv in H as [-> _].
Qed.

(** The arithmetic progression [first, first + step, ...] below [end_date]. *)
Definition steps_below (first end_date step : Z) : list Z :=
  (fun i : nat => first + Z.of_nat i * step) <$>
  seq 0 (Z.to_nat ((end_date - first + step - 1) / step)).

Lemma steps_below_nil (first end_date step : Z) :
  0 < step -> end_date <= first -> steps_below first end_date step = [].
Proof.
  intros Hstep Hle. unfold steps_below.
  replace (Z.to_nat _) with 0%nat; [done|].
  assert ((end_date - first + step - 1) / step <= 0); [|lia].
  apply Z.lt_succ_r. apply Z.div_lt_upper_bound; lia.
Qed.

Lemma steps_below_cons (first end_date step : Z) :
  0 < step -> first < end_date ->
  steps_below first end_date step = first :: steps_below (first + step) end_date step.
Proof.
  intros Hstep Hlt. unfold steps_below.
  replace (end_date - first + step - 1) with ((end_date - (first + step) + step - 1) + 1 * step)
    by lia.
  rewrite Z.div_add by lia.
  assert (0 <= (end_date - (first + step) + step - 1) / step) as Hq.
  { apply Z.div_pos; lia. }
  rewrite Z2Nat.inj_add by lia. rewrite Nat.add_comm. simpl.
  f_equal; [lia|]. rewrite <- fmap_S_seq, <- list_fmap_compose.
  apply list_fmap_ext. intros _ i _. simpl. lia.
Qed.

Lemma generate_loop_fixed (increment : granularity) (step end_date : Z) (fuel : nat) :
  fixed_step increment = Some step ->
  forall (current_date : datetime) (dates : list datetime),
  generate_loop fuel current_date end_date increment = Ok dates ->
  dates = steps_below current_date end_date step.
Proof.
  intros Hstep. assert (0 < step) as Hpos.
  { destruct increment; simpl in Hstep; try discriminate; by injection Hstep as <-. }
  induction fuel as [|fuel IH]; intros current dates H; simpl in H; [done|].
  destruct (Z.ltb_spec current end_date) as [Hlt|Hge].
  - destruct (advance increment current) as [next| |] eqn:Ha; simpl in H; [|done..].
    apply (advance_fixed _ step) in Ha; [|done]. subst next.
    destruct (generate_loop fuel _ end_date increment) as [rest| |] eqn:Hrest;
      simpl in H; [|done..].
    injection H as <-. rewrite (steps_below_cons current) by done. f_equal.
    apply IH in Hrest. subst rest.
    destruct (Z.le_gt_cases end_date (current + step)) as [Hlast|Hmore].
    + rewrite Z.min_r by done. by rewrite !steps_below_nil by lia.
    + by rewrite Z.min_l by lia.
  - injection H as <-. by rewrite steps_below_nil.
Qed.

(** For the six increments of fixed length, when the boundaries are
    produced, they are [start_date], [start_date + step], ... below
    [end_date] -- [ceil((end_date - start_date) / step)] of them, none when
    [end_date <= start_date] -- and the [i]-th sub-interval runs from
    [start_date + i * step] to [start_date + (i + 1) * step], cut at
    [end_date]. *)
Theorem fixed_step_sub_intervals (start_date end_date : datetime) (increment : granularity)
    (step : Z) (date_range : list datetime) :
  fixed_step increment = Some step ->
  generate_date_range start_date end_date increment = Ok date_range ->
  date_range = steps_below start_date end_date step /\
  Z.of_nat (length date_range) = Z.max 0 ((end_date - start_date + step - 1) / step) /\
  forall (i : nat) (a b : datetime),
    sub_intervals date_range end_date !! i = Some (a, b) ->
    a = start_date + Z.of_nat i * step /\ b = Z.min (a + step) end_date /\ a < b.
Proof.
  intros Hstep Hgen. assert (0 < step) as Hpos.
  { destruct increment; simpl in Hstep; try discriminate; by injection Hstep as <-. }
  apply (generate_loop_fixed _ step) in Hgen; [|done]. subst date_range.
  split; [done|]. split.
  { unfold steps_below. rewrite length_fmap, length_seq. lia. }
  intros i a b Hi. unfold sub_intervals in Hi.
  apply list_lookup_imap_Some in Hi as (date & Hdate & Heq).
  injection Heq as <- ->.
  unfold steps_below in *. set (n := Z.to_nat _) in *.
  rewrite list_lookup_fmap in Hdate.
  destruct (seq 0 n !! i) as [j|] eqn:Hj; [|done].
  apply lookup_seq in Hj as [-> Hin]. simpl in Hdate. injection Hdate as <-.
  split; [done|].
  assert (0 <= (end_date - start_date + step - 1) / step) as Hq by lia.
  assert (Z.of_nat n = (end_date - start_date + step - 1) / step) as Hn by lia.
  pose proof (Z.div_mod (end_date - start_date + step - 1) step ltac:(lia)) as Hdm.
  pose proof (Z.mod_pos_bound (end_date - start_date + step - 1) step Hpos) as Hmod.
  rewrite list_lookup_fmap.
  destruct (decide (S i < n)%nat) as [Hnext|Hlast].
  - rewrite lookup_seq_lt by done. simpl. nia.
  - rewrite lookup_seq_ge by lia. simpl. nia.
Qed.

(** From noon to 11:00 the next day, in steps of four hours. *)
Lemma fixed_step_witness :
  let start_date := datetime_of 2020 1 1 12 0 in
  let end_date := datetime_of 2020 1 2 11 0 in
  let date_range := ((fun h => datetime_of 2020 1 1 h 0) <$> [12; 16; 20]) ++
                    ((fun h => datetime_of 2020 1 2 h 0) <$> [0; 4; 8]) in
  date_range = steps_below start_date end_date (hours 4) /\
  Z.of_nat (length date_range) = Z.max 0 ((end_date - start_date + hours 4 - 1) / hours 4) /\
  forall (i : nat) (a b : datetime),
    sub_intervals date_range end_date !! i = Some (a, b) ->
    a = start_date + Z.of_nat i * hours 4 /\ b = Z.min (a + hours 4) end_date /\ a < b.
Proof.
  apply (fixed_step_sub_intervals (datetime_of 2020 1 1 12 0) (datetime_of 2020 1 2 11 0)
           FourHour (hours 4)).
  - reflexivity.
  - vm_compute. reflexivity.
Defined.

(** *** The month increment *)

(** Months counted from year 0: consecutive months differ by 1. *)
Definition month_number (t : datetime) : Z := 12 * year t + month t.

(** One ['month'] step goes to the first day of the next month, at the same
    time of day, and covers 31 days at most. *)
Lemma advance_month (t t' : datetime) :
  0 <= t -> advance Month t = Ok t' ->
  day t' = 1 /\ time_of_day t' = time_of_day t /\
  month_number t' = month_number t + 1 /\ t < t' <= t + days 31.
Proof.
  intros Ht H. simpl in H.
  destruct (fields_spec t Ht) as [Hv Hn].
  pose proof (datetime_split t) as [Hsplit Htod].
  pose proof Hv as (Hy & Hm & Hd).
  assert (exists y m, replace t y m 1 = Ok t' /\ 12 * y + m = month_number t + 1 /\
            ymd2ord y m 1 = ymd2ord (year t) (month t) 1 + days_in_month (year t) (month t))
    as (y & m & Hr & Hnum & Hnext).
  { unfold month_number. destruct (Z.eqb_spec (month t) 12) as [E|E].
    - exists (year t + 1), 1. split_and!; [done|lia|].
      unfold ymd2ord. rewrite days_before_year_succ, E.
      pose proof (days_before_month_december (year t)).
      unfold days_before_month at 1. simpl. lia.
    - exists (year t), (month t mod 12 + 1). split; [done|].
      rewrite Z.mod_small by lia. split; [lia|].
      unfold ymd2ord. rewrite days_before_month_succ by lia. lia. }
  apply replace_inv in Hr as (Hv' & _ & ->).
  destruct (fields_of_date y m 1 (time_of_day t) Hv' Htod) as (Hy' & Hm' & Hd' & Htod' & _).
  split_and!; [done|done|unfold month_number in *; rewrite Hy', Hm'; lia| |].
  - rewrite Hsplit at 1. rewrite Hnext, <- Hn. unfold ymd2ord, US_PER_DAY in *. nia.
  - rewrite Hsplit at 2. rewrite Hnext, <- Hn.
    pose proof (days_in_month_bounds (year t) (month t) Hm).
    unfold ymd2ord, days, US_PER_DAY in *. nia.
Qed.

Lemma generate_loop_months (end_date : datetime) (fuel : nat) :
  forall (current_date : datetime) (dates : list datetime),
  0 <= current_date ->
  generate_loop fuel current_date end_date Month = Ok dates ->
  (forall first, head dates = Some first -> first = current_date) /\
  (forall (i : nat) (date : datetime),
     dates !! S i = Some date ->
     day date = 1 /\ time_of_day date = time_of_day current_date /\
     month_number date = month_number current_date + Z.of_nat (S i)) /\
  (forall (i : nat) (a b : datetime),
     sub_intervals dates end_date !! i = Some (a, b) -> b - a <= days 31).
Proof.
  induction fuel as [|fuel IH]; intros current dates Hc H; [done|].
  cbn [generate_loop] in H.
  destruct (Z.ltb_spec current end_date) as [Hlt|Hge].
  2:{ injection H as <-. split_and!; [done|done|]. intros i a b Hi. by destruct i. }
  destruct (advance Month current) as [next| |] eqn:Ha; [|done..].
  cbn [bind] in H.
  destruct (generate_loop fuel (Z.min next end_date) end_date Month) as [rest| |] eqn:Hrest;
    [|done..].
  simpl in H. injection H as <-.
  destruct (advance_month current next Hc Ha) as (Hday & Htod & Hnum & Hlater).
  destruct (IH (Z.min next end_date) rest ltac:(lia) Hrest) as (Hhead & Hfields & Hlen).
  assert (forall first, head rest = Some first ->
            first = next /\ next < end_date) as Hfirst.
  { intros first Hf. specialize (Hhead first Hf). subst first.
    destruct fuel as [|fuel']; [done|]. cbn [generate_loop] in Hrest.
    destruct (Z.ltb_spec (Z.min next end_date) end_date) as [Hlt'|Hge'].
    - lia.
    - injection Hrest as <-. done. }
  assert (rest = [] -> end_date <= next) as Hnil.
  { intros ->. destruct fuel as [|fuel']; [done|]. cbn [generate_loop] in Hrest.
    destruct (Z.ltb_spec (Z.min next end_date) end_date) as [Hlt'|Hge']; [|lia].
    destruct (advance Month (Z.min next end_date)) as [next'| |]; [|done..].
    cbn [bind] in Hrest.
    destruct (generate_loop fuel' (Z.min next' end_date) end_date Month) as [?| |]; done. }
  split_and!.
  - intros first Hf. by injection Hf.
  - intros i date Hi. simpl in Hi. destruct i as [|i].
    + destruct rest as [|first rest']; [done|]. injection Hi as ->.
      destruct (Hfirst date eq_refl) as [-> _]. split_and!; [done..|lia].
    + destruct rest as [|first rest']; [done|].
      destruct (Hfirst first eq_refl) as [-> Hnext].
      rewrite Z.min_l in Hfields by lia.
      destruct (Hfields i date Hi) as (Hd & Ht & Hn). split_and!; [done|congruence|lia].
  - intros i a b Hi. destruct rest as [|first rest'].
    + destruct i; [|done]. injection Hi as <- <-. specialize (Hnil eq_refl). lia.
    + destruct (Hfirst first eq_refl) as [-> Hnext].
      rewrite sub_intervals_cons in Hi. destruct i as [|i].
      * injection Hi as <- <-. lia.
      * by apply (Hlen i).
Qed.

(** With the ['month'] increment, every boundary after [start_date] is the
    first day of a month at the time of day of [start_date], the [i]-th
    boundary lies in the [i]-th month after that of [start_date], and no
    sub-interval is longer than 31 days. *)
Theorem month_boundaries (start_date end_date : datetime) (date_range : list datetime) :
  0 <= start_date ->
  generate_date_range start_date end_date Month = Ok date_range ->
  (forall first, head date_range = Some first -> first = start_date) /\
  (forall (i : nat) (date : datetime),
     date_range !! S i = Some date ->
     day date = 1 /\ time_of_day date = time_of_day start_date /\
     month_number date = month_number start_date + Z.of_nat (S i)) /\
  (forall (i : nat) (a b : datetime),
     sub_intervals date_range end_date !! i = Some (a, b) -> b - a <= days 31).
Proof. intros Hs Hgen. by eapply generate_loop_months. Qed.

(** From 26 October 2016, 09:30, to 2 January 2017: the boundaries are the
    start and the first days of November, December and January at 09:30. *)
Lemma month_boundaries_witness :
  let start_date := datetime_of 2016 10 26 9 30 in
  let end_date := datetime_of 2017 1 2 0 0 in
  let date_range := [start_date; datetime_of 2016 11 1 9 30; datetime_of 2016 12 1 9 30;
                     datetime_of 2017 1 1 9 30] in
  generate_date_range start_date end_date Month = Ok date_range /\
  (forall first, head date_range = Some first -> first = start_date) /\
  (forall (i : nat) (date : datetime),
     date_range !! S i = Some date ->
     day date = 1 /\ time_of_day date = time_of_day start_date /\
     month_number date = month_number start_date + Z.of_nat (S i)) /\
  (forall (i : nat) (a b : datetime),
     sub_intervals date_range end_date !! i = Some (a, b) -> b - a <= days 31).
Proof.
  assert (generate_date_range (datetime_of 2016 10 26 9 30) (datetime_of 2017 1 2 0 0) Month =
          Ok [datetime_of 2016 10 26 9 30; datetime_of 2016 11 1 9 30;
              datetime_of 2016 12 1 9 30; datetime_of 2017 1 1 9 30]) as Hgen
    by (vm_compute; reflexivity).
  split; [exact Hgen|].
  apply (month_boundaries (datetime_of 2016 10 26 9 30) (datetime_of 2017 1 2 0 0));
    [|exact Hgen].
  vm_compute. discriminate.
Defined.

(** *** The recursion over the granularity levels *)

Section Recursion.

Context {Bill : Type}.

(** The JSON payload of one range query: the list under ['bills'], which
    may be missing, and the total-count indicator of the payload, which
    [congress_api_call] never reads. *)
Record response : Type := Response {
  bills : option (list Bill);
  pagination_count : Z
}.

(** The remote API: the payload for [fromDateTime], [toDateTime] and
    [limit]. *)
Variable api : datetime -> datetime -> Z -> response.

(** [response_limit], 250 by default. *)
Variable response_limit : Z.

(** A row of the frame: a bill with the two columns [congress_api_call]
    adds. *)
Record row : Type := Row {
  bill : Bill;
  query_start_time : datetime;
  query_end_time : datetime
}.

(** [congress_api_call(start_date, end_date, api_key, limit)]: the frame of
    [bill_pull.get('bills', [])] with the query range in two more columns.
    The pause after the call is left out. *)
Definition congress_api_call (start_date end_date : datetime) (limit : Z) : list row :=
  let bill_pull := api start_date end_date limit in
  let df := default [] (bills bill_pull) in
  (fun b => Row b start_date end_date) <$> df.

(** What a run does, in order: [RecCall] when [recursive_call] is entered,
    [Fetched] when the API was called on a sub-interval at a granularity
    index and the frame has [n] rows (the line printed after the call). *)
Inductive event : Type :=
  | RecCall (start_date end_date : datetime) (granularity_index : nat)
  | Fetched (granularity_index : nat) (date next_date : datetime) (n : nat).

(** [len(data) >= response_limit and granularity_index <
    len(granularity_levels) - 1] *)
Definition limit_reached (granularity_index : nat) (n : nat) : bool :=
  (response_limit <=? Z.of_nat n) &&
  (granularity_index <? length granularity_levels - 1)%nat.

(** The [for] loop of [recursive_call] over the sub-intervals; [drill] is
    the recursive call at the next finer granularity. *)
Fixpoint visit_all (drill : datetime -> datetime -> list event * result (list row))
    (granularity_index : nat) (intervals : list (datetime * datetime))
    (all_data : list row) : list event * result (list row) :=
  match intervals with
  | [] => ([], Ok all_data)
  | (date, next_date) :: intervals' =>
      let data := congress_api_call date next_date response_limit in
      let fetched := Fetched granularity_index date next_date (length data) in
      if limit_reached granularity_index (length data) then
        match drill date next_date with
        | (log, Ok finer_data) =>
            let '(log', r) :=
              visit_all drill granularity_index intervals' (all_data ++ finer_data) in
            (fetched :: log ++ log', r)
        | (log, Raise e) => (fetched :: log, Raise e)
        | (log, Suspended) => (fetched :: log, Suspended)
        end
      else
        let '(log', r) := visit_all drill granularity_index intervals' (all_data ++ data) in
        (fetched :: log', r)
  end.

(** [recursive_call(start, end, granularity_index)]; [fuel] bounds the
    depth of the recursion. *)
Fixpoint recursive_call (fuel : nat) (start_date end_date : datetime)
    (granularity_index : nat) : list event * result (list row) :=
  let entered := RecCall start_date end_date granularity_index in
  match fuel with
  | O => ([], Suspended)
  | S fuel' =>
      match granularity_levels !! granularity_index with
      | None => ([entered], Raise IndexError)
      | Some granularity =>
          match generate_date_range start_date end_date granularity with
          | Ok date_range =>
              let '(log, r) :=
                visit_all (fun date next_date =>
                             recursive_call fuel' date next_date (S granularity_index))
                          granularity_index (sub_intervals date_range end_date) [] in
              (entered :: log, r)
          | Raise e => ([entered], Raise e)
          | Suspended => ([entered], Suspended)
          end
      end
  end.

(** [adaptive_api_call(start_date, end_date, api_key, response_limit)]: one
    level of recursion per granularity. *)
Definition adaptive_api_call (start_date end_date : datetime) : list event * result (list row) :=
  recursive_call (length granularity_levels) start_date end_date 0.

(** *** Which calls a run issues *)

(** In [log], every fetch recorded in [part] has the row count of its frame
    and, when the limit is reached, its finer call. *)
Definition fetches_drilled (log part : list event) : Prop :=
  forall g a b n,
    Fetched g a b n ∈ part ->
    n = length (congress_api_call a b response_limit) /\
    (limit_reached g n = true -> RecCall a b (S g) ∈ log).

(** In [log], every call recorded in [part] was issued by a fetch on the
    same interval, one level coarser, that reached the limit. *)
Definition calls_issued (log part : list event) : Prop :=
  forall a b g,
    RecCall a b g ∈ part ->
    exists g', g = S g' /\
      limit_reached g' (length (congress_api_call a b response_limit)) = true /\
      Fetched g' a b (length (congress_api_call a b response_limit)) ∈ log.

Lemma fetches_drilled_mono (log log' part : list event) :
  log ⊆ log' -> fetches_drilled log part -> fetches_drilled log' part.
Proof.
  intros Hsub H g a b n Hin. destruct (H g a b n Hin) as [Hn Hd].
  split; [done|]. intros Hl. by apply Hsub, Hd.
Qed.

Lemma calls_issued_mono (log log' part : list event) :
  log ⊆ log' -> calls_issued log part -> calls_issued log' part.
Proof.
  intros Hsub H a b g Hin. destruct (H a b g Hin) as (g' & Hg & Hl & Hf).
  exists g'. split_and!; [done..|]. by apply Hsub.
Qed.

Lemma fetches_drilled_app (log p1 p2 : list event) :
  fetches_drilled log p1 -> fetches_drilled log p2 -> fetches_drilled log (p1 ++ p2).
Proof. intros H1 H2 g a b n Hin. apply elem_of_app in Hin as [Hin|Hin]; eauto. Qed.

Lemma calls_issued_app (log p1 p2 : list event) :
  calls_issued log p1 -> calls_issued log p2 -> calls_issued log (p1 ++ p2).
Proof. intros H1 H2 a b g Hin. apply elem_of_app in Hin as [Hin|Hin]; eauto. Qed.

(** What is asked of the finer call of a sub-interval that reached the
    limit. *)
Definition drill_ok (drill : datetime -> datetime -> list event * result (list row))
    (g : nat) : Prop :=
  forall a b,
    limit_reached g (length (congress_api_call a b response_limit)) = true ->
    exists log',
      (drill a b).1 = RecCall a b (S g) :: log' /\
      fetches_drilled (drill a b).1 (drill a b).1 /\
      calls_issued (drill a b).1 log'.

Lemma fetches_drilled_cons (log part : list event) (ev : event) :
  fetches_drilled log [ev] -> fetches_drilled log part -> fetches_drilled log (ev :: part).
Proof. apply (fetches_drilled_app log [ev]). Qed.

Lemma calls_issued_cons (log part : list event) (ev : event) :
  calls_issued log [ev] -> calls_issued log part -> calls_issued log (ev :: part).
Proof. apply (calls_issued_app log [ev]). Qed.

Lemma calls_issued_fetched (log : list event) (g : nat) (a b : datetime) (n : nat) :
  calls_issued log [Fetched g a b n].
Proof. intros ? ? ? Hin. apply list_elem_of_singleton in Hin. discriminate Hin. Qed.

Lemma calls_issued_call (log : list event) (g : nat) (a b : datetime) :
  limit_reached g (length (congress_api_call a b response_limit)) = true ->
  Fetched g a b (length (congress_api_call a b response_limit)) ∈ log ->
  calls_issued log [RecCall a b (S g)].
Proof.
  intros Hl Hf ? ? ? Hin. apply list_elem_of_singleton in Hin. inversion Hin; subst.
  by exists g.
Qed.

Lemma fetches_drilled_fetched (log : list event) (g : nat) (a b : datetime) :
  (limit_reached g (length (congress_api_call a b response_limit)) = true ->
   RecCall a b (S g) ∈ log) ->
  fetches_drilled log [Fetched g a b (length (congress_api_call a b response_limit))].
Proof.
  intros H ? ? ? ? Hin. apply list_elem_of_singleton in Hin. inversion Hin; subst. done.
Qed.

Lemma fetches_drilled_call (log : list event) (g : nat) (a b : datetime) :
  fetches_drilled log [RecCall a b g].
Proof. intros ? ? ? ? Hin. apply list_elem_of_singleton in Hin. discriminate Hin. Qed.

Lemma visit_all_log (drill : datetime -> datetime -> list event * result (list row))
    (g : nat) (intervals : list (datetime * datetime)) :
  drill_ok drill g ->
  forall all_data,
    fetches_drilled (visit_all drill g intervals all_data).1
                    (visit_all drill g intervals all_data).1 /\
    calls_issued (visit_all drill g intervals all_data).1
                 (visit_all drill g intervals all_data).1.
Proof.
  intros Hdrill. induction intervals as [|[date next_date] intervals IH]; intros all_data.
  - simpl. split; [intros ? ? ? ? Hin|intros ? ? ? Hin]; by apply elem_of_nil in Hin.
  - simpl. set (data := congress_api_call date next_date response_limit).
    destruct (limit_reached g (length data)) eqn:Hl.
    + destruct (Hdrill date next_date Hl) as (log' & Hlog & Hf & Hc).
      destruct (drill date next_date) as [log [finer|e|]] eqn:Hd; simpl in *; subst log.
      * specialize (IH (all_data ++ finer)).
        destruct (visit_all drill g intervals (all_data ++ finer)) as [log3 r]. simpl in *.
        destruct IH as [IHf IHc].
        set (whole := Fetched g date next_date (length data) ::
                      RecCall date next_date (S g) :: log' ++ log3).
        split.
        -- apply fetches_drilled_cons.
           { apply fetches_drilled_fetched. intros _. unfold whole. set_solver. }
           change (fetches_drilled whole ((RecCall date next_date (S g) :: log') ++ log3)).
           apply fetches_drilled_app.
           ++ eapply fetches_drilled_mono; [|exact Hf]. unfold whole. set_solver.
           ++ eapply fetches_drilled_mono; [|exact IHf]. unfold whole. set_solver.
        -- apply calls_issued_cons; [apply calls_issued_fetched|].
           apply calls_issued_cons.
           { apply calls_issued_call; [done|]. unfold whole. set_solver. }
           apply calls_issued_app.
           ++ eapply calls_issued_mono; [|exact Hc]. unfold whole. set_solver.
           ++ eapply calls_issued_mono; [|exact IHc]. unfold whole. set_solver.
      * set (whole := Fetched g date next_date (length data) ::
                      RecCall date next_date (S g) :: log').
        split.
        -- apply fetches_drilled_cons.
           { apply fetches_drilled_fetched. intros _. unfold whole. set_solver. }
           eapply fetches_drilled_mono; [|exact Hf]. unfold whole. set_solver.
        -- apply calls_issued_cons; [apply calls_issued_fetched|].
           apply calls_issued_cons.
           { apply calls_issued_call; [done|]. unfold whole. set_solver. }
           eapply calls_issued_mono; [|exact Hc]. unfold whole. set_solver.
      * set (whole := Fetched g date next_date (length data) ::
                      RecCall date next_date (S g) :: log').
        split.
        -- apply fetches_drilled_cons.
           { apply fetches_drilled_fetched. intros _. unfold whole. set_solver. }
           eapply fetches_drilled_mono; [|exact Hf]. unfold whole. set_solver.
        -- apply calls_issued_cons; [apply calls_issued_fetched|].
           apply calls_issued_cons.
           { apply calls_issued_call; [done|]. unfold whole. set_solver. }
           eapply calls_issued_mono; [|exact Hc]. unfold whole. set_solver.
    + specialize (IH (all_data ++ data)).
      destruct (visit_all drill g intervals (all_data ++ data)) as [log3 r]. simpl in *.
      destruct IH as [IHf IHc].
      set (whole := Fetched g date next_date (length data) :: log3).
      split.
      * apply fetches_drilled_cons.
        { apply fetches_drilled_fetched. intros Hl'. fold data in Hl'. congruence. }
        eapply fetches_drilled_mono; [|exact IHf]. unfold whole. set_solver.
      * apply calls_issued_cons; [apply calls_issued_fetched|].
        eapply calls_issued_mono; [|exact IHc]. unfold whole. set_solver.
Qed.

Lemma limit_reached_finer (g n : nat) :
  limit_reached g n = true <-> response_limit <= Z.of_nat n /\ (g < 6)%nat.
Proof.
  unfold limit_reached. rewrite andb_true_iff, Z.leb_le, Nat.ltb_lt. reflexivity.
Qed.

(** The log of a call starts with its own [RecCall]; its fetches and the
    finer calls correspond. *)
Lemma recursive_call_log (fuel : nat) :
  forall (start_date end_date : datetime) (g : nat),
    (0 < fuel)%nat -> (length granularity_levels <= fuel + g)%nat ->
    exists log',
      (recursive_call fuel start_date end_date g).1 = RecCall start_date end_date g :: log' /\
      fetches_drilled (recursive_call fuel start_date end_date g).1
                      (recursive_call fuel start_date end_date g).1 /\
      calls_issued (recursive_call fuel start_date end_date g).1 log'.
Proof.
  induction fuel as [|fuel IH]; intros s e g Hpos Hfuel; [lia|].
  assert (forall log : list event,
            fetches_drilled log [] /\ calls_issued log []) as Hnil.
  { intros log. split; [intros ? ? ? ? Hin|intros ? ? ? Hin]; by apply elem_of_nil in Hin. }
  simpl. destruct (granularity_levels !! g) as [granularity|].
  - destruct (generate_date_range s e granularity) as [date_range|err|].
    + pose proof (visit_all_log
                    (fun date next_date => recursive_call fuel date next_date (S g)) g
                    (sub_intervals date_range e)) as Hlog.
      assert (drill_ok (fun date next_date => recursive_call fuel date next_date (S g)) g)
        as Hdrill.
      { intros a b Hl. apply limit_reached_finer in Hl as [_ Hg].
        simpl in Hfuel. apply IH; simpl; lia. }
      specialize (Hlog Hdrill []).
      destruct (visit_all _ g (sub_intervals date_range e) []) as [log r].
      simpl in *. destruct Hlog as [Hf Hc]. exists log. split_and!; [done| |].
      * apply fetches_drilled_cons; [apply fetches_drilled_call|].
        eapply fetches_drilled_mono; [|exact Hf]. intros x Hx. by apply elem_of_cons; right.
      * eapply calls_issued_mono; [|exact Hc]. intros x Hx. by apply elem_of_cons; right.
    + exists []. simpl. split_and!; [done| |apply Hnil].
      apply fetches_drilled_call.
    + exists []. simpl. split_and!; [done| |apply Hnil].
      apply fetches_drilled_call.
  - exists []. simpl. split_and!; [done| |apply Hnil].
    apply fetches_drilled_call.
Qed.

(** C1, as the code has it: in a run of [adaptive_api_call], every fetch on
    a sub-interval [a, b) at granularity index [g] records the number of
    rows of the frame [congress_api_call] returned, and a finer call on
    [a, b) at index [g + 1] is issued if and only if that number of rows is
    at least [response_limit] and [g] is not the finest index.  The
    total-count indicator of the payload plays no part. *)
Theorem drill_down_on_row_count (start_date end_date : datetime)
    (g : nat) (a b : datetime) (n : nat) :
  Fetched g a b n ∈ (adaptive_api_call start_date end_date).1 ->
  n = length (congress_api_call a b response_limit) /\
  (RecCall a b (S g) ∈ (adaptive_api_call start_date end_date).1 <->
   response_limit <= Z.of_nat n /\ (g < length granularity_levels - 1)%nat).
Proof.
  intros Hin. unfold adaptive_api_call in *.
  destruct (recursive_call_log (length granularity_levels) start_date end_date 0)
    as (log' & Hlog & Hf & Hc); [simpl; lia..|].
  destruct (Hf g a b n Hin) as [Hn Hd]. split; [done|].
  change (length granularity_levels - 1)%nat with 6%nat.
  rewrite <- limit_reached_finer. split; [|done].
  intros Hcall. rewrite Hlog in Hcall.
  apply elem_of_cons in Hcall as [Heq|Hcall]; [discriminate Heq|].
  destruct (Hc a b (S g) Hcall) as (g' & Hg & Hl & _).
  inversion Hg; subst g'. by rewrite Hn.
Qed.

(** *** What a run returns *)

(** The rows one sub-interval contributes: those of the finer call when the
    limit is reached, those of its own frame otherwise. *)
Definition contributes (drill : datetime -> datetime -> list event * result (list row))
    (g : nat) (interval : datetime * datetime) (part : list row) : Prop :=
  let data := congress_api_call interval.1 interval.2 response_limit in
  if limit_reached g (length data) then (drill interval.1 interval.2).2 = Ok part
  else part = data.

Lemma visit_all_concat (drill : datetime -> datetime -> list event * result (list row))
    (g : nat) (intervals : list (datetime * datetime)) :
  forall all_data rows,
    (visit_all drill g intervals all_data).2 = Ok rows ->
    exists parts,
      Forall2 (contributes drill g) intervals parts /\
      rows = all_data ++ concat parts.
Proof.
  induction intervals as [|[date next_date] intervals IH]; intros all_data rows H.
  - simpl in H. inversion H; subst. exists []. split; [constructor|].
    simpl. by rewrite app_nil_r.
  - simpl in H.
    destruct (limit_reached g (length (congress_api_call date next_date response_limit)))
      eqn:Hl.
    + destruct (drill date next_date) as [log [finer|err|]] eqn:Hd; [|done..].
      destruct (visit_all drill g intervals (all_data ++ finer)) as [log' r] eqn:Hv.
      simpl in H. subst r.
      destruct (IH (all_data ++ finer) rows) as (parts & Hparts & ->); [by rewrite Hv|].
      exists (finer :: parts). split; [|simpl; by rewrite app_assoc].
      constructor; [|done]. unfold contributes. simpl. rewrite Hl, Hd. done.
    + destruct (visit_all drill g intervals
                  (all_data ++ congress_api_call date next_date response_limit))
        as [log' r] eqn:Hv.
      simpl in H. subst r.
      destruct (IH (all_data ++ congress_api_call date next_date response_limit) rows)
        as (parts & Hparts & ->); [by rewrite Hv|].
      exists (congress_api_call date next_date response_limit :: parts).
      split; [|simpl; by rewrite app_assoc].
      constructor; [|done]. unfold contributes. simpl. by rewrite Hl.
Qed.

Lemma visit_all_returns (drill : datetime -> datetime -> list event * result (list row))
    (g : nat) (intervals : list (datetime * datetime)) :
  (forall a b, (a, b) ∈ intervals ->
     limit_reached g (length (congress_api_call a b response_limit)) = true ->
     exists finer, (drill a b).2 = Ok finer) ->
  forall all_data, exists rows, (visit_all drill g intervals all_data).2 = Ok rows.
Proof.
  induction intervals as [|[date next_date] intervals IH]; intros Hdrill all_data.
  - simpl. by eauto.
  - simpl.
    destruct (limit_reached g (length (congress_api_call date next_date response_limit)))
      eqn:Hl.
    + destruct (Hdrill date next_date) as [finer Hfiner]; [by left|done|].
      destruct (drill date next_date) as [log r]. simpl in Hfiner. subst r.
      destruct (IH ltac:(intros a b Hin; apply Hdrill; by right) (all_data ++ finer))
        as [rows Hrows].
      destruct (visit_all drill g intervals (all_data ++ finer)) as [log' r].
      simpl in *. by eauto.
    + destruct (IH ltac:(intros a b Hin; apply Hdrill; by right)
                  (all_data ++ congress_api_call date next_date response_limit))
        as [rows Hrows].
      destruct (visit_all drill g intervals _) as [log' r].
      simpl in *. by eauto.
Qed.

(** A call on a range that ends by 9999-12-01 returns a frame: the fuel is
    never used up and no date leaves the calendar. *)
Lemma recursive_call_returns (fuel : nat) :
  forall (start_date end_date : datetime) (g : nat),
    0 <= start_date -> end_date <= last_safe_end ->
    (g < length granularity_levels)%nat ->
    (length granularity_levels <= fuel + g)%nat ->
    exists rows, (recursive_call fuel start_date end_date g).2 = Ok rows.
Proof.
  induction fuel as [|fuel IH]; intros s e g Hs He Hg Hfuel; [simpl in *; lia|].
  simpl. destruct (lookup_lt_is_Some_2 granularity_levels g Hg) as [granularity ->].
  destruct (generate_loop_Ok granularity e _ s Hs He
              (generate_date_range_returns s e granularity Hs)) as [date_range Hgen].
  fold (generate_date_range s e granularity) in Hgen. rewrite Hgen.
  destruct (visit_all_returns
              (fun date next_date => recursive_call fuel date next_date (S g)) g
              (sub_intervals date_range e)) with (all_data := @nil row) as [rows Hrows].
  - intros a b Hin Hl. apply limit_reached_finer in Hl as [_ Hl].
    destruct (Z.lt_ge_cases s e) as [Hlt|Hge].
    + destruct (generate_loop_partition _ _ _ _ _ (conj Hs Hlt) Hgen) as (rest & _ & Hp).
      pose proof (partition_of_bounds _ _ _ Hp a b Hin).
      apply IH; simpl in *; lia.
    + unfold generate_date_range in Hgen. simpl in Hgen.
      assert ((s <? e) = false) as E by lia. rewrite E in Hgen.
      inversion Hgen; subst. by apply elem_of_nil in Hin.
  - destruct (visit_all _ g (sub_intervals date_range e) []) as [log r].
    simpl in *. by eauto.
Qed.

(** C3: the frame a call returns is the concatenation, in the order of the
    sub-intervals, of one part per sub-interval; for a sub-interval whose
    frame has at least [response_limit] rows while a finer granularity
    exists, that part is the frame returned by the finer call on the same
    sub-interval, and the rows of the coarse frame are not in the result;
    for any other sub-interval it is the coarse frame itself.  On a range
    that ends by 9999-12-01 the call does return a frame. *)
Theorem finer_result_replaces_coarse (fuel : nat) (start_date end_date : datetime)
    (g : nat) :
  (0 <= start_date -> end_date <= last_safe_end ->
   (g < length granularity_levels)%nat ->
   (length granularity_levels <= S fuel + g)%nat ->
   exists rows, (recursive_call (S fuel) start_date end_date g).2 = Ok rows) /\
  (forall rows,
     (recursive_call (S fuel) start_date end_date g).2 = Ok rows ->
     exists granularity date_range parts,
       granularity_levels !! g = Some granularity /\
       generate_date_range start_date end_date granularity = Ok date_range /\
       Forall2 (fun interval part =>
                  let data := congress_api_call interval.1 interval.2 response_limit in
                  if limit_reached g (length data)
                  then (recursive_call fuel interval.1 interval.2 (S g)).2 = Ok part
                  else part = data)
               (sub_intervals date_range end_date) parts /\
       rows = concat parts).
Proof.
  split; [apply recursive_call_returns|].
  intros rows H. simpl in H.
  destruct (granularity_levels !! g) as [granularity|] eqn:Hg; [|done].
  destruct (generate_date_range start_date end_date granularity) as [date_range|err|]
    eqn:Hgen; [|done..].
  destruct (visit_all _ g (sub_intervals date_range end_date) []) as [log r] eqn:Hv.
  simpl in H. subst r.
  destruct (visit_all_concat
              (fun date next_date => recursive_call fuel date next_date (S g)) g
              (sub_intervals date_range end_date) [] rows)
    as (parts & Hparts & ->); [by rewrite Hv|].
  exists granularity, date_range, parts. split_and!; [reflexivity|exact Hgen|exact Hparts|reflexivity].
Qed.

(** *** The fetches whose frames are kept *)

(** The range of a fetch that was not drilled down. *)
Definition kept_range (ev : event) : option (datetime * datetime) :=
  match ev with
  | Fetched g date next_date n =>
      if limit_reached g n then None else Some (date, next_date)
  | RecCall _ _ _ => None
  end.

Definition kept_ranges (log : list event) : list (datetime * datetime) :=
  omap kept_range log.

(** The frames of the ranges, one after the other. *)
Definition frames (ranges : list (datetime * datetime)) : list row :=
  ranges ≫= fun range => congress_api_call range.1 range.2 response_limit.

Lemma kept_ranges_app (log log' : list event) :
  kept_ranges (log ++ log') = kept_ranges log ++ kept_ranges log'.
Proof. apply omap_app. Qed.

Lemma frames_app (l l' : list (datetime * datetime)) :
  frames (l ++ l') = frames l ++ frames l'.
Proof. apply bind_app. Qed.

Lemma visit_all_frames (drill : datetime -> datetime -> list event * result (list row))
    (g : nat) (intervals : list (datetime * datetime)) :
  (forall a b finer, (drill a b).2 = Ok finer -> finer = frames (kept_ranges (drill a b).1)) ->
  forall all_data rows,
    (visit_all drill g intervals all_data).2 = Ok rows ->
    rows = all_data ++ frames (kept_ranges (visit_all drill g intervals all_data).1).
Proof.
  intros Hdrill. induction intervals as [|[date next_date] intervals IH];
    intros all_data rows H; simpl in *.
  - injection H as <-. by rewrite app_nil_r.
  - destruct (limit_reached g (length (congress_api_call date next_date response_limit)))
      eqn:Hl.
    + pose proof (Hdrill date next_date) as Hd.
      destruct (drill date next_date) as [log [finer| |]]; [|done..].
      specialize (Hd finer eq_refl). simpl in Hd.
      specialize (IH (all_data ++ finer) rows).
      destruct (visit_all drill g intervals (all_data ++ finer)) as [log' r].
      simpl in *. rewrite (IH H). unfold kept_ranges at 2. simpl. rewrite Hl.
      fold (kept_ranges (log ++ log')).
      by rewrite kept_ranges_app, frames_app, <- app_assoc, <- Hd.
    + specialize (IH (all_data ++ congress_api_call date next_date response_limit) rows).
      destruct (visit_all drill g intervals _) as [log' r].
      simpl in *. rewrite (IH H). unfold kept_ranges at 2. simpl. rewrite Hl.
      fold (kept_ranges log'). unfold frames at 2. simpl.
      by rewrite <- app_assoc.
Qed.

Lemma recursive_call_frames (fuel : nat) :
  forall (start_date end_date : datetime) (g : nat) (rows : list row),
    (recursive_call fuel start_date end_date g).2 = Ok rows ->
    rows = frames (kept_ranges (recursive_call fuel start_date end_date g).1).
Proof.
  induction fuel as [|fuel IH]; intros s e g rows H; simpl in *; [done|].
  destruct (granularity_levels !! g) as [granularity|]; [|done].
  destruct (generate_date_range s e granularity) as [date_range| |]; [|done..].
  pose proof (visit_all_frames
                (fun date next_date => recursive_call fuel date next_date (S g)) g
                (sub_intervals date_range e)
                ltac:(intros a b finer Hf; by apply IH) [] rows) as Hv.
  destruct (visit_all _ g (sub_intervals date_range e) []) as [log r].
  simpl in *. by apply Hv.
Qed.




(** The frame [adaptive_api_call] returns is made of the frames of the
    fetches that were not drilled down, in the order in which they were
    made, and of nothing else. *)
Theorem result_is_kept_frames (start_date end_date : datetime) (rows : list row) :
  (adaptive_api_call start_date end_date).2 = Ok rows ->
  rows = frames (kept_ranges (adaptive_api_call start_date end_date).1).
Proof. apply recursive_call_frames. Qed.


(** On an empty range, [end_date <= start_date], no fetch is made and the
    frame is empty. *)
Theorem empty_range_no_fetch (start_date end_date : datetime) :
  end_date <= start_date ->
  adaptive_api_call start_date end_date = ([RecCall start_date end_date 0], Ok []).
Proof.
  intros Hle. unfold adaptive_api_call. simpl. unfold generate_date_range. simpl.
  assert ((start_date <? end_date) = false) as -> by lia. reflexivity.
Qed.

End Recursion.

Arguments response : clear implicits.
Arguments row : clear implicits.
Arguments event : clear implicits.

(** *** A run over January and February 2020 *)

Definition jan1 : datetime := datetime_of 2020 1 1 0 0.
Definition feb1 : datetime := datetime_of 2020 2 1 0 0.
Definition mar1 : datetime := datetime_of 2020 3 1 0 0.

(** The four Wednesdays that cut January 2020 into weeks. *)
Definition january_weeks : list (datetime * datetime) :=
  [(jan1, datetime_of 2020 1 8 0 0);
   (datetime_of 2020 1 8 0 0, datetime_of 2020 1 15 0 0);
   (datetime_of 2020 1 15 0 0, datetime_of 2020 1 22 0 0);
   (datetime_of 2020 1 22 0 0, datetime_of 2020 1 29 0 0);
   (datetime_of 2020 1 29 0 0, feb1)].

(** Bills are numbers here. *)
Definition numbered (first : Z) (n : nat) : list Z :=
  (fun i => first + Z.of_nat i) <$> seq 0 n.

(** A server with 300 bills in January, of which a query returns the
    first [limit], 40 bills in February and 60 in any shorter range. *)
Definition busy_january (fromDateTime toDateTime limit : Z) : response Z :=
  if (fromDateTime =? jan1) && (toDateTime =? feb1)
  then Response (Some (numbered 0 (Z.to_nat limit))) 300
  else if (fromDateTime =? feb1) && (toDateTime =? mar1)
  then Response (Some (numbered 1000 40)) 40
  else Response (Some (numbered (fromDateTime / US_PER_DAY * 100) 60)) 60.

Example busy_january_log :
  (adaptive_api_call busy_january 250 jan1 mar1).1 =
  [RecCall jan1 mar1 0; Fetched 0 jan1 feb1 250; RecCall jan1 feb1 1] ++
  ((fun w => Fetched 1 w.1 w.2 60) <$> january_weeks) ++
  [Fetched 0 feb1 mar1 40].
Proof. vm_compute. reflexivity. Qed.

(** January's 250 monthly rows are dropped for the rows of its five weeks;
    February's 40 rows follow. *)
Example busy_january_rows :
  (adaptive_api_call busy_january 250 jan1 mar1).2 =
  Ok ((january_weeks ≫= fun w => congress_api_call busy_january w.1 w.2 250) ++
      congress_api_call busy_january feb1 mar1 250) /\
  length (congress_api_call busy_january jan1 feb1 250) = 250%nat /\
  length (january_weeks ≫= fun w => congress_api_call busy_january w.1 w.2 250) = 300%nat /\
  length (congress_api_call busy_january feb1 mar1 250) = 40%nat.
Proof. vm_compute. done. Qed.

Lemma sub_intervals_partition_witness :
  partition_of jan1 mar1 [(jan1, feb1); (feb1, mar1)] /\
  covers jan1 mar1 [(jan1, feb1); (feb1, mar1)].
Proof.
  destruct (sub_intervals_partition jan1 mar1 Month) as (_ & _ & H).
  - vm_compute. split; [discriminate|reflexivity].
  - apply (H [jan1; feb1]). vm_compute. reflexivity.
Defined.

Lemma drill_down_witness :
  250%nat = length (congress_api_call busy_january jan1 feb1 250) /\
  (RecCall jan1 feb1 1 ∈ (adaptive_api_call busy_january 250 jan1 mar1).1 <->
   250 <= Z.of_nat 250 /\ (0 < length granularity_levels - 1)%nat).
Proof.
  apply (drill_down_on_row_count busy_january 250 jan1 mar1 0 jan1 feb1 250).
  rewrite busy_january_log. do 2 constructor.
Defined.

Lemma finer_result_witness :
  exists january_by_week,
    (recursive_call busy_january 250 6 jan1 feb1 1).2 = Ok january_by_week /\
    (adaptive_api_call busy_january 250 jan1 mar1).2 =
    Ok (january_by_week ++ congress_api_call busy_january feb1 mar1 250).
Proof.
  destruct (finer_result_replaces_coarse busy_january 250 6 jan1 mar1 0)
    as [Hret Hstruct].
  destruct Hret as [rows Hrows]; [by vm_compute|by vm_compute|simpl; lia..|].
  destruct (Hstruct rows Hrows)
    as (granularity & date_range & parts & Hg & Hgen & Hparts & ->).
  injection Hg as <-.
  assert (generate_date_range jan1 mar1 Month = Ok [jan1; feb1]) as E
    by (vm_compute; reflexivity).
  rewrite E in Hgen. injection Hgen as <-.
  change (sub_intervals [jan1; feb1] mar1) with [(jan1, feb1); (feb1, mar1)] in Hparts.
  apply Forall2_cons_inv_l in Hparts as (january & parts' & Hjan & Hparts & ->).
  apply Forall2_cons_inv_l in Hparts as (february & parts'' & Hfeb & Hparts & ->).
  apply Forall2_nil_inv_l in Hparts as ->.
  cbv beta zeta in Hjan, Hfeb. cbn [fst snd] in Hjan, Hfeb.
  assert (limit_reached 250 0 (length (congress_api_call busy_january jan1 feb1 250)) = true)
    as E1 by (vm_compute; reflexivity).
  assert (limit_reached 250 0 (length (congress_api_call busy_january feb1 mar1 250)) = false)
    as E2 by (vm_compute; reflexivity).
  rewrite E1 in Hjan. rewrite E2 in Hfeb. subst february.
  exists january. split; [exact Hjan|].
  unfold adaptive_api_call. change (length granularity_levels) with 7%nat.
  rewrite Hrows. cbn [concat]. rewrite app_nil_r. reflexivity.
Defined.

(** A server whose payload announces 300 bills in January but holds 40. *)
Definition inflated_count (fromDateTime toDateTime limit : Z) : response Z :=
  Response (Some (numbered 0 40)) 300.

(** A server whose payload announces 10 bills in January and February but
    returns as many as the limit allows; shorter ranges hold 3. *)
Definition deflated_count (fromDateTime toDateTime limit : Z) : response Z :=
  if (fromDateTime =? jan1) && (toDateTime =? feb1)
  then Response (Some (numbered 0 (Z.to_nat limit))) 10
  else Response (Some (numbered 0 3)) 3.

Example inflated_count_run :
  pagination_count (inflated_count jan1 feb1 250) = 300 /\
  adaptive_api_call inflated_count 250 jan1 feb1 =
  ([RecCall jan1 feb1 0; Fetched 0 jan1 feb1 40],
   Ok (congress_api_call inflated_count jan1 feb1 250)).
Proof. vm_compute. done. Qed.

Example deflated_count_run :
  pagination_count (deflated_count jan1 feb1 250) = 10 /\
  (adaptive_api_call deflated_count 250 jan1 feb1).1 =
  [RecCall jan1 feb1 0; Fetched 0 jan1 feb1 250; RecCall jan1 feb1 1] ++
  ((fun w => Fetched 1 w.1 w.2 3) <$> january_weeks).
Proof. vm_compute. done. Qed.

(** C1 as stated fails: with the total-count indicator of the payload as
    the trigger, a range announced with 300 bills would be drilled; the
    call is not issued when the frame has 40 rows. *)
Lemma count_field_is_not_read :
  ~ (forall (api : datetime -> datetime -> Z -> response Z) (response_limit : Z)
            (start_date end_date : datetime) (g : nat) (a b : datetime) (n : nat),
       Fetched g a b n ∈ (adaptive_api_call api response_limit start_date end_date).1 ->
       (RecCall a b (S g) ∈ (adaptive_api_call api response_limit start_date end_date).1 <->
        response_limit <= pagination_count (api a b response_limit) /\
        (g < length granularity_levels - 1)%nat)).
Proof.
  intros H. specialize (H inflated_count 250 jan1 feb1 0%nat jan1 feb1 40%nat).
  destruct inflated_count_run as [_ Hrun]. rewrite Hrun in H. cbn [fst] in H.
  destruct H as [_ H]; [do 2 constructor|].
  assert (RecCall jan1 feb1 1 ∈ [RecCall jan1 feb1 0; Fetched 0 jan1 feb1 40]) as Hin.
  { apply H. split; [by vm_compute|simpl; lia]. }
  apply elem_of_cons in Hin as [Heq|Hin]; [discriminate Heq|].
  apply list_elem_of_singleton in Hin. discriminate Hin.
Qed.

(** The ranges kept in the run on January and February: January's weeks,
    then February. *)
Example busy_january_kept :
  kept_ranges 250 (adaptive_api_call busy_january 250 jan1 mar1).1 =
  january_weeks ++ [(feb1, mar1)].
Proof. vm_compute. reflexivity. Qed.

Lemma result_is_kept_frames_witness :
  exists rows,
    (adaptive_api_call busy_january 250 jan1 mar1).2 = Ok rows /\
    rows = frames busy_january 250
             (kept_ranges 250 (adaptive_api_call busy_january 250 jan1 mar1).1).
Proof.
  destruct busy_january_rows as [Hrows _].
  eexists. split; [exact Hrows|].
  apply (result_is_kept_frames busy_january 250 jan1 mar1). exact Hrows.
Defined.


Lemma empty_range_witness :
  adaptive_api_call busy_january 250 mar1 jan1 = ([RecCall mar1 jan1 0], Ok []).
Proof.
  apply (empty_range_no_fetch busy_january 250 mar1 jan1). vm_compute. discriminate.
Defined.

End Partitioner.
